(** * Row encoding: Cord, RowWriter and RowSetWriter

    A shallow embedding of [src/common/base/Cord.{h,cpp}],
    [src/dataman/RowWriter.cpp] and [src/dataman/RowSetWriter.cpp].

    Conventions.
    - [size_t] and [uint64_t] values are [Z] in [0, 2^64), with the
      wrap-around of every arithmetic operation written out ([wrap64]).
    - A byte is a [Byte.byte]; raw memory is a [list byte].
    - A call whose behaviour is undefined in C++ (a write past the tail room,
      a dereference of a null chain head) or fatal ([LOG(FATAL)], [CHECK])
      yields [None]. *)

From Stdlib Require Import ZArith List Lia Bool Sorted.
From Stdlib.Strings Require Import Byte.
Import ListNotations.
Local Open Scope Z_scope.

(** ** Machine integers and bytes *)

Definition wrap64 (x : Z) : Z := x mod 2 ^ 64.

(** Conversion of a 64-bit pattern to [int64_t]. *)
Definition to_int64 (x : Z) : Z :=
  let y := wrap64 x in if y <? 2 ^ 63 then y else y - 2 ^ 64.

(** Conversion of a 64-bit value to [int32_t] (two's complement). *)
Definition to_int32 (x : Z) : Z :=
  let y := x mod 2 ^ 32 in if y <? 2 ^ 31 then y else y - 2 ^ 32.

(** The low eight bits of [z], as a byte. *)
Definition byte_of_Z (z : Z) : byte :=
  match Byte.of_N (Z.to_N (z mod 256)) with
  | Some b => b
  | None => x00
  end.

Definition Z_of_byte (b : byte) : Z := Z.of_N (Byte.to_N b).

(** [::memcpy(dst, &v, n)] on the little-endian host: the [n] low-order bytes
    of [v], least significant first. *)
Fixpoint le_bytes (n : nat) (v : Z) : list byte :=
  match n with
  | O => []
  | S k => byte_of_Z v :: le_bytes k (Z.shiftr v 8)
  end.

(** The little-endian value of a byte string. *)
Fixpoint le_value (bs : list byte) : Z :=
  match bs with
  | [] => 0
  | b :: r => Z_of_byte b + 256 * le_value r
  end.

(** [size()] of a string or byte range. *)
Definition len (bs : list byte) : Z := Z.of_nat (length bs).

(** The failure-propagating bind used for fallible steps. *)
Definition obind {A B : Type} (m : option A) (k : A -> option B) : option B :=
  match m with
  | Some a => k a
  | None => None
  end.

Notation "x <- m ;; k" := (obind m (fun x => k))
  (at level 61, m at next level, right associativity).

(** ** folly::IOBuf, as far as Cord and the writers use it

    One segment of a chain: a buffer of [capacity] bytes of which [headroom]
    bytes precede the data and [tailroom] bytes follow it.  A chain is a
    [list IOBuf] in chain order; the null pointer is the empty list;
    [head->prev()] is the last element and [head->prependChain(x)] puts [x]
    at the end of the chain.  [create] is modelled as giving exactly the
    capacity asked for. *)
Module IOBuf.

Record t : Type := mk {
  capacity : Z;
  headroom : Z;
  data : list byte
}.

Definition length (b : t) : Z := len (data b).

Definition tailroom (b : t) : Z := capacity b - headroom b - length b.

Definition create (cap : Z) : t := mk cap 0 [].

(** [memcpy(writableTail(), bs, n); append(n)]: undefined when the bytes do
    not fit the tail room. *)
Definition write_tail (bs : list byte) (b : t) : option t :=
  if len bs <=? tailroom b
  then Some (mk (capacity b) (headroom b) (data b ++ bs))
  else None.

(** [reserve(minHeadroom, minTailroom)]: the data is kept; afterwards the
    head room and the tail room are at least what was asked for. *)
Definition reserve (minHeadroom minTailroom : Z) (b : t) : t :=
  if (minHeadroom <=? headroom b) && (minTailroom <=? tailroom b) then b
  else if wrap64 (minHeadroom + minTailroom) <=? wrap64 (headroom b + tailroom b)
  then mk (capacity b) minHeadroom (data b)
  else mk (wrap64 (length b + minHeadroom + minTailroom)) minHeadroom (data b).

(** [advance(amount)] shifts the data forward, on an empty buffer it only
    moves the data pointer; undefined when the tail room is too small. *)
Definition advance (amount : Z) (b : t) : option t :=
  if amount <=? tailroom b
  then Some (mk (capacity b) (wrap64 (headroom b + amount)) (data b))
  else None.

(** The data lies within the buffer. *)
Definition within (b : t) : Prop :=
  0 <= headroom b /\ headroom b + length b <= capacity b.

(** [computeChainDataLength()]. *)
Fixpoint computeChainDataLength (ch : list t) : Z :=
  match ch with
  | [] => 0
  | b :: r => wrap64 (length b + computeChainDataLength r)
  end.

(** The bytes of a chain, in chain order. *)
Definition chain_bytes (ch : list t) : list byte := concat (map data ch).

(** [head->prev()]. *)
Fixpoint last (ch : list t) : option t :=
  match ch with
  | [] => None
  | [b] => Some b
  | _ :: r => last r
  end.

(** An update of the last segment, in place. *)
Fixpoint on_last (f : t -> t) (ch : list t) : list t :=
  match ch with
  | [] => []
  | [b] => [f b]
  | b :: r => b :: on_last f r
  end.

End IOBuf.

(** ** Cord *)
Module Cord.

Record t : Type := mk {
  size_ : Z;
  head_ : list IOBuf.t
}.

(** [Cord() = default]. *)
Definition empty_cord : t := mk 0 [].

Definition kBufferAlignment : Z := 256.
Definition kMaxGrowthSize : Z := Z.shiftl 256 10.

(** [(size + kBufferAlignment - 1) & ~(kBufferAlignment - 1)] on [size_t]. *)
Definition alignedSize (size : Z) : Z :=
  Z.land (wrap64 (size + kBufferAlignment - 1))
         (wrap64 (Z.lnot (kBufferAlignment - 1))).

Definition size (c : t) : Z := size_ c.

Definition empty (c : t) : bool := size c =? 0.

Definition clear (c : t) : t := mk 0 [].

Definition makeRoomForWriteSlow (size : Z) (c : t) : option t :=
  b <- IOBuf.last (head_ c) ;;
  let room := IOBuf.tailroom b in
  let length := IOBuf.length b in
  let capacity := IOBuf.capacity b in
  if length <=? capacity / 2 then
    let need := wrap64 (size - room) in
    Some (mk (size_ c)
             (IOBuf.on_last
                (IOBuf.reserve 0 (alignedSize (wrap64 (capacity + need))))
                (head_ c)))
  else
    let newCapacity := wrap64 (capacity * 2) in
    let newCapacity :=
      if newCapacity >? kMaxGrowthSize then kMaxGrowthSize else newCapacity in
    let newCapacity := if newCapacity >? size then newCapacity else size in
    Some (mk (size_ c) (head_ c ++ [IOBuf.create newCapacity])).

Definition makeRoomForWrite (size : Z) (c : t) : option t :=
  match head_ c with
  | [] => Some (mk (size_ c) [IOBuf.create (alignedSize size)])
  | _ =>
      b <- IOBuf.last (head_ c) ;;
      let room := IOBuf.tailroom b in
      if size <=? room then Some c else makeRoomForWriteSlow size c
  end.

(** [memcpy(tail(), bs, n); advance(n)] on the last segment. *)
Definition write_tail (bs : list byte) (c : t) : option t :=
  b <- IOBuf.last (head_ c) ;;
  b' <- IOBuf.write_tail bs b ;;
  Some (mk (wrap64 (size_ c + len bs)) (IOBuf.on_last (fun _ => b') (head_ c))).

(** [operator<<(const T&)] for strings and byte ranges, and
    [write(value, len)]. *)
Definition write (bs : list byte) (c : t) : option t :=
  c1 <- makeRoomForWrite (len bs) c ;;
  write_tail bs c1.

(** [operator<<(T value)] for an integral or floating-point [T] of
    [width] bytes whose bit pattern is [v]. *)
Definition put (width : nat) (v : Z) (c : t) : option t :=
  c1 <- makeRoomForWrite (Z.of_nat width) c ;;
  write_tail (le_bytes width v) c1.

(** [::strlen]: the bytes before the first NUL. *)
Fixpoint strlen_prefix (s : list byte) : list byte :=
  match s with
  | [] => []
  | b :: r => if Byte.eqb b x00 then [] else b :: strlen_prefix r
  end.

(** [operator<<(const T *value)] for character pointers. *)
Definition write_cstr (s : list byte) (c : t) : option t :=
  write (strlen_prefix s) c.

(** A visitor with the state it captures: it is given a segment view and
    answers whether to go on. *)
Definition Visitor (S : Type) : Type := list byte -> S -> bool * S.

Fixpoint visit_chain {S : Type} (visitor : Visitor S) (ch : list IOBuf.t)
    (s : S) : bool * S :=
  match ch with
  | [] => (true, s)
  | b :: r =>
      let '(go, s') := visitor (IOBuf.data b) s in
      if go then visit_chain visitor r s' else (false, s')
  end.

Definition apply {S : Type} (visitor : Visitor S) (c : t) (s : S)
    : option (bool * S) :=
  if empty c then Some (true, s)
  else match head_ c with
       | [] => None
       | ch => Some (visit_chain visitor ch s)
       end.

(** [appendTo(str)]: the new string and the returned size. *)
Definition appendTo (str : list byte) (c : t) : option (list byte * Z) :=
  if empty c then Some (str, 0)
  else
    r <- apply (fun buf s => (true, s ++ buf)) c str ;;
    Some (snd r, size c).

Definition str (c : t) : option (list byte) :=
  r <- appendTo [] c ;; Some (fst r).

(** The views delivered to a visitor that never stops, in delivery order. *)
Definition views (c : t) : option (list (list byte)) :=
  r <- apply (fun buf s => (true, s ++ [buf])) c [] ;; Some (snd r).

(** [clone()]: a chain sharing the same bytes; null head is undefined. *)
Definition clone (c : t) : option (list IOBuf.t) :=
  match head_ c with
  | [] => None
  | ch => Some ch
  end.

Definition prependHeader (header : list IOBuf.t) (c : t) : t :=
  let size := IOBuf.computeChainDataLength header in
  match head_ c with
  | [] => mk size header
  | ch => mk (wrap64 (size_ c + size)) (header ++ ch)
  end.

(** [operator<<(const Cord& rhs)]. *)
Definition append_cord (rhs : t) (c : t) : option t :=
  let rhsSize := size rhs in
  if rhsSize =? 0 then Some c
  else
    let newTail := IOBuf.create rhsSize in
    r <- apply (fun buf (dest : option IOBuf.t) =>
                  (true, d <- dest ;; IOBuf.write_tail buf d))
               rhs (Some newTail) ;;
    newTail' <- snd r ;;
    match head_ c with
    | [] => None
    | ch => Some (mk (wrap64 (size_ c + rhsSize)) (ch ++ [newTail']))
    end.

(** One append: raw bytes ([std::string], [StringPiece], [ByteRange] or
    [write(ptr, len)]), a fixed-width scalar, or a C string. *)
Inductive Append : Type :=
| ABytes (bs : list byte)
| AScalar (width : nat) (v : Z)
| ACStr (s : list byte).

(** The bytes an append is to write. *)
Definition bytes_of (a : Append) : list byte :=
  match a with
  | ABytes bs => bs
  | AScalar width v => le_bytes width v
  | ACStr s => strlen_prefix s
  end.

Definition append (a : Append) (c : t) : option t :=
  match a with
  | ABytes bs => write bs c
  | AScalar width v => put width v c
  | ACStr s => write_cstr s c
  end.

Fixpoint appends (l : list Append) (c : t) : option t :=
  match l with
  | [] => Some c
  | a :: r => c1 <- append a c ;; appends r c1
  end.

(** [Cord()] and [Cord(size_t reserve)]. *)
Definition construct (reserve : option Z) : option t :=
  match reserve with
  | None => Some empty_cord
  | Some r => makeRoomForWrite r empty_cord
  end.

(** The room asked for at construction. *)
Definition reserved (reserve : option Z) : Z :=
  match reserve with Some r => r | None => 0 end.

(** The growth branch that [makeRoomForWrite(size)] takes. *)
Inductive Branch : Type :=
| FirstSegment        (* null head: the first segment is created *)
| EnoughRoom          (* the tail has the room *)
| GrowInPlace         (* makeRoomForWriteSlow: reserve on the tail *)
| NewSegment.         (* makeRoomForWriteSlow: a new chained segment *)

Definition branch_of (size : Z) (c : t) : option Branch :=
  match head_ c with
  | [] => Some FirstSegment
  | _ =>
      b <- IOBuf.last (head_ c) ;;
      if size <=? IOBuf.tailroom b then Some EnoughRoom
      else if IOBuf.length b <=? IOBuf.capacity b / 2 then Some GrowInPlace
      else Some NewSegment
  end.

(** A segment of a cord: within its buffer, with a bounded head room. *)
Definition seg_ok (b : IOBuf.t) : Prop :=
  IOBuf.within b /\ IOBuf.headroom b <= 2 ^ 18.

(** The class invariant ([size()] asserts its first part): the cached
    size is the chain's data length, every segment is within its buffer,
    and the tail's capacity is bounded by the content and a slack [M]. *)
Definition inv (M : Z) (c : t) : Prop :=
  size_ c = len (IOBuf.chain_bytes (head_ c)) /\
  Forall seg_ok (head_ c) /\
  (forall b, IOBuf.last (head_ c) = Some b ->
             IOBuf.capacity b <= 2 * size_ c + M).

(** The logical content of a cord. *)
Definition content (c : t) : list byte := IOBuf.chain_bytes (head_ c).

(** A run that takes each of the four growth branches in turn. *)
Definition four_branches : list Append :=
  [ABytes (repeat x61 100); AScalar 8 5; ABytes (repeat x62 300);
   ACStr [x63; x64; x00; x65]; ABytes (repeat x66 250)].

(** A cord whose only segment of 256 bytes holds 200 bytes, and one whose
    only segment holds 100. *)
Definition cord_200 : t := mk 200 [IOBuf.mk 256 0 (repeat x61 200)].
Definition cord_100 : t := mk 100 [IOBuf.mk 256 0 (repeat x61 100)].

(** [move()]: the chain is handed over and [head_] is left null; [size_]
    is not touched. *)
Definition move (c : t) : list IOBuf.t * t := (head_ c, mk (size_ c) []).

(** The cord [c] with [k] added to its cached size. *)
Definition oversized (k : Z) (c : t) : t := mk (size_ c + k) (head_ c).

(** The elements of [l] up to and including the first that [p] refuses. *)
Fixpoint upto_refusal {A : Type} (p : A -> bool) (l : list A) : list A :=
  match l with
  | [] => []
  | x :: r => if p x then x :: upto_refusal p r else [x]
  end.

(** A visitor that records each view it is handed and goes on while [p]
    accepts the view. *)
Definition probing (p : list byte -> bool) : Visitor (list (list byte)) :=
  fun buf seen => (p buf, seen ++ [buf]).

(** The cords that [Cord() << "ab"] and [Cord() << "cde"] build. *)
Definition cord_ab : t := mk 2 [IOBuf.mk 256 0 [x61; x62]].
Definition cord_cde : t := mk 3 [IOBuf.mk 256 0 [x63; x64; x65]].

End Cord.

(** ** folly::encodeVarint

    [while (val >= 128) { *p++ = 0x80 | (val & 0x7f); val >>= 7; }
     *p++ = uint8_t(val);]
    The loop runs at most nine times on a 64-bit value; the callers' buffer
    has ten bytes. *)
Module Varint.

Fixpoint encodeVarint_loop (fuel : nat) (val : Z) : list byte :=
  match fuel with
  | O => [byte_of_Z val]
  | S fuel' =>
      if val >=? 128
      then byte_of_Z (Z.lor 128 (Z.land val 127))
             :: encodeVarint_loop fuel' (Z.shiftr val 7)
      else [byte_of_Z val]
  end.

(** [encodeVarint(uint64_t val, uint8_t* buf)]: the bytes stored in [buf];
    the returned count is their number. *)
Definition encodeVarint (val : Z) : list byte :=
  encodeVarint_loop 9 (wrap64 val).

(** The reading of a varint that the framing is meant for: seven payload
    bits per byte, least significant group first. *)
Fixpoint decode (bs : list byte) : Z :=
  match bs with
  | [] => 0
  | b :: r => Z.land (Z_of_byte b) 127 + 128 * decode r
  end.

(** The continuation bit of a byte. *)
Definition continues (b : byte) : bool := Z.testbit (Z_of_byte b) 7.

(** Every byte but the last has the continuation bit, the last has not. *)
Fixpoint well_framed (bs : list byte) : bool :=
  match bs with
  | [] => false
  | [b] => negb (continues b)
  | b :: r => continues b && well_framed r
  end.

(** Not part of the writer: the reading of one varint off the front of a
    byte string (the value and the bytes left), against which the framing
    is stated to be reversible. *)
Fixpoint read_varint (bs : list byte) : option (Z * list byte) :=
  match bs with
  | [] => None
  | b :: r =>
      if continues b then
        match read_varint r with
        | Some (v, rest) => Some (Z.land (Z_of_byte b) 127 + 128 * v, rest)
        | None => None
        end
      else Some (Z.land (Z_of_byte b) 127, r)
  end.

End Varint.

(** ** RowWriter *)
Module RowWriter.

(** [cpp2::SupportedType], as far as the writer tells its enumerators
    apart; [UNSUPPORTED] stands for every enumerator that reaches a
    [default:] label in all of the writer's switches. *)
Inductive SupportedType : Type :=
| BOOL | INT | VID | FLOAT | DOUBLE | STRING | TIMESTAMP | UNSUPPORTED.

Definition SupportedType_eqb (a b : SupportedType) : bool :=
  match a, b with
  | BOOL, BOOL | INT, INT | VID, VID | FLOAT, FLOAT | DOUBLE, DOUBLE
  | STRING, STRING | TIMESTAMP, TIMESTAMP | UNSUPPORTED, UNSUPPORTED => true
  | _, _ => false
  end.

(** The schema provider: [getVersion()], [getNumFields()] and
    [getFieldType(i)]. *)
Record SchemaProviderIf : Type := mkSchema {
  getVersion : Z;
  fieldTypes : list SupportedType
}.

Definition getNumFields (s : SchemaProviderIf) : Z :=
  Z.of_nat (length (fieldTypes s)).

Definition getFieldType (s : SchemaProviderIf) (i : Z) : option SupportedType :=
  if i <? 0 then None else nth_error (fieldTypes s) (Z.to_nat i).

(** [SchemaWriter::appendCol]. *)
Definition appendCol (ty : SupportedType) (s : SchemaProviderIf)
    : SchemaProviderIf :=
  mkSchema (getVersion s) (fieldTypes s ++ [ty]).

(** The natural type of a value handed to [operator<<]. *)
Inductive ValueKind : Type := KBool | KFloat | KDouble | KString.

(** [LOG(ERROR) << "Incompatible value type ..."]. *)
Inductive Diagnostic : Type :=
| IncompatibleValueType (k : ValueKind).

Record t : Type := mk {
  schema_ : SchemaProviderIf;
  schemaWriter_ : bool;          (* whether a SchemaWriter is owned *)
  cord_ : Cord.t;
  encoded_ : bool;
  colNum_ : Z;
  blockOffsets_ : list Z;
  colName_ : option (list byte);
  colType_ : option SupportedType;
  errors : list Diagnostic       (* the diagnostics emitted so far *)
}.

Definition with_cord (c : Cord.t) (w : t) : t :=
  mk (schema_ w) (schemaWriter_ w) c (encoded_ w) (colNum_ w)
     (blockOffsets_ w) (colName_ w) (colType_ w) (errors w).

Definition log_error (d : Diagnostic) (w : t) : t :=
  mk (schema_ w) (schemaWriter_ w) (cord_ w) (encoded_ w) (colNum_ w)
     (blockOffsets_ w) (colName_ w) (colType_ w) (errors w ++ [d]).

(** [RowWriter::RowWriter(schema)]: with a schema, or, given none, with a
    fresh schema writer that is the schema as well.  The members that the
    constructor leaves to their initialisers start as the spec's state Empty
    has them: an empty cord, column 0, no block offset, not encoded. *)
Definition create (schema : option SchemaProviderIf) : t :=
  match schema with
  | Some s => mk s false Cord.empty_cord false 0 [] None None []
  | None => mk (mkSchema 0 []) true Cord.empty_cord false 0 [] None None []
  end.

(** [__builtin_clzl] on a non-zero 64-bit value. *)
Definition clzl (v : Z) : Z := 63 - Z.log2 v.

Definition calcOccupiedBytes (v : Z) : Z :=
  if v =? 0 then 1 else 8 - clzl v / 8.

Definition size (w : t) : Z :=
  let offsetBytes := calcOccupiedBytes (Cord.size (cord_ w)) in
  let verBytes :=
    if getVersion (schema_ w) >? 0
    then calcOccupiedBytes (wrap64 (getVersion (schema_ w)))
    else 0 in
  to_int64 (Cord.size (cord_ w)
            + offsetBytes * Z.of_nat (length (blockOffsets_ w))
            + verBytes
            + 1).

(** [(i >> 4 << 4) == i]. *)
Definition block_start (i : Z) : bool :=
  Z.shiftl (Z.shiftr i 4) 4 =? i.

(** [if (i != 0 && (i >> 4 << 4) == i)
      blockOffsets_.emplace_back(cord_.size());] *)
Definition record_offset (i : Z) (w : t) : t :=
  if negb (i =? 0) && block_start i
  then mk (schema_ w) (schemaWriter_ w) (cord_ w) (encoded_ w) (colNum_ w)
          (blockOffsets_ w ++ [Cord.size (cord_ w)]) (colName_ w)
          (colType_ w) (errors w)
  else w.

(** The body grows by the bytes [bs]: [cord_ << bs]. *)
Definition emit (bs : list byte) (w : t) : option t :=
  c <- Cord.write bs (cord_ w) ;; Some (with_cord c w).

(** [w1] is [w] but for the cord and the diagnostics. *)
Definition same_frame (w w1 : t) : Prop :=
  schema_ w1 = schema_ w /\
  schemaWriter_ w1 = schemaWriter_ w /\
  encoded_ w1 = encoded_ w /\
  colNum_ w1 = colNum_ w /\
  blockOffsets_ w1 = blockOffsets_ w /\
  colName_ w1 = colName_ w /\
  colType_ w1 = colType_ w.

(** [w1] is [w] but for the body and its block offsets. *)
Definition same_but_body (w w1 : t) : Prop :=
  schema_ w1 = schema_ w /\
  schemaWriter_ w1 = schemaWriter_ w /\
  encoded_ w1 = encoded_ w /\
  colNum_ w1 = colNum_ w /\
  errors w1 = errors w.

Section Helpers.

(** The bytes that the helper [writeInt(v)] (declared in the header, not
    at hand) appends to the cord. *)
Variable writeIntBytes : Z -> list byte.

(** [static_cast<double>(float)] and [static_cast<float>(double)] on bit
    patterns. *)
Variable float_to_double : Z -> Z.
Variable double_to_float : Z -> Z.

Definition writeInt (v : Z) (w : t) : option t :=
  c <- Cord.write (writeIntBytes v) (cord_ w) ;; Some (with_cord c w).

Definition put (width : nat) (v : Z) (w : t) : option t :=
  c <- Cord.put width v (cord_ w) ;; Some (with_cord c w).

(** Modelled from the spec: the macro [RW_GET_COLUMN_TYPE(STYPE)] of the
    header.  A write past the schema's fields is fatal with a fixed
    schema; when the writer defines the schema the pending type token
    declares the new field, and the macro's argument [STYPE], the natural
    type of the value at each call site, does when none is pending. *)
Definition RW_GET_COLUMN_TYPE (stype : SupportedType) (w : t)
    : option SupportedType :=
  if colNum_ w >=? getNumFields (schema_ w) then
    if schemaWriter_ w
    then Some (match colType_ w with Some ty => ty | None => stype end)
    else None
  else getFieldType (schema_ w) (colNum_ w).

(** Modelled from the spec: the macro [RW_CLEAN_UP_WRITE()] of the
    header.  The column index advances; after completing field index [i],
    if [i != 0] and [i mod 16 == 0], the body size is appended to the
    block offsets; a field written past the schema is declared in the
    schema being defined, and the pending tokens are consumed. *)
Definition RW_CLEAN_UP_WRITE (ty : SupportedType) (w : t) : t :=
  let i := colNum_ w in
  let w1 := record_offset i w in
  let schema :=
    if i >=? getNumFields (schema_ w1)
    then appendCol ty (schema_ w1) else schema_ w1 in
  mk schema (schemaWriter_ w1) (cord_ w1) (encoded_ w1) (to_int64 (i + 1))
     (blockOffsets_ w1) None None (errors w1).

(** [operator<<(bool v)]. *)
Definition write_bool (v : bool) (w : t) : option t :=
  ty <- RW_GET_COLUMN_TYPE BOOL w ;;
  w1 <- match ty with
        | BOOL => put 1 (Z.b2z v) w
        | _ => put 1 (Z.b2z false)
                 (log_error (IncompatibleValueType KBool) w)
        end ;;
  Some (RW_CLEAN_UP_WRITE ty w1).

(** [operator<<(float v)]; [v] is the bit pattern of the value. *)
Definition write_float (v : Z) (w : t) : option t :=
  ty <- RW_GET_COLUMN_TYPE FLOAT w ;;
  w1 <- match ty with
        | FLOAT => put 4 v w
        | DOUBLE => put 8 (float_to_double v) w
        | _ => put 4 0 (log_error (IncompatibleValueType KFloat) w)
        end ;;
  Some (RW_CLEAN_UP_WRITE ty w1).

(** [operator<<(double v)]. *)
Definition write_double (v : Z) (w : t) : option t :=
  ty <- RW_GET_COLUMN_TYPE DOUBLE w ;;
  w1 <- match ty with
        | FLOAT => put 4 (double_to_float v) w
        | DOUBLE => put 8 v w
        | _ => put 8 0 (log_error (IncompatibleValueType KDouble) w)
        end ;;
  Some (RW_CLEAN_UP_WRITE ty w1).

(** [operator<<(folly::StringPiece v)], which [operator<<(const
    std::string&)] forwards to. *)
Definition write_string (v : list byte) (w : t) : option t :=
  ty <- RW_GET_COLUMN_TYPE STRING w ;;
  w1 <- match ty with
        | STRING =>
            w' <- writeInt (len v) w ;;
            c <- Cord.write v (cord_ w') ;; Some (with_cord c w')
        | _ => writeInt 0 (log_error (IncompatibleValueType KString) w)
        end ;;
  Some (RW_CLEAN_UP_WRITE ty w1).

(** [operator<<(const char* v)]: the string piece ends at the first
    NUL. *)
Definition write_cstr (v : list byte) (w : t) : option t :=
  write_string (Cord.strlen_prefix v) w.

(** [operator<<(ColName&&)] and [operator<<(ColType&&)]. *)
Definition set_col_name (name : list byte) (w : t) : t :=
  mk (schema_ w) (schemaWriter_ w) (cord_ w) (encoded_ w) (colNum_ w)
     (blockOffsets_ w) (Some name) (colType_ w) (errors w).

Definition set_col_type (ty : SupportedType) (w : t) : t :=
  mk (schema_ w) (schemaWriter_ w) (cord_ w) (encoded_ w) (colNum_ w)
     (blockOffsets_ w) (colName_ w) (Some ty) (errors w).

(** The body of the loop of [operator<<(Skip&&)], at index [i]. *)
Definition skip_field (i : Z) (w : t) : option t :=
  ty <- getFieldType (schema_ w) i ;;
  w1 <- match ty with
        | BOOL => put 1 (Z.b2z false) w
        | INT | TIMESTAMP => writeInt 0 w
        | FLOAT => put 4 0 w
        | DOUBLE => put 8 0 w
        | STRING => writeInt 0 w
        | VID => put 8 0 w
        | UNSUPPORTED => None
        end ;;
  Some (record_offset i w1).

(** [for (int i = ...; i < skipTo; i++)], with [n] iterations left. *)
Fixpoint skip_loop (n : nat) (i : Z) (w : t) : option t :=
  match n with
  | O => Some w
  | S n' => w1 <- skip_field i w ;; skip_loop n' (to_int32 (i + 1)) w1
  end.

(** [operator<<(Skip&& skip)]. *)
Definition skip (toSkip : Z) (w : t) : option t :=
  if toSkip <=? 0 then Some w
  else
    let skipTo :=
      to_int32 (Z.min (to_int64 (colNum_ w + toSkip))
                      (getNumFields (schema_ w))) in
    let i := to_int32 (colNum_ w) in
    w1 <- skip_loop (Z.to_nat (skipTo - i)) i w ;;
    Some (mk (schema_ w1) (schemaWriter_ w1) (cord_ w1) (encoded_ w1)
             skipTo (blockOffsets_ w1) (colName_ w1) (colType_ w1)
             (errors w1)).

(** The raw stores through [tail] followed by [hbuffer->append(amount)]:
    the first [amount] bytes stored become data.  Undefined when the
    stores leave the tail room or [amount] reaches past them. *)
Definition commit_tail (stored : list byte) (amount : Z) (b : IOBuf.t)
    : option IOBuf.t :=
  if (len stored <=? IOBuf.tailroom b) && (amount <=? len stored)
     && (0 <=? amount)
  then Some (IOBuf.mk (IOBuf.capacity b) (IOBuf.headroom b)
               (IOBuf.data b ++ firstn (Z.to_nat amount) stored))
  else None.

(** The first step of [encodeToIOBuf()]:
    [if (!schemaWriter_) operator<<(Skip(getNumFields() - colNum_))]. *)
Definition pad (w : t) : option t :=
  if negb (schemaWriter_ w)
  then skip (to_int64 (getNumFields (schema_ w) - colNum_ w)) w
  else Some w.

(** The header synthesis of [encodeToIOBuf()], from the declaration of
    [maxRowLenBytes] to the end: the header is built in a buffer of its own
    with ten bytes of head room, prepended to the cord, and the writer is
    marked encoded. *)
Definition synthesizeHeader (w1 : t) : option (t * list IOBuf.t) :=
  let maxRowLenBytes := 10 in
  let version := getVersion (schema_ w1) in
  let offsetBytes := calcOccupiedBytes (Cord.size (cord_ w1)) in
  let verBytes := calcOccupiedBytes (wrap64 version) in
  let headerBytes :=
    wrap64 (offsetBytes * Z.of_nat (length (blockOffsets_ w1))
            + verBytes + 1) in
  let header := offsetBytes - 1 in
  hbuffer <- IOBuf.advance maxRowLenBytes
               (IOBuf.create (wrap64 (headerBytes + maxRowLenBytes))) ;;
  let '(stored, headerBytes) :=
    if version >? 0 then
      (byte_of_Z (Z.lor header (Z.shiftl verBytes 5))
         :: le_bytes (Z.to_nat verBytes) version,
       headerBytes)
    else ([byte_of_Z header], wrap64 (headerBytes - verBytes)) in
  let stored :=
    stored ++ concat (map (le_bytes (Z.to_nat offsetBytes))
                          (blockOffsets_ w1)) in
  hbuffer <- commit_tail stored headerBytes hbuffer ;;
  let cord := Cord.prependHeader [hbuffer] (cord_ w1) in
  let w2 := mk (schema_ w1) (schemaWriter_ w1) cord true (colNum_ w1)
               (blockOffsets_ w1) (colName_ w1) (colType_ w1)
               (errors w1) in
  ch <- Cord.clone cord ;; Some (w2, ch).

(** [encodeToIOBuf()]: the writer afterwards and the returned clone. *)
Definition encodeToIOBuf (w : t) : option (t * list IOBuf.t) :=
  if encoded_ w then
    ch <- Cord.clone (cord_ w) ;; Some (w, ch)
  else
    w1 <- pad w ;;
    synthesizeHeader w1.

(** [encodeTo(encoded)]: the writer afterwards and the string. *)
Definition encodeTo (encoded : list byte) (w : t)
    : option (t * list byte) :=
  w1 <- (if negb (encoded_ w)
         then r <- encodeToIOBuf w ;; Some (fst r)
         else Some w) ;;
  r <- Cord.appendTo encoded (cord_ w1) ;;
  Some (w1, fst r).

(** [encode()]. *)
Definition encode (w : t) : option (t * list byte) := encodeTo [] w.

(** The values [operator<<] takes, and the commands of a writer. *)
Inductive Value : Type :=
| VBool (b : bool)
| VFloat (bits : Z)
| VDouble (bits : Z)
| VString (s : list byte).

Inductive Command : Type :=
| Put (v : Value)
| Skip (toSkip : Z).

Definition write (v : Value) (w : t) : option t :=
  match v with
  | VBool b => write_bool b w
  | VFloat f => write_float f w
  | VDouble d => write_double d w
  | VString s => write_string s w
  end.

Definition exec (c : Command) (w : t) : option t :=
  match c with
  | Put v => write v w
  | Skip n => skip n w
  end.

Fixpoint run (cs : list Command) (w : t) : option t :=
  match cs with
  | [] => Some w
  | c :: r => w1 <- exec c w ;; run r w1
  end.

(** *** What each field contributes

    The functions below describe, field by field, the bytes a run of
    commands is to leave in the body; the writer is proved to follow
    them. *)

(** The natural type of a value. *)
Definition kind_of (v : Value) : ValueKind :=
  match v with
  | VBool _ => KBool
  | VFloat _ => KFloat
  | VDouble _ => KDouble
  | VString _ => KString
  end.

(** The bytes of a value in its own type. *)
Definition native_bytes (v : Value) : list byte :=
  match v with
  | VBool b => le_bytes 1 (Z.b2z b)
  | VFloat f => le_bytes 4 f
  | VDouble d => le_bytes 8 d
  | VString s => writeIntBytes (len s) ++ s
  end.

(** The zero of a value's own type. *)
Definition zero_of_kind (k : ValueKind) : list byte :=
  match k with
  | KBool => le_bytes 1 0
  | KFloat => le_bytes 4 0
  | KDouble => le_bytes 8 0
  | KString => writeIntBytes 0
  end.

(** Whether a value is written as it is into a field of type [ty]. *)
Definition matches (ty : SupportedType) (k : ValueKind) : bool :=
  match ty, k with
  | BOOL, KBool | FLOAT, KFloat | DOUBLE, KDouble | STRING, KString => true
  | _, _ => false
  end.

(** The bytes [operator<<] appends for [v] in a field declared [ty]. *)
Definition written_bytes (ty : SupportedType) (v : Value) : list byte :=
  match ty, v with
  | DOUBLE, VFloat f => le_bytes 8 (float_to_double f)
  | FLOAT, VDouble d => le_bytes 4 (double_to_float d)
  | _, _ => if matches ty (kind_of v) then native_bytes v
            else zero_of_kind (kind_of v)
  end.

(** The diagnostics [operator<<] emits for [v] in a field declared
    [ty]. *)
Definition diagnostics (ty : SupportedType) (v : Value) : list Diagnostic :=
  match ty, v with
  | DOUBLE, VFloat _ | FLOAT, VDouble _ => []
  | _, _ => if matches ty (kind_of v) then []
            else [IncompatibleValueType (kind_of v)]
  end.

(** The default that [Skip] writes for a field of type [ty]. *)
Definition default_bytes (ty : SupportedType) : option (list byte) :=
  match ty with
  | BOOL => Some (le_bytes 1 0)
  | INT | TIMESTAMP | STRING => Some (writeIntBytes 0)
  | FLOAT => Some (le_bytes 4 0)
  | DOUBLE | VID => Some (le_bytes 8 0)
  | UNSUPPORTED => None
  end.

Fixpoint defaults (tys : list SupportedType) : option (list (list byte)) :=
  match tys with
  | [] => Some []
  | ty :: r =>
      d <- default_bytes ty ;; ds <- defaults r ;; Some (d :: ds)
  end.

(** The per-field bytes of a run of commands that starts at field [i]:
    [None] when a write falls past the schema, a skip meets a type
    without an encoding, or a skip count does not fit 62 bits. *)
Fixpoint trace (fields : list SupportedType) (i : nat) (cs : list Command)
    : option (list (list byte)) :=
  match cs with
  | [] => Some []
  | Put v :: r =>
      ty <- nth_error fields i ;;
      rest <- trace fields (S i) r ;;
      Some (written_bytes ty v :: rest)
  | Skip n :: r =>
      if n <=? 0 then trace fields i r
      else if 2 ^ 62 <=? n then None
      else
        let k := Nat.min (Z.to_nat n) (length fields - i) in
        ds <- defaults (firstn k (skipn i fields)) ;;
        rest <- trace fields (i + k) r ;;
        Some (ds ++ rest)
  end.

(** The per-field bytes of the finalized row: those of the commands,
    then the defaults of the fields left. *)
Definition row_trace (s : SchemaProviderIf) (cs : list Command)
    : option (list (list byte)) :=
  encs <- trace (fieldTypes s) 0 cs ;;
  ds <- defaults (skipn (length encs) (fieldTypes s)) ;;
  Some (encs ++ ds).

End Helpers.

(** The field indexes below [n] after which a block offset is recorded. *)
Definition marks (n : nat) : list Z :=
  filter (fun i => negb (i =? 0) && block_start i) (map Z.of_nat (seq 0 n)).

(** The block offsets of a body made of the fields [encs]: for each mark
    [i], the size of the body once field [i] is complete. *)
Definition offsets_of (encs : list (list byte)) : list Z :=
  map (fun i => len (concat (firstn (Z.to_nat i + 1) encs)))
      (marks (length encs)).

(** The header of a row whose body has [bodySize] bytes and the block offsets
    [offs], under schema version [version]: the packed byte, the version
    bytes when the version is positive, then the offsets. *)
Definition header_of (version bodySize : Z) (offs : list Z) : list byte :=
  let offsetWidth := calcOccupiedBytes bodySize in
  let versionWidth := calcOccupiedBytes (wrap64 version) in
  (if version >? 0
   then byte_of_Z (Z.lor (offsetWidth - 1) (Z.shiftl versionWidth 5))
          :: le_bytes (Z.to_nat versionWidth) version
   else [byte_of_Z (offsetWidth - 1)])
  ++ concat (map (le_bytes (Z.to_nat offsetWidth)) offs).

(** The state of a body that holds the fields [encs]. *)
Definition body_tracks (encs : list (list byte)) (w : t) : Prop :=
  Cord.inv (2 ^ 19) (cord_ w) /\
  Cord.content (cord_ w) = concat encs /\
  blockOffsets_ w = offsets_of encs.

(** A writer over the fixed schema [s] that has completed the fields
    [encs] and is not finalized. *)
Definition tracks (s : SchemaProviderIf) (encs : list (list byte)) (w : t)
    : Prop :=
  body_tracks encs w /\
  schema_ w = s /\
  schemaWriter_ w = false /\
  encoded_ w = false /\
  colNum_ w = Z.of_nat (length encs) /\
  (length encs <= length (fieldTypes s))%nat.

(** [colNum_ = k]. *)
Definition set_colNum (k : Z) (w : t) : t :=
  mk (schema_ w) (schemaWriter_ w) (cord_ w) (encoded_ w) k
     (blockOffsets_ w) (colName_ w) (colType_ w) (errors w).

(** *** Instances for the examples

    The helpers that the header keeps are parameters of the writer.  The
    examples run it with folly's varint for [writeInt], and with conversions
    between the two float formats that are exact on zeros, on infinities and
    on the normal numbers that both formats hold.  They are not the C++
    casts elsewhere: the narrowing truncates the mantissa where the cast
    rounds, and denormals and NaNs are not treated as the casts treat them.
    The theorems hold for any conversion functions; the examples use these
    two at values where they agree with the casts. *)
Definition example_writeInt : Z -> list byte := Varint.encodeVarint.

Definition example_float_to_double (f : Z) : Z :=
  let sign := Z.shiftr f 31 mod 2 in
  let e := Z.shiftr f 23 mod 256 in
  let m := f mod 2 ^ 23 in
  let e' := if e =? 0 then 0 else if e =? 255 then 2047 else e + 896 in
  sign * 2 ^ 63 + e' * 2 ^ 52 + m * 2 ^ 29.

Definition example_double_to_float (d : Z) : Z :=
  let sign := Z.shiftr d 63 mod 2 in
  let e := Z.shiftr d 52 mod 2048 in
  let m := d mod 2 ^ 52 in
  let e' := if e =? 0 then 0 else if e =? 2047 then 255
            else Z.max 0 (Z.min 255 (e - 896)) in
  sign * 2 ^ 31 + e' * 2 ^ 23 + m / 2 ^ 29.

(** A versioned schema of three fields, and commands that write two of them
    and skip the third. *)
Definition example_schema : SchemaProviderIf :=
  mkSchema 3 [BOOL; STRING; DOUBLE].

Definition example_commands : list Command :=
  [Put (VBool true); Put (VString [x61; x62]); Skip 1].

(** Thirty-five fields, of which the first is written and the others are
    skipped. *)
Definition wide_schema : SchemaProviderIf :=
  mkSchema 0 (repeat BOOL 20 ++ repeat DOUBLE 15).

Definition wide_commands : list Command := [Put (VBool true); Skip 40].

(** Eighteen booleans under version 300, and under version [2^56]. *)
Definition bools_v300 : SchemaProviderIf := mkSchema 300 (repeat BOOL 18).
Definition bools_v2p56 : SchemaProviderIf := mkSchema (2 ^ 56) [BOOL].

End RowWriter.

(** ** RowSetWriter *)
Module RowSetWriter.

Record t : Type := mk {
  data_ : list byte;
  head_ : list IOBuf.t
}.

(** [RowSetWriter(schema, reservedSize)]: [reserve] does not change the
    content. *)
Definition create : t := mk [] [].

(** [writeRowLength(int64_t len)]. *)
Definition writeRowLength (n : Z) (w : t) : t :=
  mk (data_ w ++ Varint.encodeVarint n) (head_ w).

(** [IOBuf::prepend(amount)] followed by the copy to [writableData()]. *)
Definition prepend_bytes (bs : list byte) (b : IOBuf.t) : option IOBuf.t :=
  if len bs <=? IOBuf.headroom b
  then Some (IOBuf.mk (IOBuf.capacity b) (IOBuf.headroom b - len bs)
               (bs ++ IOBuf.data b))
  else None.

(** [writeRowLength(folly::IOBuf *buf)], on the head of a chain. *)
Definition writeRowLength_buf (row : list IOBuf.t) : option (list IOBuf.t) :=
  match row with
  | [] => None
  | b :: r =>
      let n := IOBuf.computeChainDataLength row in
      b' <- prepend_bytes (Varint.encodeVarint n) b ;;
      Some (b' :: r)
  end.

(** [head_->prependChain(rows)], or taking [rows] as the head. *)
Definition chain (rows : list IOBuf.t) (w : t) : t :=
  mk (data_ w) (head_ w ++ rows).

(** [addRow(std::unique_ptr<folly::IOBuf> row)]. *)
Definition addRow_buf (row : list IOBuf.t) (w : t) : option t :=
  row' <- writeRowLength_buf row ;; Some (chain row' w).

(** [addRow(const std::string& data)]. *)
Definition addRow (data : list byte) (w : t) : t :=
  let w1 := writeRowLength (len data) w in
  mk (data_ w1 ++ data) (head_ w1).

(** [addAll(const std::string& data)] and [addAll(IOBuf rows)]. *)
Definition addAll (data : list byte) (w : t) : t :=
  mk (data_ w ++ data) (head_ w).

Definition addAll_buf (rows : list IOBuf.t) (w : t) : t := chain rows w.

(** [addRow(RowWriter& writer)]: the row set and the writer afterwards. *)
Definition addRow_writer (writeIntBytes : Z -> list byte)
    (writer : RowWriter.t) (w : t) : option (t * RowWriter.t) :=
  let w1 := writeRowLength (RowWriter.size writer) w in
  r <- RowWriter.encodeTo writeIntBytes (data_ w1) writer ;;
  Some (mk (snd r) (head_ w1), fst r).

(** The inline buffer after a sequence of by-value [addRow] calls. *)
Definition addRows (rows : list (list byte)) (w : t) : t :=
  fold_left (fun acc row => addRow row acc) rows w.

(** A sequence of [addRow(std::unique_ptr<folly::IOBuf>)] calls. *)
Fixpoint addRows_buf (rows : list (list IOBuf.t)) (w : t) : option t :=
  match rows with
  | [] => Some w
  | row :: r => w1 <- addRow_buf row w ;; addRows_buf r w1
  end.

(** A row handed over as a buffer chain: not null, with ten bytes of head
    room in its head buffer, as [encodeToIOBuf()] leaves them. *)
Definition roomy (row : list IOBuf.t) : Prop :=
  match row with
  | [] => False
  | b :: _ => 10 <= IOBuf.headroom b /\ len (IOBuf.chain_bytes row) < 2 ^ 64
  end.

(** One frame: the length prefix and the row. *)
Definition frame (row : list byte) : list byte :=
  Varint.encodeVarint (len row) ++ row.

(** Not part of the writer either: the reading that the framing is made
    for.  A varint, then that many bytes, until the bytes are used up;
    [None] when a prefix is cut short or asks for more bytes than are left.
    [fuel] bounds the number of rows. *)
Fixpoint read_rows (fuel : nat) (bs : list byte) : option (list (list byte)) :=
  match bs with
  | [] => Some []
  | _ =>
      match fuel with
      | O => None
      | S fuel' =>
          r <- Varint.read_varint bs ;;
          if fst r <=? len (snd r) then
            rows <- read_rows fuel' (skipn (Z.to_nat (fst r)) (snd r)) ;;
            Some (firstn (Z.to_nat (fst r)) (snd r) :: rows)
          else None
      end
  end.

(** Every row takes at least one byte, so the number of bytes is fuel
    enough. *)
Definition read_all (bs : list byte) : option (list (list byte)) :=
  read_rows (length bs) bs.

End RowSetWriter.

(** * Properties *)

(** ** Integers, bytes and lists *)

Lemma wrap64_small (x : Z) : 0 <= x < 2 ^ 64 -> wrap64 x = x.
Proof. intros H. unfold wrap64. apply Z.mod_small. exact H. Qed.

Lemma to_int64_small (x : Z) : 0 <= x < 2 ^ 63 -> to_int64 x = x.
Proof.
  intros H. unfold to_int64. rewrite wrap64_small by lia.
  destruct (Z.ltb_spec x (2 ^ 63)); lia.
Qed.

Lemma to_int32_small (x : Z) : 0 <= x < 2 ^ 31 -> to_int32 x = x.
Proof.
  intros H. unfold to_int32. rewrite Z.mod_small by lia.
  destruct (Z.ltb_spec x (2 ^ 31)); lia.
Qed.

Lemma Z_of_byte_of_Z (z : Z) : Z_of_byte (byte_of_Z z) = z mod 256.
Proof.
  unfold Z_of_byte, byte_of_Z.
  assert (Hr : 0 <= z mod 256 < 256) by (apply Z.mod_pos_bound; lia).
  destruct (Byte.of_N (Z.to_N (z mod 256))) as [b|] eqn:E.
  - apply Byte.to_of_N in E. rewrite E. rewrite Z2N.id; lia.
  - apply Byte.of_N_None_iff in E. lia.
Qed.

Lemma Z_of_byte_range (b : byte) : 0 <= Z_of_byte b < 256.
Proof.
  unfold Z_of_byte. pose proof (Byte.to_N_bounded b). lia.
Qed.

Lemma length_le_bytes (n : nat) (v : Z) : length (le_bytes n v) = n.
Proof.
  revert v. induction n as [|n IH]; intros v; simpl; [reflexivity|].
  now rewrite IH.
Qed.

Lemma len_le_bytes (n : nat) (v : Z) : len (le_bytes n v) = Z.of_nat n.
Proof. unfold len. now rewrite length_le_bytes. Qed.

Lemma len_app (a b : list byte) : len (a ++ b) = len a + len b.
Proof. unfold len. rewrite length_app. lia. Qed.

Lemma len_nonneg (a : list byte) : 0 <= len a.
Proof. unfold len. lia. Qed.

Lemma le_value_le_bytes (n : nat) (v : Z) :
  le_value (le_bytes n v) = v mod 2 ^ (8 * Z.of_nat n).
Proof.
  revert v. induction n as [|n IH]; intros v.
  - simpl. now rewrite Z.mod_1_r.
  - cbn [le_bytes le_value]. rewrite IH, Z_of_byte_of_Z, Z.shiftr_div_pow2 by lia.
    replace (8 * Z.of_nat (S n)) with (8 + 8 * Z.of_nat n) by lia.
    rewrite Z.pow_add_r by lia.
    change (2 ^ 8) with 256.
    rewrite (Z.rem_mul_r v 256 (2 ^ (8 * Z.of_nat n))) by lia.
    reflexivity.
Qed.

Lemma land_align (x : Z) :
  0 <= x < 2 ^ 64 -> Z.land x (2 ^ 64 - 256) = 256 * (x / 256).
Proof.
  intros Hx.
  change (2 ^ 64 - 256) with (Z.shiftl (Z.ones 56) 8).
  rewrite Z.mul_comm. change 256 with (2 ^ 8).
  rewrite <- Z.shiftr_div_pow2, <- Z.shiftl_mul_pow2 by lia.
  apply Z.bits_inj'; intros n Hn.
  rewrite Z.land_spec, !Z.shiftl_spec by lia.
  destruct (Z.ltb_spec n 8) as [Hlt|Hge].
  - rewrite !(Z.testbit_neg_r _ (n - 8)) by lia. apply andb_false_r.
  - rewrite Z.shiftr_spec by lia.
    replace (n - 8 + 8) with n by lia.
    destruct (Z.ltb_spec (n - 8) 56) as [Hlo|Hhi].
    + rewrite Z.ones_spec_low by lia. apply andb_true_r.
    + rewrite Z.ones_spec_high by lia. rewrite andb_false_r.
      destruct (Z.eq_dec x 0) as [->|Hnz]; [now rewrite Z.testbit_0_l|].
      symmetry. apply Z.bits_above_log2; [lia|].
      assert (Z.log2 x < 64) by (apply Z.log2_lt_pow2; lia). lia.
Qed.

(** ** Cord *)
Module CordFacts.
Import Cord.

Lemma alignedSize_eq (s : Z) :
  0 <= s -> s + 255 < 2 ^ 64 -> alignedSize s = 256 * ((s + 255) / 256).
Proof.
  intros H0 H1. unfold alignedSize, kBufferAlignment.
  replace (s + 256 - 1) with (s + 255) by lia.
  rewrite (wrap64_small (s + 255)) by lia.
  change (wrap64 (Z.lnot (256 - 1))) with (2 ^ 64 - 256).
  apply land_align. lia.
Qed.

Lemma alignedSize_bounds (s : Z) :
  0 <= s -> s + 255 < 2 ^ 64 ->
  s <= alignedSize s <= s + 255 /\ alignedSize s mod 256 = 0.
Proof.
  intros H0 H1. rewrite alignedSize_eq by lia.
  pose proof (Z.div_mod (s + 255) 256 ltac:(lia)) as Hd.
  pose proof (Z.mod_pos_bound (s + 255) 256 ltac:(lia)) as Hm.
  split; [lia|].
  rewrite Z.mul_comm. apply Z.mod_mul. lia.
Qed.

Lemma last_snoc (l : list IOBuf.t) (b : IOBuf.t) :
  IOBuf.last (l ++ [b]) = Some b.
Proof.
  induction l as [|a l IH]; [reflexivity|].
  simpl. destruct (l ++ [b]) eqn:E; [now destruct l|exact IH].
Qed.

Lemma on_last_snoc (f : IOBuf.t -> IOBuf.t) (l : list IOBuf.t) (b : IOBuf.t) :
  IOBuf.on_last f (l ++ [b]) = l ++ [f b].
Proof.
  induction l as [|a l IH]; [reflexivity|].
  simpl. destruct (l ++ [b]) eqn:E; [now destruct l|].
  now rewrite IH.
Qed.

Lemma snoc_cases (ch : list IOBuf.t) :
  ch = [] \/ exists l b, ch = l ++ [b].
Proof.
  destruct ch as [|a r]; [now left|right].
  destruct (exists_last (l := a :: r)) as (l & b & E); [discriminate|].
  now exists l, b.
Qed.

Lemma chain_bytes_snoc (l : list IOBuf.t) (b : IOBuf.t) :
  IOBuf.chain_bytes (l ++ [b]) = IOBuf.chain_bytes l ++ IOBuf.data b.
Proof.
  unfold IOBuf.chain_bytes. rewrite map_app, concat_app. simpl.
  now rewrite app_nil_r.
Qed.

Lemma chain_bytes_app (l r : list IOBuf.t) :
  IOBuf.chain_bytes (l ++ r) = IOBuf.chain_bytes l ++ IOBuf.chain_bytes r.
Proof. unfold IOBuf.chain_bytes. now rewrite map_app, concat_app. Qed.

Lemma last_length_le (ch : list IOBuf.t) (b : IOBuf.t) :
  IOBuf.last ch = Some b -> IOBuf.length b <= len (IOBuf.chain_bytes ch).
Proof.
  intros H. destruct (snoc_cases ch) as [->|(l & b' & ->)]; [discriminate|].
  rewrite last_snoc in H. injection H as ->.
  rewrite chain_bytes_snoc, len_app. unfold IOBuf.length.
  pose proof (len_nonneg (IOBuf.chain_bytes l)). lia.
Qed.

Lemma Forall_snoc (P : IOBuf.t -> Prop) (l : list IOBuf.t) (b : IOBuf.t) :
  Forall P (l ++ [b]) <-> Forall P l /\ P b.
Proof.
  rewrite Forall_app. split; intros [H1 H2]; split; auto.
  now inversion H2.
Qed.

(** [reserve(0, T)] with [T] beyond the capacity reallocates: the data is
    kept and the tail room becomes [T]. *)
Lemma reserve_grow (T : Z) (b : IOBuf.t) :
  IOBuf.within b -> IOBuf.capacity b < T -> IOBuf.length b + T < 2 ^ 64 ->
  IOBuf.reserve 0 T b = IOBuf.mk (IOBuf.length b + T) 0 (IOBuf.data b).
Proof.
  intros [Hh0 Hfit] HT Hbound.
  pose proof (len_nonneg (IOBuf.data b)) as Hlen. fold (IOBuf.length b) in Hlen.
  unfold IOBuf.reserve, IOBuf.tailroom.
  destruct (Z.leb_spec T (IOBuf.capacity b - IOBuf.headroom b - IOBuf.length b));
    [lia|].
  rewrite andb_false_r.
  rewrite (wrap64_small (0 + T)) by lia.
  rewrite (wrap64_small (IOBuf.headroom b + _)) by lia.
  destruct (Z.leb_spec (0 + T)
              (IOBuf.headroom b
               + (IOBuf.capacity b - IOBuf.headroom b - IOBuf.length b)));
    [lia|].
  rewrite wrap64_small by lia. f_equal. lia.
Qed.

Local Ltac seg_simpl :=
  unfold content, seg_ok, IOBuf.within, IOBuf.create, IOBuf.tailroom,
    IOBuf.length;
  cbn [size_ head_ IOBuf.capacity IOBuf.headroom IOBuf.data];
  rewrite ?chain_bytes_snoc, ?last_snoc, ?app_nil_r;
  cbn [size_ head_ IOBuf.capacity IOBuf.headroom IOBuf.data].

(** What [makeRoomForWrite(n)] guarantees: the content is untouched and
    the tail has room for [n] bytes. *)
Lemma makeRoomForWrite_spec (M : Z) (c : t) (n : Z) :
  inv M c -> 2 ^ 19 <= M -> 0 <= n -> 2 * (size_ c + n) + M < 2 ^ 62 ->
  exists c1 b,
    makeRoomForWrite n c = Some c1 /\
    size_ c1 = size_ c /\
    content c1 = content c /\
    IOBuf.last (head_ c1) = Some b /\
    n <= IOBuf.tailroom b /\
    Forall seg_ok (head_ c1) /\
    IOBuf.capacity b <= 2 * (size_ c + n) + M.
Proof.
  intros (Hsz & Hok & Hcap) HM Hn Hbound.
  assert (Hsize0 : 0 <= size_ c) by (rewrite Hsz; apply len_nonneg).
  unfold makeRoomForWrite.
  destruct (snoc_cases (head_ c)) as [E|(l & b & E)].
  - (* null head *)
    rewrite E.
    destruct (alignedSize_bounds n) as [Hal _]; [lia|lia|].
    exists (mk (size_ c) [IOBuf.create (alignedSize n)]),
           (IOBuf.create (alignedSize n)).
    split; [reflexivity|]. seg_simpl. rewrite E.
    repeat split; try reflexivity.
    + change (len []) with 0. lia.
    + constructor; [|constructor]. seg_simpl. change (len []) with 0. lia.
    + lia.
  - assert (Hlast : IOBuf.last (head_ c) = Some b)
      by (rewrite E; apply last_snoc).
    assert (Hne : head_ c <> []) by (rewrite E; now destruct l).
    destruct (head_ c) as [|x xs] eqn:Eh; [congruence|].
    rewrite <- Eh in *. clear Eh x xs.
    rewrite Hlast. cbn [obind].
    pose proof (Hcap b Hlast) as Hcb.
    pose proof (last_length_le _ _ Hlast) as Hlen. rewrite <- Hsz in Hlen.
    assert (Hb : seg_ok b).
    { rewrite E in Hok. apply Forall_snoc in Hok. tauto. }
    pose proof Hb as [[Hh0 Hfit] Hh1].
    pose proof (len_nonneg (IOBuf.data b)) as Hl0.
    fold (IOBuf.length b) in Hl0.
    destruct (Z.leb_spec n (IOBuf.tailroom b)) as [Hroom|Hroom].
    + (* the tail has the room *)
      exists c, b. repeat split; auto; lia.
    + unfold makeRoomForWriteSlow. rewrite Hlast. cbn [obind].
      destruct (Z.leb_spec (IOBuf.length b) (IOBuf.capacity b / 2)) as [Hhalf|Hhalf].
      * (* grow the tail in place *)
        unfold IOBuf.tailroom in Hroom |- *.
        set (room := IOBuf.capacity b - IOBuf.headroom b - IOBuf.length b) in *.
        rewrite (wrap64_small (n - room)) by lia.
        rewrite (wrap64_small (IOBuf.capacity b + (n - room))) by lia.
        destruct (alignedSize_bounds (IOBuf.capacity b + (n - room)))
          as [Hal _]; [lia|lia|].
        set (T := alignedSize (IOBuf.capacity b + (n - room))) in *.
        rewrite E, on_last_snoc, reserve_grow by (try apply Hb; lia).
        exists (mk (size_ c) (l ++ [IOBuf.mk (IOBuf.length b + T) 0 (IOBuf.data b)])),
               (IOBuf.mk (IOBuf.length b + T) 0 (IOBuf.data b)).
        split; [reflexivity|]. seg_simpl. rewrite E. seg_simpl.
        fold (IOBuf.length b).
        repeat split; try reflexivity.
        -- lia.
        -- rewrite E in Hok. apply Forall_snoc in Hok.
           apply Forall_snoc. split; [tauto|].
           seg_simpl. fold (IOBuf.length b). lia.
        -- subst room. lia.
      * (* chain a new segment *)
        assert (Hc0 : 0 <= IOBuf.capacity b) by lia.
        rewrite (wrap64_small (IOBuf.capacity b * 2)) by lia.
        set (nc1 := if IOBuf.capacity b * 2 >? kMaxGrowthSize
                    then kMaxGrowthSize else IOBuf.capacity b * 2).
        set (nc := if nc1 >? n then nc1 else n).
        assert (Hnc1 : 0 <= nc1 <= kMaxGrowthSize).
        { subst nc1. change kMaxGrowthSize with (2 ^ 18).
          destruct (Z.gtb_spec (IOBuf.capacity b * 2) (2 ^ 18)); lia. }
        assert (Hnc : n <= nc /\ nc <= Z.max kMaxGrowthSize n).
        { subst nc. destruct (Z.gtb_spec nc1 n); lia. }
        change kMaxGrowthSize with (2 ^ 18) in *.
        exists (mk (size_ c) (head_ c ++ [IOBuf.create nc])), (IOBuf.create nc).
        split; [reflexivity|]. seg_simpl. change (len []) with 0.
        repeat split; try reflexivity.
        -- lia.
        -- apply Forall_snoc. split; [exact Hok|].
           seg_simpl. change (len []) with 0. lia.
        -- lia.
Qed.

(** One raw append: it succeeds, keeps the invariant and adds exactly the
    bytes given. *)
Lemma write_spec (M : Z) (c : t) (bs : list byte) :
  inv M c -> 2 ^ 19 <= M -> 2 * (size_ c + len bs) + M < 2 ^ 62 ->
  exists c',
    write bs c = Some c' /\
    inv M c' /\
    content c' = content c ++ bs /\
    size_ c' = size_ c + len bs /\
    head_ c' <> [].
Proof.
  intros Hinv HM Hbound.
  pose proof (len_nonneg bs) as Hbs.
  destruct (makeRoomForWrite_spec M c (len bs) Hinv HM Hbs Hbound)
    as (c1 & b & Hmk & Hs1 & Hc1 & Hlast & Hroom & Hok & Hcap).
  destruct Hinv as (Hsz & _ & _).
  assert (Hsize0 : 0 <= size_ c) by (rewrite Hsz; apply len_nonneg).
  unfold write. rewrite Hmk. cbn [obind].
  unfold write_tail. rewrite Hlast. cbn [obind].
  unfold IOBuf.write_tail.
  destruct (Z.leb_spec (len bs) (IOBuf.tailroom b)); [|lia].
  cbn [obind].
  destruct (snoc_cases (head_ c1)) as [E|(l & b0 & E)];
    [rewrite E in Hlast; discriminate|].
  assert (b0 = b) as -> by (rewrite E, last_snoc in Hlast; congruence).
  rewrite E, on_last_snoc.
  eexists. split; [reflexivity|].
  unfold content in *. cbn [head_ size_].
  rewrite E in Hc1, Hok.
  rewrite chain_bytes_snoc in Hc1 |- *. cbn [IOBuf.data].
  rewrite Hs1, wrap64_small by lia.
  apply Forall_snoc in Hok. destruct Hok as [Hokl Hokb].
  assert (Hcontent : IOBuf.chain_bytes l ++ IOBuf.data b ++ bs
                     = IOBuf.chain_bytes (head_ c) ++ bs)
    by (rewrite <- Hc1, app_assoc; reflexivity).
  split; [|split; [|split]].
  - split; [|split].
    + cbn [size_ head_]. rewrite chain_bytes_snoc. cbn [IOBuf.data].
      rewrite Hcontent, len_app. lia.
    + cbn [head_]. apply Forall_snoc. split; [exact Hokl|].
      destruct Hokb as [[Hh Hfit] Hh1]. unfold IOBuf.tailroom in *.
      unfold seg_ok, IOBuf.within, IOBuf.length in *.
      cbn [IOBuf.headroom IOBuf.capacity IOBuf.data].
      rewrite len_app. lia.
    + cbn [size_ head_]. intros b1. rewrite last_snoc.
      intros [= <-]. cbn [IOBuf.capacity]. lia.
  - exact Hcontent.
  - reflexivity.
  - now destruct l.
Qed.

Lemma put_is_write (width : nat) (v : Z) (c : t) :
  put width v c = write (le_bytes width v) c.
Proof. unfold put, write. now rewrite len_le_bytes. Qed.

Lemma append_is_write (a : Append) (c : t) :
  append a c = write (bytes_of a) c.
Proof. destruct a; cbn [append bytes_of]; auto using put_is_write. Qed.

(** A sequence of appends, from any cord that satisfies the invariant. *)
Lemma appends_spec (M : Z) (l : list Append) :
  2 ^ 19 <= M ->
  forall c,
    inv M c ->
    2 * (size_ c + len (concat (map bytes_of l))) + M < 2 ^ 62 ->
    exists c',
      appends l c = Some c' /\
      inv M c' /\
      content c' = content c ++ concat (map bytes_of l).
Proof.
  intros HM. induction l as [|a l IH]; intros c Hinv Hbound.
  - exists c. cbn. now rewrite app_nil_r.
  - cbn [map concat] in Hbound. rewrite len_app in Hbound.
    pose proof (len_nonneg (bytes_of a)).
    pose proof (len_nonneg (concat (map bytes_of l))).
    destruct (write_spec M c (bytes_of a) Hinv HM ltac:(lia))
      as (c1 & Hw & Hinv1 & Hc1 & Hs1 & _).
    destruct (IH c1 Hinv1 ltac:(lia)) as (c' & Hrun & Hinv' & Hc').
    exists c'. cbn [appends]. rewrite append_is_write, Hw. cbn [obind].
    split; [exact Hrun|]. split; [exact Hinv'|].
    rewrite Hc', Hc1. cbn [map concat]. now rewrite app_assoc.
Qed.

Lemma inv_empty_cord (M : Z) : 0 <= M -> inv M empty_cord.
Proof.
  intros HM. unfold inv, empty_cord. cbn [size_ head_].
  repeat split; [constructor|].
  intros b Hb. discriminate.
Qed.

Lemma visit_chain_collect (ch : list IOBuf.t) (s : list (list byte)) :
  visit_chain (fun buf s => (true, s ++ [buf])) ch s
  = (true, s ++ map IOBuf.data ch).
Proof.
  revert s. induction ch as [|b r IH]; intros s; cbn.
  - now rewrite app_nil_r.
  - rewrite IH, <- app_assoc. reflexivity.
Qed.

Lemma visit_chain_flatten (ch : list IOBuf.t) (s : list byte) :
  visit_chain (fun buf s => (true, s ++ buf)) ch s
  = (true, s ++ IOBuf.chain_bytes ch).
Proof.
  revert s. induction ch as [|b r IH]; intros s; cbn.
  - now rewrite app_nil_r.
  - rewrite IH, <- app_assoc. reflexivity.
Qed.

Lemma len_zero_nil (bs : list byte) : len bs = 0 -> bs = [].
Proof. destruct bs; [reflexivity|]. unfold len. cbn [length]. lia. Qed.

(** Under the invariant the visitor is handed every segment, and the
    views concatenate to the content. *)
Lemma views_spec (M : Z) (c : t) :
  inv M c -> exists vs, views c = Some vs /\ concat vs = content c.
Proof.
  intros (Hsz & _ & _). unfold views, apply, empty, size.
  destruct (Z.eqb_spec (size_ c) 0) as [H0|Hnz].
  - exists []. split; [reflexivity|].
    unfold content. rewrite H0 in Hsz. symmetry in Hsz.
    now rewrite (len_zero_nil _ Hsz).
  - destruct (head_ c) as [|b r] eqn:E.
    + exfalso. apply Hnz. rewrite Hsz. reflexivity.
    + rewrite <- E. rewrite visit_chain_collect. cbn [obind snd app].
      eexists. split; [reflexivity|]. reflexivity.
Qed.

Lemma appendTo_sized (c : t) (s : list byte) :
  size_ c = len (IOBuf.chain_bytes (head_ c)) ->
  appendTo s c = Some (s ++ content c, size_ c).
Proof.
  intros Hsz. unfold appendTo, apply, empty, size.
  destruct (Z.eqb_spec (size_ c) 0) as [H0|Hnz].
  - unfold content. rewrite H0 in Hsz |- *. symmetry in Hsz.
    now rewrite (len_zero_nil _ Hsz), app_nil_r.
  - destruct (head_ c) as [|b r] eqn:E.
    + exfalso. apply Hnz. rewrite Hsz. reflexivity.
    + rewrite <- E. rewrite visit_chain_flatten. reflexivity.
Qed.

Lemma appendTo_spec (M : Z) (c : t) (s : list byte) :
  inv M c -> appendTo s c = Some (s ++ content c, size_ c).
Proof. intros (Hsz & _ & _). now apply appendTo_sized. Qed.


Lemma construct_spec (reserve : option Z) :
  0 <= reserved reserve < 2 ^ 60 ->
  exists c,
    construct reserve = Some c /\
    inv (reserved reserve + 255 + 2 ^ 19) c /\
    content c = [] /\ size_ c = 0.
Proof.
  destruct reserve as [r|]; cbn [reserved]; intros Hr.
  - destruct (alignedSize_bounds r) as [Hal _]; [lia|lia|].
    exists (mk 0 [IOBuf.create (alignedSize r)]).
    split; [reflexivity|]. split; [|split; reflexivity].
    split; [reflexivity|]. split.
    + constructor; [|constructor]. seg_simpl. change (len []) with 0. lia.
    + cbn [head_ size_ IOBuf.last]. intros b [= <-]. seg_simpl. lia.
  - exists empty_cord. split; [reflexivity|].
    split; [apply inv_empty_cord; lia|]. split; reflexivity.
Qed.

(** C1. Append Buffer content fidelity: for every sequence of appends (raw
    bytes, fixed-width scalars, C strings) on a cord built by [Cord()] or
    [Cord(reserve)], every append succeeds, and the per-segment views that
    [apply] delivers, concatenated in chain order, are exactly the bytes
    written; so is the string made by [str()], and [size()] is their
    number.  No assumption is made on the growth branch an append takes. *)
Theorem append_content_fidelity (reserve : option Z) (l : list Append) :
  0 <= reserved reserve ->
  reserved reserve + len (concat (map bytes_of l)) < 2 ^ 60 ->
  exists c0 c vs,
    construct reserve = Some c0 /\
    appends l c0 = Some c /\
    views c = Some vs /\
    concat vs = concat (map bytes_of l) /\
    str c = Some (concat (map bytes_of l)) /\
    size c = len (concat (map bytes_of l)).
Proof.
  intros Hr Hbound.
  pose proof (len_nonneg (concat (map bytes_of l))) as Hl.
  destruct (construct_spec reserve) as (c0 & Hc0 & Hinv0 & Hcont0 & Hs0);
    [lia|].
  destruct (appends_spec (reserved reserve + 255 + 2 ^ 19) l ltac:(lia) c0 Hinv0)
    as (c & Hrun & Hinv & Hc).
  { rewrite Hs0. lia. }
  rewrite Hcont0 in Hc. cbn [app] in Hc.
  destruct (views_spec _ c Hinv) as (vs & Hvs & Hcat).
  exists c0, c, vs. repeat split; auto.
  - congruence.
  - unfold str. rewrite (appendTo_spec _ c [] Hinv). cbn. now rewrite Hc.
  - unfold size. destruct Hinv as (Hsz & _). rewrite Hsz. fold (content c).
    now rewrite Hc.
Qed.

Lemma append_content_fidelity_witness :
  exists c0 c vs,
    construct None = Some c0 /\
    appends four_branches c0 = Some c /\
    views c = Some vs /\
    concat vs = concat (map bytes_of four_branches) /\
    str c = Some (concat (map bytes_of four_branches)) /\
    size c = len (concat (map bytes_of four_branches)).
Proof.
  apply (append_content_fidelity None four_branches).
  - vm_compute. discriminate.
  - vm_compute. reflexivity.
Defined.

Example four_branches_taken :
  exists c1 c2 c3 c4,
    branch_of 100 empty_cord = Some FirstSegment /\
    append (ABytes (repeat x61 100)) empty_cord = Some c1 /\
    branch_of 8 c1 = Some EnoughRoom /\
    append (AScalar 8 5) c1 = Some c2 /\
    branch_of 300 c2 = Some GrowInPlace /\
    append (ABytes (repeat x62 300)) c2 = Some c3 /\
    append (ACStr [x63; x64; x00; x65]) c3 = Some c4 /\
    branch_of 250 c4 = Some NewSegment.
Proof.
  do 4 eexists. repeat split; vm_compute; reflexivity.
Qed.

(** ** The growth policy *)

(** C3 (as the code has it).  For a request of [n] more bytes that exceeds
    the tail's free room: when the tail's used length is at most half its
    capacity, the same segment is asked, in place, for
    [roundUp(capacity + (n - room))] bytes of tail room, a multiple of the
    256-byte quantum, and no segment is added; otherwise one new segment is
    chained, of size [max(min(capacity * 2, 256 KiB), n)]: the ceiling
    applies to the doubling only, so the new segment exceeds 256 KiB
    exactly when [n] does. *)
Theorem growth_policy (c : t) (b : IOBuf.t) (n : Z) :
  IOBuf.last (head_ c) = Some b ->
  IOBuf.within b ->
  IOBuf.tailroom b < n ->
  IOBuf.capacity b + n < 2 ^ 62 ->
  let room := IOBuf.tailroom b in
  let capacity := IOBuf.capacity b in
  (IOBuf.length b <= capacity / 2 ->
     let grown := alignedSize (capacity + (n - room)) in
     makeRoomForWrite n c
       = Some (mk (size_ c) (IOBuf.on_last (IOBuf.reserve 0 grown) (head_ c)))
     /\ IOBuf.reserve 0 grown b
        = IOBuf.mk (IOBuf.length b + grown) 0 (IOBuf.data b)
     /\ grown = 256 * ((capacity + (n - room) + 255) / 256)
     /\ capacity + (n - room) <= grown < capacity + (n - room) + 256)
  /\
  (capacity / 2 < IOBuf.length b ->
     let newCapacity := Z.max (Z.min (capacity * 2) kMaxGrowthSize) n in
     makeRoomForWrite n c
       = Some (mk (size_ c) (head_ c ++ [IOBuf.create newCapacity]))
     /\ (newCapacity <= kMaxGrowthSize <-> n <= kMaxGrowthSize)).
Proof.
  intros Hlast Hb Hroom Hbound room capacity.
  pose proof Hb as [Hh0 Hfit].
  pose proof (len_nonneg (IOBuf.data b)) as Hl0. fold (IOBuf.length b) in Hl0.
  assert (Hmk : makeRoomForWrite n c = makeRoomForWriteSlow n c).
  { unfold makeRoomForWrite. destruct (head_ c) as [|x xs] eqn:E;
      [discriminate|]. rewrite Hlast. cbn [obind].
    destruct (Z.leb_spec n (IOBuf.tailroom b)); [lia|reflexivity]. }
  rewrite Hmk. unfold makeRoomForWriteSlow. rewrite Hlast. cbn [obind].
  fold room capacity.
  assert (Hroom' : room = capacity - IOBuf.headroom b - IOBuf.length b)
    by reflexivity.
  split.
  - intros Hhalf. set (grown := alignedSize (capacity + (n - room))).
    destruct (Z.leb_spec (IOBuf.length b) (capacity / 2)); [|lia].
    rewrite (wrap64_small (n - room)) by lia.
    rewrite (wrap64_small (capacity + (n - room))) by lia.
    fold grown.
    destruct (alignedSize_bounds (capacity + (n - room))) as [Hal _];
      [lia|lia|]. fold grown in Hal.
    split; [reflexivity|]. split; [|split].
    + apply reserve_grow; [exact Hb|fold capacity; lia|lia].
    + subst grown. apply alignedSize_eq; lia.
    + lia.
  - intros Hhalf.
    set (newCapacity := Z.max (Z.min (capacity * 2) kMaxGrowthSize) n).
    destruct (Z.leb_spec (IOBuf.length b) (capacity / 2)); [lia|].
    assert (Hc0 : 0 <= capacity) by lia.
    rewrite (wrap64_small (capacity * 2)) by lia.
    assert (E : (if (if capacity * 2 >? kMaxGrowthSize
                     then kMaxGrowthSize else capacity * 2) >? n
                 then (if capacity * 2 >? kMaxGrowthSize
                       then kMaxGrowthSize else capacity * 2)
                 else n) = newCapacity).
    { subst newCapacity.
      destruct (Z.gtb_spec (capacity * 2) kMaxGrowthSize);
        [rewrite Z.min_r by lia|rewrite Z.min_l by lia].
      - destruct (Z.gtb_spec kMaxGrowthSize n); lia.
      - destruct (Z.gtb_spec (capacity * 2) n); lia. }
    rewrite E. split; [reflexivity|].
    subst newCapacity. change kMaxGrowthSize with (2 ^ 18). lia.
Qed.

Lemma growth_policy_witness :
  (makeRoomForWrite 300 cord_100
     = Some (mk 100 [IOBuf.mk 612 0 (repeat x61 100)])) /\
  (makeRoomForWrite 100 cord_200
     = Some (mk 200 [IOBuf.mk 256 0 (repeat x61 200); IOBuf.create 512])).
Proof.
  split.
  - assert (Hb : IOBuf.within (IOBuf.mk 256 0 (repeat x61 100)))
      by (vm_compute; intuition discriminate).
    destruct (growth_policy cord_100 (IOBuf.mk 256 0 (repeat x61 100)) 300
                eq_refl Hb eq_refl eq_refl) as [H _].
    destruct (H ltac:(vm_compute; discriminate)) as (E & _).
    rewrite E. vm_compute. reflexivity.
  - assert (Hb : IOBuf.within (IOBuf.mk 256 0 (repeat x61 200)))
      by (vm_compute; intuition discriminate).
    destruct (growth_policy cord_200 (IOBuf.mk 256 0 (repeat x61 200)) 100
                eq_refl Hb eq_refl eq_refl) as [_ H].
    destruct (H ltac:(vm_compute; reflexivity)) as (E & _).
    rewrite E. vm_compute. reflexivity.
Defined.

(** C3, as stated, fails: the cord that [Cord() << 200 bytes] builds has a
    tail of capacity 256 that is more than half full; asked for 300000
    more bytes it chains a segment of 300000 bytes, which is above the
    256 KiB ceiling and is not [clamp(max(capacity*2, needed), 256 KiB)]. *)
Lemma growth_exceeds_ceiling :
  appends [ABytes (repeat x61 200)] empty_cord = Some cord_200 /\
  makeRoomForWrite 300000 cord_200
    = Some (mk 200 [IOBuf.mk 256 0 (repeat x61 200); IOBuf.create 300000]) /\
  kMaxGrowthSize < IOBuf.capacity (IOBuf.create 300000) /\
  IOBuf.capacity (IOBuf.create 300000)
    <> Z.min (Z.max (256 * 2) 300000) kMaxGrowthSize.
Proof.
  repeat split; try (vm_compute; reflexivity).
  vm_compute. discriminate.
Qed.

(** ** Concatenation of cords *)

Lemma visit_copy (ch : list IOBuf.t) (d : IOBuf.t) :
  IOBuf.headroom d + IOBuf.length d + len (IOBuf.chain_bytes ch)
    <= IOBuf.capacity d ->
  visit_chain (fun buf (dest : option IOBuf.t) =>
                 (true, d <- dest ;; IOBuf.write_tail buf d))
              ch (Some d)
  = (true, Some (IOBuf.mk (IOBuf.capacity d) (IOBuf.headroom d)
                          (IOBuf.data d ++ IOBuf.chain_bytes ch))).
Proof.
  revert d. induction ch as [|b r IH]; intros d Hfit.
  - cbn. rewrite app_nil_r. now destruct d.
  - change (IOBuf.chain_bytes (b :: r))
      with (IOBuf.data b ++ IOBuf.chain_bytes r) in *.
    rewrite len_app in Hfit.
    pose proof (len_nonneg (IOBuf.chain_bytes r)).
    pose proof (len_nonneg (IOBuf.data b)).
    assert (Hw : IOBuf.write_tail (IOBuf.data b) d
                 = Some (IOBuf.mk (IOBuf.capacity d) (IOBuf.headroom d)
                           (IOBuf.data d ++ IOBuf.data b))).
    { unfold IOBuf.write_tail, IOBuf.tailroom.
      destruct (Z.leb_spec (len (IOBuf.data b))
                  (IOBuf.capacity d - IOBuf.headroom d - IOBuf.length d));
        [reflexivity|lia]. }
    cbn [visit_chain obind]. rewrite Hw, IH.
    + cbn [IOBuf.capacity IOBuf.headroom IOBuf.data].
      now rewrite <- app_assoc.
    + unfold IOBuf.length in *. cbn [IOBuf.capacity IOBuf.headroom IOBuf.data].
      rewrite len_app. lia.
Qed.

(** C10. [operator<<(const Cord& rhs)]: an empty [rhs] leaves this cord as
    it is; a non-empty [rhs] appended to a cord whose chain head is null
    dereferences the null head (no result); and on a cord that owns a
    segment the result holds this cord's segments, untouched, followed by
    one new segment that holds a copy of the whole content of [rhs], so
    that the content is this content followed by that of [rhs].  [rhs] is
    taken by value of its chain: nothing of it is shared or changed. *)
Theorem append_cord_contract (rhs c : t) :
  (size rhs = 0 -> append_cord rhs c = Some c) /\
  (size rhs <> 0 -> head_ c = [] -> append_cord rhs c = None) /\
  (size rhs <> 0 -> size_ rhs = len (content rhs) -> head_ c <> [] ->
   exists c',
     append_cord rhs c = Some c' /\
     head_ c' = head_ c ++ [IOBuf.mk (size_ rhs) 0 (content rhs)] /\
     content c' = content c ++ content rhs /\
     size_ c' = wrap64 (size_ c + size_ rhs)).
Proof.
  unfold append_cord. split; [|split].
  - intros H0. now rewrite H0.
  - intros Hnz Hnull.
    destruct (Z.eqb_spec (size rhs) 0); [contradiction|].
    destruct (apply _ rhs (Some (IOBuf.create (size rhs)))) as [r|];
      [|reflexivity].
    cbn [obind]. destruct (snd r); [|reflexivity].
    cbn [obind]. now rewrite Hnull.
  - intros Hnz Hsz Hhead.
    destruct (Z.eqb_spec (size rhs) 0); [contradiction|].
    unfold apply, empty.
    destruct (Z.eqb_spec (size rhs) 0); [contradiction|].
    destruct (head_ rhs) as [|x xs] eqn:E.
    { exfalso. apply Hnz. unfold size, content in *. rewrite Hsz, E. reflexivity. }
    rewrite <- E. rewrite visit_copy.
    + cbn [obind snd]. unfold IOBuf.create.
      cbn [IOBuf.capacity IOBuf.headroom IOBuf.data].
      change ([] ++ IOBuf.chain_bytes (head_ rhs)) with (content rhs).
      destruct (head_ c) as [|y ys] eqn:Ec; [contradiction|].
      eexists. split; [reflexivity|].
      unfold size, content. cbn [head_ size_].
      repeat split. now rewrite chain_bytes_snoc, Ec.
    + unfold IOBuf.create, IOBuf.length, size, content in *.
      cbn [IOBuf.capacity IOBuf.headroom IOBuf.data].
      change (len []) with 0. lia.
Qed.

Lemma append_cord_contract_witness :
  append_cord empty_cord cord_ab = Some cord_ab /\
  append_cord cord_cde empty_cord = None /\
  exists c',
    append_cord cord_cde cord_ab = Some c' /\
    head_ c' = head_ cord_ab ++ [IOBuf.mk 3 0 [x63; x64; x65]] /\
    content c' = [x61; x62; x63; x64; x65] /\
    size_ c' = 5.
Proof.
  split; [|split].
  - apply (append_cord_contract empty_cord cord_ab). reflexivity.
  - apply (append_cord_contract cord_cde empty_cord);
      [vm_compute; discriminate|reflexivity].
  - apply (append_cord_contract cord_cde cord_ab);
      [vm_compute; discriminate|reflexivity|discriminate].
Defined.

End CordFacts.

(** ** Varint and the row-set framing *)
Module VarintFacts.
Import Varint.

Lemma land_127 (v : Z) : Z.land v 127 = v mod 128.
Proof. change 127 with (Z.ones 7). now rewrite Z.land_ones by lia. Qed.

Lemma lor_128 (x : Z) : 0 <= x < 128 -> Z.lor 128 x = 128 + x.
Proof.
  intros Hx.
  assert (Hland : Z.land 128 x = 0).
  { apply Z.bits_inj'; intros n Hn.
    rewrite Z.land_spec, Z.bits_0. change 128 with (2 ^ 7).
    rewrite Z.pow2_bits_eqb by lia.
    destruct (Z.eqb_spec 7 n) as [<-|]; [|reflexivity].
    destruct (Z.eq_dec x 0) as [->|]; [now rewrite Z.bits_0|].
    rewrite Z.bits_above_log2; [reflexivity|lia|].
    apply Z.log2_lt_pow2; lia. }
  rewrite <- Z.lxor_lor by exact Hland.
  symmetry. apply Z.add_nocarry_lxor. exact Hland.
Qed.

Lemma testbit_7_small (x : Z) : 0 <= x < 128 -> Z.testbit x 7 = false.
Proof.
  intros Hx. destruct (Z.eq_dec x 0) as [->|]; [now rewrite Z.bits_0|].
  apply Z.bits_above_log2; [lia|]. apply Z.log2_lt_pow2; lia.
Qed.

Lemma testbit_7_high (x : Z) : 0 <= x < 128 -> Z.testbit (128 + x) 7 = true.
Proof.
  intros Hx. apply Z.testbit_true; [lia|].
  change (2 ^ 7) with 128.
  replace (128 + x) with (x + 1 * 128) by lia.
  rewrite Z.div_add, Z.div_small by lia. reflexivity.
Qed.

(** The last byte of a varint: a value below 128, stored as it is. *)
Lemma final_byte (v : Z) :
  0 <= v < 128 ->
  decode [byte_of_Z v] = v /\ continues (byte_of_Z v) = false.
Proof.
  intros Hv. unfold continues. cbn [decode].
  rewrite Z_of_byte_of_Z, Z.mod_small by lia.
  rewrite land_127, Z.mod_small by lia.
  split; [lia|]. now apply testbit_7_small.
Qed.

(** A continuation byte: the low seven bits of the value, flagged. *)
Lemma continuation_byte (v : Z) :
  0 <= v ->
  let b := byte_of_Z (Z.lor 128 (Z.land v 127)) in
  Z.land (Z_of_byte b) 127 = v mod 128 /\ continues b = true.
Proof.
  intros Hv b. subst b. unfold continues.
  pose proof (Z.mod_pos_bound v 128 ltac:(lia)) as Hm.
  rewrite (land_127 v), lor_128 by exact Hm.
  rewrite Z_of_byte_of_Z.
  rewrite (Z.mod_small (128 + v mod 128) 256) by lia.
  rewrite land_127. split; [|now apply testbit_7_high].
  replace (128 + v mod 128) with (v mod 128 + 1 * 128) by lia.
  rewrite Z.mod_add, Z.mod_mod by lia. reflexivity.
Qed.

Lemma loop_spec (fuel : nat) (v : Z) :
  0 <= v < 2 ^ (7 * (Z.of_nat fuel + 1)) ->
  let bs := encodeVarint_loop fuel v in
  decode bs = v /\ well_framed bs = true /\
  (1 <= length bs <= S fuel)%nat.
Proof.
  revert v. induction fuel as [|fuel IH]; intros v Hv.
  - change (2 ^ (7 * (Z.of_nat 0 + 1))) with 128 in Hv.
    destruct (final_byte v Hv) as [Hd Hc].
    cbn [encodeVarint_loop well_framed length]. rewrite Hc.
    repeat split; auto.
  - cbn [encodeVarint_loop].
    destruct (Z.geb_spec v 128) as [Hge|Hlt].
    + assert (Hshift : 0 <= Z.shiftr v 7 < 2 ^ (7 * (Z.of_nat fuel + 1))).
      { rewrite Z.shiftr_div_pow2 by lia. split.
        - apply Z.div_pos; lia.
        - apply Z.div_lt_upper_bound; [lia|].
          rewrite <- Z.pow_add_r by lia.
          replace (7 + 7 * (Z.of_nat fuel + 1))
            with (7 * (Z.of_nat (S fuel) + 1)) by lia.
          lia. }
      destruct (IH _ Hshift) as (Hd & Hf & Hl).
      destruct (continuation_byte v ltac:(lia)) as [Hb Hc].
      split; [|split].
      * cbn [decode]. rewrite Hb, Hd, Z.shiftr_div_pow2 by lia.
        change (2 ^ 7) with 128.
        pose proof (Z.div_mod v 128 ltac:(lia)). lia.
      * cbn [well_framed]. rewrite Hc, Hf.
        destruct (encodeVarint_loop fuel (Z.shiftr v 7)); [discriminate|].
        reflexivity.
      * cbn [length]. lia.
    + destruct (final_byte v ltac:(lia)) as [Hd Hc].
      cbn [well_framed length]. rewrite Hc.
      repeat split; auto. lia.
Qed.

(** The loop never needs more than nine rounds on a 64-bit value: more
    fuel gives the same bytes. *)
Lemma loop_fuel_irrelevant (fuel extra : nat) (v : Z) :
  0 <= v < 2 ^ (7 * (Z.of_nat fuel + 1)) ->
  encodeVarint_loop (fuel + extra) v = encodeVarint_loop fuel v.
Proof.
  revert v. induction fuel as [|fuel IH]; intros v Hv.
  - change (2 ^ (7 * (Z.of_nat 0 + 1))) with 128 in Hv.
    destruct extra as [|extra]; [reflexivity|].
    cbn [Nat.add encodeVarint_loop].
    destruct (Z.geb_spec v 128); [lia|reflexivity].
  - cbn [Nat.add encodeVarint_loop].
    destruct (Z.geb_spec v 128) as [Hge|Hlt]; [|reflexivity].
    rewrite IH; [reflexivity|].
    rewrite Z.shiftr_div_pow2 by lia. split.
    + apply Z.div_pos; lia.
    + apply Z.div_lt_upper_bound; [lia|].
      rewrite <- Z.pow_add_r by lia.
      replace (7 + 7 * (Z.of_nat fuel + 1))
        with (7 * (Z.of_nat (S fuel) + 1)) by lia.
      lia.
Qed.

(** [encodeVarint] on a 64-bit value: seven payload bits per byte, least
    significant group first, the continuation bit on all bytes but the
    last, at most ten bytes. *)
Lemma encodeVarint_spec (v : Z) :
  0 <= v < 2 ^ 64 ->
  decode (encodeVarint v) = v /\
  well_framed (encodeVarint v) = true /\
  (1 <= length (encodeVarint v) <= 10)%nat.
Proof.
  intros Hv. unfold encodeVarint. rewrite wrap64_small by exact Hv.
  apply (loop_spec 9 v). change (2 ^ (7 * (Z.of_nat 9 + 1))) with (2 ^ 70).
  lia.
Qed.

End VarintFacts.

Module RowSetWriterFacts.
Import RowSetWriter.

Lemma addRows_data (rows : list (list byte)) (w : t) :
  data_ (addRows rows w)
  = data_ w ++ concat (map (fun r => Varint.encodeVarint (len r) ++ r) rows)
  /\ head_ (addRows rows w) = head_ w.
Proof.
  unfold addRows. revert w. induction rows as [|r rows IH]; intros w.
  - cbn. now rewrite app_nil_r.
  - cbn [fold_left map concat]. destruct (IH (addRow r w)) as [Hd Hh].
    rewrite Hd, Hh. unfold addRow, writeRowLength. cbn [data_ head_].
    now rewrite <- !app_assoc.
Qed.

(** C9. Row-set inline framing: after any sequence of by-value [addRow]
    calls the inline buffer holds what it held before followed, in call
    order and with nothing in between, by each row's length prefix and the
    row's bytes; the chain of owned buffers is untouched.  Each prefix is
    the varint of the row's byte count: seven payload bits per byte, the
    continuation bit on every byte but the last, one to ten bytes.  In
    particular [addRow("ab")] then [addRow("cde")] on an empty buffer gives
    [02 'a' 'b' 03 'c' 'd' 'e']. *)
Theorem rowset_inline_framing (rows : list (list byte)) (w : t) :
  Forall (fun r => len r < 2 ^ 64) rows ->
  data_ (addRows rows w)
    = data_ w ++ concat (map (fun r => Varint.encodeVarint (len r) ++ r) rows)
  /\ head_ (addRows rows w) = head_ w
  /\ Forall (fun r =>
               let prefix := Varint.encodeVarint (len r) in
               Varint.decode prefix = len r /\
               Varint.well_framed prefix = true /\
               (1 <= length prefix <= 10)%nat) rows
  /\ data_ (addRow [x63; x64; x65] (addRow [x61; x62] create))
     = [x02; x61; x62; x03; x63; x64; x65].
Proof.
  intros Hrows. destruct (addRows_data rows w) as [Hd Hh].
  repeat split; auto.
  eapply Forall_impl; [|exact Hrows].
  intros r Hr. cbv beta zeta in Hr |- *. apply VarintFacts.encodeVarint_spec.
  pose proof (len_nonneg r). lia.
Qed.

Lemma rowset_inline_framing_witness :
  data_ (addRows [[x61; x62]; [x63; x64; x65]] create)
    = [x02; x61; x62; x03; x63; x64; x65].
Proof.
  destruct (rowset_inline_framing [[x61; x62]; [x63; x64; x65]] create)
    as (Hd & _).
  - repeat constructor.
  - rewrite Hd. vm_compute. reflexivity.
Defined.

End RowSetWriterFacts.

(** ** RowWriter *)
Module RowWriterFacts.
Import RowWriter.

(** *** The minimal width *)

(** [clzl] counts the zero bits above the highest set bit of a 64-bit
    value. *)
Lemma clzl_spec (v : Z) :
  0 < v < 2 ^ 64 ->
  0 <= clzl v <= 63 /\
  Z.testbit v (63 - clzl v) = true /\
  (forall i, 63 - clzl v < i -> Z.testbit v i = false).
Proof.
  intros Hv. unfold clzl.
  assert (Hl : 0 <= Z.log2 v < 64).
  { split; [apply Z.log2_nonneg|apply Z.log2_lt_pow2; lia]. }
  replace (63 - (63 - Z.log2 v)) with (Z.log2 v) by lia.
  split; [lia|]. split.
  - apply Z.bit_log2. lia.
  - intros i Hi. apply Z.bits_above_log2; lia.
Qed.

Lemma calcOccupiedBytes_pos (v : Z) :
  0 < v < 2 ^ 64 ->
  let w := calcOccupiedBytes v in
  1 <= w <= 8 /\ 2 ^ (8 * (w - 1)) <= v < 2 ^ (8 * w) /\
  w = (Z.log2 v + 1 + 7) / 8.
Proof.
  intros Hv w. subst w. unfold calcOccupiedBytes, clzl.
  destruct (Z.eqb_spec v 0); [lia|].
  assert (Hl : 0 <= Z.log2 v < 64).
  { split; [apply Z.log2_nonneg|apply Z.log2_lt_pow2; lia]. }
  destruct (Z.log2_spec v ltac:(lia)) as [Hlo Hhi].
  set (L := Z.log2 v) in *. clearbody L.
  assert (Hw : 8 * (8 - (63 - L) / 8 - 1) <= L /\ L + 1 <= 8 * (8 - (63 - L) / 8))
    by (Z.div_mod_to_equations; lia).
  split; [Z.div_mod_to_equations; lia|].
  split; [split|Z.div_mod_to_equations; lia].
  - eapply Z.le_trans; [|exact Hlo]. apply Z.pow_le_mono_r; lia.
  - eapply Z.lt_le_trans; [exact Hhi|].
    replace (Z.succ L) with (L + 1) by lia. apply Z.pow_le_mono_r; lia.
Qed.

Lemma calcOccupiedBytes_range (v : Z) :
  0 <= v < 2 ^ 64 ->
  1 <= calcOccupiedBytes v <= 8 /\ v < 2 ^ (8 * calcOccupiedBytes v).
Proof.
  intros Hv. destruct (Z.eq_dec v 0) as [->|Hnz].
  - cbn. lia.
  - destruct (calcOccupiedBytes_pos v ltac:(lia)) as (H1 & H2 & _). lia.
Qed.

Lemma calcOccupiedBytes_least (v k : Z) :
  0 <= v < 2 ^ 64 -> 1 <= k -> v < 2 ^ (8 * k) -> calcOccupiedBytes v <= k.
Proof.
  intros Hv Hk Hvk. destruct (Z.eq_dec v 0) as [->|Hnz].
  - cbn. lia.
  - destruct (calcOccupiedBytes_pos v ltac:(lia)) as (_ & [Hlo _] & _).
    cbv zeta in Hlo.
    assert (Hlt : 2 ^ (8 * (calcOccupiedBytes v - 1)) < 2 ^ (8 * k)) by lia.
    apply Z.pow_lt_mono_r_iff in Hlt; lia.
Qed.

(** C6. [calcOccupiedBytes] is the minimal width: for every unsigned
    64-bit [v] it is 1 when [v = 0], and otherwise the least byte count in
    1..8 that holds [v], that is [ceil(bitlength(v) / 8)]; the boundary
    values are as listed. *)
Theorem calcOccupiedBytes_minimal (v : Z) :
  0 <= v < 2 ^ 64 ->
  let w := calcOccupiedBytes v in
  1 <= w <= 8 /\
  v < 2 ^ (8 * w) /\
  (forall k, 1 <= k -> v < 2 ^ (8 * k) -> w <= k) /\
  (v = 0 -> w = 1) /\
  (v <> 0 -> w = (Z.log2 v + 1 + 7) / 8) /\
  calcOccupiedBytes 0 = 1 /\
  calcOccupiedBytes 255 = 1 /\
  calcOccupiedBytes 256 = 2 /\
  calcOccupiedBytes 65535 = 2 /\
  calcOccupiedBytes 65536 = 3 /\
  calcOccupiedBytes (2 ^ 63) = 8.
Proof.
  intros Hv w.
  destruct (calcOccupiedBytes_range v Hv) as [Hr Hfit]. fold w in Hr, Hfit.
  split; [exact Hr|]. split; [exact Hfit|].
  split; [|split; [|split; [|repeat split]]].
  - intros k Hk Hvk. now apply calcOccupiedBytes_least.
  - intros ->. reflexivity.
  - intros Hnz. now destruct (calcOccupiedBytes_pos v ltac:(lia)) as (_ & _ & E).
Qed.

Lemma calcOccupiedBytes_minimal_witness :
  let w := calcOccupiedBytes 70000 in
  w = 3 /\ 70000 < 2 ^ (8 * w) /\ (70000 < 2 ^ (8 * 2) -> w <= 2).
Proof.
  destruct (calcOccupiedBytes_minimal 70000 ltac:(lia))
    as (_ & Hfit & Hmin & _).
  cbv zeta in *. split; [reflexivity|]. split; [exact Hfit|].
  apply Hmin. lia.
Defined.

(** *** Block bookkeeping *)

Lemma block_start_mod (i : Z) : 0 <= i -> block_start i = (i mod 16 =? 0).
Proof.
  intros Hi. unfold block_start.
  rewrite Z.shiftr_div_pow2, Z.shiftl_mul_pow2 by lia.
  change (2 ^ 4) with 16.
  pose proof (Z.div_mod i 16 ltac:(lia)).
  destruct (Z.eqb_spec (i / 16 * 16) i), (Z.eqb_spec (i mod 16) 0);
    auto; lia.
Qed.

Lemma marks_S (n : nat) :
  marks (S n)
  = marks n ++ (if negb (Z.of_nat n =? 0) && block_start (Z.of_nat n)
                then [Z.of_nat n] else []).
Proof.
  unfold marks. rewrite seq_S, map_app, filter_app. cbn [Nat.add map filter].
  now destruct (negb (Z.of_nat n =? 0) && block_start (Z.of_nat n)).
Qed.

Lemma marks_bound (n : nat) (i : Z) : In i (marks n) -> 0 < i < Z.of_nat n.
Proof.
  unfold marks. rewrite filter_In, in_map_iff.
  intros [(k & <- & Hk) Hf]. apply in_seq in Hk.
  apply andb_prop in Hf. destruct Hf as [Hnz _].
  destruct (Z.eqb_spec (Z.of_nat k) 0); [discriminate|]. lia.
Qed.

Lemma offsets_of_snoc (encs : list (list byte)) (e : list byte) :
  offsets_of (encs ++ [e])
  = offsets_of encs
    ++ (if negb (Z.of_nat (length encs) =? 0)
           && block_start (Z.of_nat (length encs))
        then [len (concat (encs ++ [e]))] else []).
Proof.
  unfold offsets_of. rewrite length_app. cbn [length].
  rewrite Nat.add_1_r, marks_S, map_app. f_equal.
  - apply map_ext_in. intros i Hi. apply marks_bound in Hi.
    rewrite firstn_app.
    replace (Z.to_nat i + 1 - length encs)%nat with 0%nat by lia.
    cbn [firstn]. now rewrite app_nil_r.
  - destruct (negb (Z.of_nat (length encs) =? 0)
              && block_start (Z.of_nat (length encs))); [|reflexivity].
    cbn [map]. rewrite Nat2Z.id.
    rewrite firstn_all2 by (rewrite length_app; cbn [length]; lia).
    reflexivity.
Qed.

(** *** Growing the body *)

Lemma put_emit (width : nat) (v : Z) (w : t) :
  put width v w = emit (le_bytes width v) w.
Proof. unfold put, emit. now rewrite CordFacts.put_is_write. Qed.

Lemma emit_log_error (bs : list byte) (d : Diagnostic) (w : t) :
  emit bs (log_error d w)
  = w1 <- emit bs w ;; Some (log_error d w1).
Proof.
  unfold emit, log_error. cbn [cord_].
  destruct (Cord.write bs (cord_ w)); reflexivity.
Qed.

Lemma same_frame_refl (w : t) : same_frame w w.
Proof. unfold same_frame. tauto. Qed.

Lemma same_frame_trans (a b c : t) :
  same_frame a b -> same_frame b c -> same_frame a c.
Proof. unfold same_frame. intuition congruence. Qed.

Lemma same_frame_log_error (d : Diagnostic) (w : t) :
  same_frame w (log_error d w).
Proof. unfold same_frame, log_error. cbn. tauto. Qed.

(** One [emit] on a body that holds [bs0]. *)
Lemma emit_spec (bs0 e : list byte) (w : t) :
  Cord.inv (2 ^ 19) (cord_ w) ->
  Cord.content (cord_ w) = bs0 ->
  len bs0 + len e < 2 ^ 60 ->
  exists w1,
    emit e w = Some w1 /\
    Cord.inv (2 ^ 19) (cord_ w1) /\
    Cord.content (cord_ w1) = bs0 ++ e /\
    same_frame w w1 /\
    errors w1 = errors w.
Proof.
  intros Hinv Hc Hbound.
  assert (Hsz : Cord.size_ (cord_ w) = len bs0).
  { destruct Hinv as (Hsz & _). rewrite Hsz. unfold Cord.content in Hc.
    now rewrite Hc. }
  destruct (CordFacts.write_spec (2 ^ 19) (cord_ w) e Hinv ltac:(lia))
    as (c' & Hw & Hinv' & Hc' & _).
  { rewrite Hsz. pose proof (len_nonneg e). pose proof (len_nonneg bs0). lia. }
  exists (with_cord c' w). unfold emit. rewrite Hw. cbn [obind].
  split; [reflexivity|]. unfold with_cord. cbn [cord_ errors].
  split; [exact Hinv'|]. split; [now rewrite Hc', Hc|].
  split; [|reflexivity]. unfold same_frame. cbn. tauto.
Qed.

Lemma concat_snoc (encs : list (list byte)) (e : list byte) :
  concat (encs ++ [e]) = concat encs ++ e.
Proof. rewrite concat_app. cbn. now rewrite app_nil_r. Qed.

(** The field [e] is complete: the offset is recorded at a block start. *)
Lemma record_offset_spec (encs : list (list byte)) (e : list byte) (w1 : t) :
  blockOffsets_ w1 = offsets_of encs ->
  Cord.inv (2 ^ 19) (cord_ w1) ->
  Cord.content (cord_ w1) = concat encs ++ e ->
  let w2 := record_offset (Z.of_nat (length encs)) w1 in
  body_tracks (encs ++ [e]) w2 /\
  schema_ w2 = schema_ w1 /\
  schemaWriter_ w2 = schemaWriter_ w1 /\
  encoded_ w2 = encoded_ w1 /\
  colNum_ w2 = colNum_ w1 /\
  errors w2 = errors w1 /\
  cord_ w2 = cord_ w1.
Proof.
  intros Hoff Hinv Hc w2. subst w2. unfold record_offset, body_tracks.
  rewrite offsets_of_snoc, concat_snoc.
  assert (Hsz : Cord.size (cord_ w1) = len (concat encs ++ e)).
  { destruct Hinv as (Hsz & _). unfold Cord.size. rewrite Hsz.
    unfold Cord.content in Hc. now rewrite Hc. }
  destruct (negb (Z.of_nat (length encs) =? 0)
            && block_start (Z.of_nat (length encs))).
  - cbn [cord_ blockOffsets_ schema_ schemaWriter_ encoded_ colNum_ errors].
    rewrite Hoff, Hsz. split; [split; [exact Hinv|split; [exact Hc|reflexivity]]|].
    repeat split; reflexivity.
  - rewrite app_nil_r. split; [split; [exact Hinv|split; [exact Hc|exact Hoff]]|].
    repeat split; reflexivity.
Qed.

Section Helpers.

Variable writeIntBytes : Z -> list byte.
Variable float_to_double : Z -> Z.
Variable double_to_float : Z -> Z.

Local Abbreviation write := (RowWriter.write writeIntBytes float_to_double double_to_float).
Local Abbreviation written_bytes :=
  (RowWriter.written_bytes writeIntBytes float_to_double double_to_float).
Local Abbreviation trace :=
  (RowWriter.trace writeIntBytes float_to_double double_to_float).
Local Abbreviation row_trace :=
  (RowWriter.row_trace writeIntBytes float_to_double double_to_float).
Local Abbreviation run := (RowWriter.run writeIntBytes float_to_double double_to_float).
Local Abbreviation skip := (RowWriter.skip writeIntBytes).
Local Abbreviation skip_loop := (RowWriter.skip_loop writeIntBytes).
Local Abbreviation skip_field := (RowWriter.skip_field writeIntBytes).
Local Abbreviation default_bytes := (RowWriter.default_bytes writeIntBytes).
Local Abbreviation defaults := (RowWriter.defaults writeIntBytes).
Local Abbreviation pad := (RowWriter.pad writeIntBytes).
Local Abbreviation encodeToIOBuf := (RowWriter.encodeToIOBuf writeIntBytes).
Local Abbreviation encodeTo := (RowWriter.encodeTo writeIntBytes).
Local Abbreviation encode := (RowWriter.encode writeIntBytes).

Lemma writeInt_emit (v : Z) (w : t) :
  writeInt writeIntBytes v w = emit (writeIntBytes v) w.
Proof. reflexivity. Qed.

Lemma column_type_fixed (s : SchemaProviderIf) (encs : list (list byte))
    (w : t) (stype ty : SupportedType) :
  tracks s encs w ->
  nth_error (fieldTypes s) (length encs) = Some ty ->
  RW_GET_COLUMN_TYPE stype w = Some ty.
Proof.
  intros (_ & Hs & _ & _ & Hcol & _) Hty.
  assert (Hlt : (length encs < length (fieldTypes s))%nat)
    by (apply nth_error_Some; congruence).
  unfold RW_GET_COLUMN_TYPE, getNumFields, getFieldType. rewrite Hs, Hcol.
  destruct (Z.geb_spec (Z.of_nat (length encs))
              (Z.of_nat (length (fieldTypes s)))); [lia|].
  destruct (Z.ltb_spec (Z.of_nat (length encs)) 0); [lia|].
  now rewrite Nat2Z.id.
Qed.

(** The end of a write: the field [e] just emitted is complete. *)
Lemma clean_up_spec (s : SchemaProviderIf) (encs : list (list byte))
    (e : list byte) (ty : SupportedType) (w w1 : t) :
  tracks s encs w ->
  (length encs < length (fieldTypes s))%nat ->
  Z.of_nat (length (fieldTypes s)) < 2 ^ 31 ->
  same_frame w w1 ->
  Cord.inv (2 ^ 19) (cord_ w1) ->
  Cord.content (cord_ w1) = concat encs ++ e ->
  tracks s (encs ++ [e]) (RW_CLEAN_UP_WRITE ty w1) /\
  errors (RW_CLEAN_UP_WRITE ty w1) = errors w1.
Proof.
  intros ((_ & _ & Hoff) & Hs & Hsw & Henc & Hcol & _) Hlt Hn
         (Fs & Fsw & Fe & Fc & Fo & _) Hinv Hc.
  unfold RW_CLEAN_UP_WRITE. rewrite Fc, Hcol.
  destruct (record_offset_spec encs e w1) as (Hb & Rs & Rsw & Re & Rc & Rerr & Rcord);
    [congruence|exact Hinv|exact Hc|].
  set (w2 := record_offset (Z.of_nat (length encs)) w1) in *.
  assert (Hsch : schema_ w2 = s) by congruence.
  rewrite Hsch. unfold getNumFields.
  destruct (Z.geb_spec (Z.of_nat (length encs))
              (Z.of_nat (length (fieldTypes s)))); [lia|].
  split; [|exact Rerr].
  unfold tracks, body_tracks in *.
  cbn [cord_ blockOffsets_ schema_ schemaWriter_ encoded_ colNum_].
  rewrite length_app. cbn [length].
  rewrite to_int64_small by lia.
  destruct Hb as (Hb1 & Hb2 & Hb3).
  split; [split; [congruence|split; congruence]|].
  repeat split; try congruence; lia.
Qed.

(** One [operator<<] on a fixed schema: the field's bytes are those of
    [written_bytes], the diagnostics those of [diagnostics]. *)
Lemma write_value_spec (s : SchemaProviderIf) (encs : list (list byte))
    (w : t) (v : Value) (ty : SupportedType) :
  tracks s encs w ->
  nth_error (fieldTypes s) (length encs) = Some ty ->
  Z.of_nat (length (fieldTypes s)) < 2 ^ 31 ->
  len (concat encs) + len (written_bytes ty v) < 2 ^ 60 ->
  exists w',
    write v w = Some w' /\
    tracks s (encs ++ [written_bytes ty v]) w' /\
    errors w' = errors w ++ RowWriter.diagnostics ty v.
Proof.
  intros Htr Hty Hn Hbound.
  assert (Hlt : (length encs < length (fieldTypes s))%nat)
    by (apply nth_error_Some; congruence).
  pose proof Htr as ((Hinv & Hc & _) & _).
  (* a single emit, with or without a diagnostic *)
  assert (Hone : forall e ds stype (body : t -> option t),
            len (concat encs) + len e < 2 ^ 60 ->
            (body w = emit e w /\ ds = []
             \/ exists d, body w = emit e (log_error d w) /\ ds = [d]) ->
            exists w',
              (ty0 <- RW_GET_COLUMN_TYPE stype w ;;
               w1 <- body w ;; Some (RW_CLEAN_UP_WRITE ty0 w1)) = Some w' /\
              tracks s (encs ++ [e]) w' /\
              errors w' = errors w ++ ds).
  { intros e ds stype body Hb Hbody.
    rewrite (column_type_fixed s encs w stype ty Htr Hty). cbn [obind].
    destruct (emit_spec (concat encs) e w Hinv Hc Hb)
      as (w1 & He & Hinv1 & Hc1 & Hfr & Herr).
    destruct Hbody as [[-> ->]|(d & -> & ->)].
    - rewrite He. cbn [obind].
      destruct (clean_up_spec s encs e ty w w1 Htr Hlt Hn Hfr Hinv1 Hc1)
        as [Ht He'].
      eexists. split; [reflexivity|]. split; [exact Ht|].
      rewrite He', Herr. now rewrite app_nil_r.
    - rewrite emit_log_error, He. cbn [obind].
      destruct (clean_up_spec s encs e ty w (log_error d w1) Htr Hlt Hn)
        as [Ht He'].
      + eapply same_frame_trans; [exact Hfr|apply same_frame_log_error].
      + exact Hinv1.
      + exact Hc1.
      + eexists. split; [reflexivity|]. split; [exact Ht|].
        rewrite He'. unfold log_error. cbn [errors]. now rewrite Herr. }
  destruct v as [b|f|d|str]; cbn [RowWriter.write].
  - (* bool *)
    unfold write_bool.
    destruct (Hone (written_bytes ty (VBool b)) (RowWriter.diagnostics ty (VBool b))
                BOOL
                (fun w => match ty with
                          | BOOL => put 1 (Z.b2z b) w
                          | _ => put 1 (Z.b2z false)
                                   (log_error (IncompatibleValueType KBool) w)
                          end) Hbound) as (w' & Hw & Ht & He).
    { destruct ty; cbn; rewrite put_emit; eauto. }
    exists w'. split; [|split; assumption].
    rewrite (column_type_fixed s encs w BOOL ty Htr Hty) in Hw |- *.
    exact Hw.
  - (* float *)
    unfold write_float.
    destruct (Hone (written_bytes ty (VFloat f)) (RowWriter.diagnostics ty (VFloat f))
                FLOAT
                (fun w => match ty with
                          | FLOAT => put 4 f w
                          | DOUBLE => put 8 (float_to_double f) w
                          | _ => put 4 0
                                   (log_error (IncompatibleValueType KFloat) w)
                          end) Hbound) as (w' & Hw & Ht & He).
    { destruct ty; cbn; rewrite put_emit; eauto. }
    exists w'. split; [|split; assumption].
    rewrite (column_type_fixed s encs w FLOAT ty Htr Hty) in Hw |- *.
    exact Hw.
  - (* double *)
    unfold write_double.
    destruct (Hone (written_bytes ty (VDouble d)) (RowWriter.diagnostics ty (VDouble d))
                DOUBLE
                (fun w => match ty with
                          | FLOAT => put 4 (double_to_float d) w
                          | DOUBLE => put 8 d w
                          | _ => put 8 0
                                   (log_error (IncompatibleValueType KDouble) w)
                          end) Hbound) as (w' & Hw & Ht & He).
    { destruct ty; cbn; rewrite put_emit; eauto. }
    exists w'. split; [|split; assumption].
    rewrite (column_type_fixed s encs w DOUBLE ty Htr Hty) in Hw |- *.
    exact Hw.
  - (* string *)
    unfold write_string.
    rewrite (column_type_fixed s encs w STRING ty Htr Hty). cbn [obind].
    destruct (SupportedType_eqb ty STRING) eqn:Est.
    + (* the length, then the bytes: two appends *)
      assert (ty = STRING) as -> by (destruct ty; cbn in Est; congruence).
      cbn [RowWriter.written_bytes RowWriter.matches kind_of
           RowWriter.native_bytes RowWriter.diagnostics] in *.
      rewrite len_app in Hbound.
      pose proof (len_nonneg str). pose proof (len_nonneg (writeIntBytes (len str))).
      destruct (emit_spec (concat encs) (writeIntBytes (len str)) w Hinv Hc
                  ltac:(lia)) as (w1 & He1 & Hinv1 & Hc1 & Hfr1 & Herr1).
      destruct (emit_spec (concat encs ++ writeIntBytes (len str)) str w1
                  Hinv1 Hc1) as (w2 & He2 & Hinv2 & Hc2 & Hfr2 & Herr2).
      { rewrite len_app. lia. }
      rewrite writeInt_emit, He1. cbn [obind].
      fold (emit str w1). rewrite He2. cbn [obind].
      destruct (clean_up_spec s encs (writeIntBytes (len str) ++ str) STRING w w2
                  Htr Hlt Hn) as [Ht He'].
      * eapply same_frame_trans; eassumption.
      * exact Hinv2.
      * now rewrite Hc2, app_assoc.
      * eexists. split; [reflexivity|]. split; [exact Ht|].
        rewrite He', Herr2, Herr1. now rewrite app_nil_r.
    + destruct (Hone (written_bytes ty (VString str))
                  (RowWriter.diagnostics ty (VString str)) STRING
                  (fun w => writeInt writeIntBytes 0
                              (log_error (IncompatibleValueType KString) w))
                  Hbound) as (w' & Hw & Ht & He).
      { right. exists (IncompatibleValueType KString).
        destruct ty; cbn in Est |- *; try discriminate; auto. }
      rewrite (column_type_fixed s encs w STRING ty Htr Hty) in Hw.
      cbn [obind] in Hw.
      exists w'. split; [|split; assumption].
      destruct ty; cbn in Est; try discriminate; exact Hw.
Qed.

(** *** Skipping fields *)

Lemma skipn_nth_error (A : Type) (l : list A) (i : nat) (x : A) :
  nth_error l i = Some x -> skipn i l = x :: skipn (S i) l.
Proof.
  revert i. induction l as [|a l IH]; intros [|i] H; cbn in *;
    try discriminate.
  - now injection H as ->.
  - now apply IH.
Qed.

Lemma defaults_length (tys : list SupportedType) (ds : list (list byte)) :
  defaults tys = Some ds -> length ds = length tys.
Proof.
  revert ds. induction tys as [|ty tys IH]; intros ds H; cbn in H.
  - now injection H as <-.
  - destruct (default_bytes ty); [|discriminate]. cbn in H.
    destruct (RowWriter.defaults writeIntBytes tys) eqn:E; [|discriminate].
    cbn in H. injection H as <-. cbn. f_equal. now apply IH.
Qed.

Lemma defaults_app (a b : list SupportedType) (da db : list (list byte)) :
  defaults a = Some da -> defaults b = Some db ->
  defaults (a ++ b) = Some (da ++ db).
Proof.
  revert da. induction a as [|ty a IH]; intros da Ha Hb; cbn in *.
  - now injection Ha as <-.
  - destruct (default_bytes ty) as [d|]; [|discriminate]. cbn in *.
    destruct (RowWriter.defaults writeIntBytes a) as [da'|] eqn:E;
      [|discriminate].
    cbn in Ha. injection Ha as <-. now rewrite (IH da' eq_refl Hb).
Qed.

Lemma skip_field_spec (s : SchemaProviderIf) (encs : list (list byte))
    (w : t) (ty : SupportedType) (e : list byte) :
  body_tracks encs w ->
  schema_ w = s ->
  nth_error (fieldTypes s) (length encs) = Some ty ->
  default_bytes ty = Some e ->
  len (concat encs) + len e < 2 ^ 60 ->
  exists w1,
    skip_field (Z.of_nat (length encs)) w = Some w1 /\
    body_tracks (encs ++ [e]) w1 /\
    same_but_body w w1.
Proof.
  intros (Hinv & Hc & Hoff) Hs Hty Hd Hbound.
  unfold RowWriter.skip_field, getFieldType. rewrite Hs.
  destruct (Z.ltb_spec (Z.of_nat (length encs)) 0); [lia|].
  rewrite Nat2Z.id, Hty. cbn [obind].
  destruct (emit_spec (concat encs) e w Hinv Hc Hbound)
    as (w1 & He & Hinv1 & Hc1 & Hfr & Herr).
  assert (Hbody : match ty with
                  | BOOL => put 1 (Z.b2z false) w
                  | INT | TIMESTAMP => writeInt writeIntBytes 0 w
                  | FLOAT => put 4 0 w
                  | DOUBLE => put 8 0 w
                  | STRING => writeInt writeIntBytes 0 w
                  | VID => put 8 0 w
                  | UNSUPPORTED => None
                  end = Some w1).
  { destruct ty; cbn in Hd; try discriminate; injection Hd as <-;
      rewrite ?put_emit, ?writeInt_emit; exact He. }
  rewrite Hbody. cbn [obind].
  destruct Hfr as (Fs & Fsw & Fe & Fc & Fo & _).
  destruct (record_offset_spec encs e w1) as (Hb & Rs & Rsw & Re & Rc & Rerr & _);
    [congruence|exact Hinv1|exact Hc1|].
  eexists. split; [reflexivity|]. split; [exact Hb|].
  unfold same_but_body. repeat split; congruence.
Qed.

Lemma same_but_body_trans (a b c : t) :
  same_but_body a b -> same_but_body b c -> same_but_body a c.
Proof. unfold same_but_body. intuition congruence. Qed.

Lemma skip_loop_spec (s : SchemaProviderIf) (n : nat) :
  Z.of_nat (length (fieldTypes s)) < 2 ^ 31 ->
  forall (encs ds : list (list byte)) (w : t),
    body_tracks encs w ->
    schema_ w = s ->
    (length encs + n <= length (fieldTypes s))%nat ->
    defaults (firstn n (skipn (length encs) (fieldTypes s))) = Some ds ->
    len (concat encs) + len (concat ds) < 2 ^ 60 ->
    exists w1,
      skip_loop n (Z.of_nat (length encs)) w = Some w1 /\
      body_tracks (encs ++ ds) w1 /\
      same_but_body w w1.
Proof.
  intros HN. induction n as [|n IH]; intros encs ds w Hb Hs Hlen Hd Hbound.
  - cbn in Hd. injection Hd as <-. exists w. rewrite app_nil_r.
    split; [reflexivity|]. split; [exact Hb|].
    unfold same_but_body. tauto.
  - destruct (nth_error (fieldTypes s) (length encs)) as [ty|] eqn:Ety.
    2:{ apply nth_error_None in Ety. lia. }
    rewrite (skipn_nth_error _ _ _ _ Ety) in Hd. cbn [firstn RowWriter.defaults] in Hd.
    destruct (default_bytes ty) as [e|] eqn:Ee; [|discriminate].
    cbn [obind] in Hd.
    destruct (defaults (firstn n (skipn (S (length encs)) (fieldTypes s))))
      as [ds'|] eqn:Eds; [|discriminate].
    cbn [obind] in Hd. injection Hd as <-.
    cbn [concat] in Hbound. rewrite len_app in Hbound.
    pose proof (len_nonneg e). pose proof (len_nonneg (concat ds')).
    destruct (skip_field_spec s encs w ty e Hb Hs Ety Ee ltac:(lia))
      as (w1 & Hf & Hb1 & Hfr1).
    cbn [RowWriter.skip_loop]. rewrite Hf. cbn [obind].
    rewrite to_int32_small by lia.
    assert (Hl : length (encs ++ [e]) = S (length encs))
      by (rewrite length_app; cbn; lia).
    replace (Z.of_nat (length encs) + 1) with (Z.of_nat (length (encs ++ [e])))
      by lia.
    destruct (IH (encs ++ [e]) ds' w1 Hb1) as (w2 & Hl2 & Hb2 & Hfr2).
    + destruct Hfr1 as (E & _). congruence.
    + lia.
    + now rewrite Hl.
    + rewrite concat_snoc, len_app. lia.
    + exists w2. split; [exact Hl2|]. rewrite <- app_assoc in Hb2.
      split; [exact Hb2|]. eapply same_but_body_trans; eassumption.
Qed.

(** [operator<<(Skip(toSkip))] on a fixed schema: the next fields, up to the
    schema's end, get their defaults. *)
Lemma skip_spec (s : SchemaProviderIf) (encs ds : list (list byte)) (w : t)
    (toSkip : Z) :
  tracks s encs w ->
  Z.of_nat (length (fieldTypes s)) < 2 ^ 31 ->
  0 < toSkip < 2 ^ 62 ->
  defaults (firstn (Nat.min (Z.to_nat toSkip)
                            (length (fieldTypes s) - length encs))
                   (skipn (length encs) (fieldTypes s))) = Some ds ->
  len (concat encs) + len (concat ds) < 2 ^ 60 ->
  exists w1,
    skip toSkip w = Some w1 /\
    tracks s (encs ++ ds) w1 /\
    errors w1 = errors w.
Proof.
  intros (Hb & Hs & Hsw & Henc & Hcol & Hle) HN Hk Hd Hbound.
  set (k := Nat.min (Z.to_nat toSkip) (length (fieldTypes s) - length encs)) in *.
  unfold RowWriter.skip.
  destruct (Z.leb_spec toSkip 0); [lia|].
  rewrite Hs, Hcol. unfold getNumFields.
  rewrite (to_int64_small (Z.of_nat (length encs) + toSkip)) by lia.
  assert (Hmin : Z.min (Z.of_nat (length encs) + toSkip)
                       (Z.of_nat (length (fieldTypes s)))
                 = Z.of_nat (length encs) + Z.of_nat k) by lia.
  rewrite Hmin, !to_int32_small by lia.
  replace (Z.to_nat (Z.of_nat (length encs) + Z.of_nat k - Z.of_nat (length encs)))
    with k by lia.
  destruct (skip_loop_spec s k HN encs ds w Hb Hs ltac:(lia) Hd Hbound)
    as (w1 & Hl & Hb1 & (Fs & Fsw & Fe & Fc & Ferr)).
  rewrite Hl. cbn [obind]. eexists. split; [reflexivity|].
  pose proof (defaults_length _ _ Hd) as Hlen.
  rewrite length_firstn, length_skipn in Hlen.
  split; [|exact Ferr].
  unfold tracks, body_tracks in *.
  cbn [cord_ blockOffsets_ schema_ schemaWriter_ encoded_ colNum_].
  rewrite length_app.
  destruct Hb1 as (B1 & B2 & B3).
  split; [split; [exact B1|split; [exact B2|exact B3]]|].
  repeat split; try congruence; lia.
Qed.

(** *** Runs of commands *)

Lemma tracks_create (s : SchemaProviderIf) : tracks s [] (create (Some s)).
Proof.
  unfold tracks, body_tracks, create.
  cbn [cord_ blockOffsets_ schema_ schemaWriter_ encoded_ colNum_ length].
  split; [split; [apply CordFacts.inv_empty_cord; lia|split; reflexivity]|].
  repeat split. lia.
Qed.

Lemma run_spec (s : SchemaProviderIf) :
  Z.of_nat (length (fieldTypes s)) < 2 ^ 31 ->
  forall (cs : list Command) (encs encs' : list (list byte)) (w : t),
    tracks s encs w ->
    trace (fieldTypes s) (length encs) cs = Some encs' ->
    len (concat encs) + len (concat encs') < 2 ^ 60 ->
    exists w', run cs w = Some w' /\ tracks s (encs ++ encs') w'.
Proof.
  intros HN. induction cs as [|c cs IH]; intros encs encs' w Htr Ht Hbound.
  - cbn in Ht. injection Ht as <-. exists w. now rewrite app_nil_r.
  - destruct c as [v|n]; cbn [RowWriter.trace] in Ht; cbn [RowWriter.run RowWriter.exec].
    + destruct (nth_error (fieldTypes s) (length encs)) as [ty|] eqn:Ety;
        [|discriminate].
      cbn [obind] in Ht.
      destruct (trace (fieldTypes s) (S (length encs)) cs) as [rest|] eqn:Er;
        [|discriminate].
      cbn [obind] in Ht. injection Ht as <-.
      cbn [concat] in Hbound. rewrite len_app in Hbound.
      pose proof (len_nonneg (written_bytes ty v)).
      pose proof (len_nonneg (concat rest)).
      destruct (write_value_spec s encs w v ty Htr Ety HN ltac:(lia))
        as (w1 & Hw & Htr1 & _).
      rewrite Hw. cbn [obind].
      destruct (IH (encs ++ [written_bytes ty v]) rest w1 Htr1) as (w' & Hr & Htr').
      * rewrite length_app. cbn [length]. now rewrite Nat.add_1_r.
      * rewrite concat_snoc, len_app. lia.
      * exists w'. split; [exact Hr|]. now rewrite <- app_assoc in Htr'.
    + destruct (Z.leb_spec n 0) as [Hn0|Hn0].
      * unfold RowWriter.skip. destruct (Z.leb_spec n 0); [|lia]. cbn [obind].
        now apply IH.
      * destruct (Z.leb_spec (2 ^ 62) n); [discriminate|].
        set (k := Nat.min (Z.to_nat n) (length (fieldTypes s) - length encs)) in *.
        destruct (defaults (firstn k (skipn (length encs) (fieldTypes s))))
          as [ds|] eqn:Ed; [|discriminate].
        cbn [obind] in Ht.
        destruct (trace (fieldTypes s) (length encs + k) cs) as [rest|] eqn:Er;
          [|discriminate].
        cbn [obind] in Ht. injection Ht as <-.
        rewrite concat_app, len_app in Hbound.
        pose proof (len_nonneg (concat ds)). pose proof (len_nonneg (concat rest)).
        destruct (skip_spec s encs ds w n Htr HN ltac:(lia) Ed ltac:(lia))
          as (w1 & Hs & Htr1 & _).
        rewrite Hs. cbn [obind].
        pose proof (defaults_length _ _ Ed) as Hlen.
        rewrite length_firstn, length_skipn in Hlen.
        destruct (IH (encs ++ ds) rest w1 Htr1) as (w' & Hr & Htr').
        -- rewrite length_app. replace (length ds) with k by lia. exact Er.
        -- rewrite concat_app, len_app. lia.
        -- exists w'. split; [exact Hr|]. now rewrite <- app_assoc in Htr'.
Qed.

(** The padding of [encodeToIOBuf()]: the fields left get their defaults. *)
Lemma pad_spec (s : SchemaProviderIf) (encs ds : list (list byte)) (w : t) :
  tracks s encs w ->
  Z.of_nat (length (fieldTypes s)) < 2 ^ 31 ->
  defaults (skipn (length encs) (fieldTypes s)) = Some ds ->
  len (concat encs) + len (concat ds) < 2 ^ 60 ->
  exists w1,
    pad w = Some w1 /\
    tracks s (encs ++ ds) w1 /\
    length (encs ++ ds) = length (fieldTypes s) /\
    errors w1 = errors w.
Proof.
  intros Htr HN Hd Hbound.
  pose proof Htr as (Hb & Hs & Hsw & Henc & Hcol & Hle).
  pose proof (defaults_length _ _ Hd) as Hlen. rewrite length_skipn in Hlen.
  unfold RowWriter.pad. rewrite Hsw, Hs, Hcol. cbn [negb]. unfold getNumFields.
  rewrite to_int64_small by lia.
  destruct (Nat.eq_dec (length encs) (length (fieldTypes s))) as [E|E].
  - rewrite E, Z.sub_diag. destruct ds; [|cbn in Hlen; lia].
    exists w. rewrite app_nil_r.
    split; [reflexivity|]. split; [exact Htr|]. split; [exact E|reflexivity].
  - destruct (skip_spec s encs ds w
                (Z.of_nat (length (fieldTypes s)) - Z.of_nat (length encs))
                Htr HN ltac:(lia)) as (w1 & Hsk & Htr1 & Herr); [|exact Hbound|].
    + replace (Nat.min _ _) with (length (fieldTypes s) - length encs)%nat by lia.
      rewrite firstn_all2 by (rewrite length_skipn; lia). exact Hd.
    + exists w1. split; [exact Hsk|]. split; [exact Htr1|].
      split; [rewrite length_app; lia|exact Herr].
Qed.

(** *** The header *)

Lemma len_concat_le_bytes (k : nat) (offs : list Z) :
  len (concat (map (le_bytes k) offs)) = Z.of_nat k * Z.of_nat (length offs).
Proof.
  induction offs as [|o offs IH]; cbn [map concat length].
  - unfold len. cbn. lia.
  - rewrite len_app, IH, len_le_bytes. lia.
Qed.

Lemma offsets_of_length (fs : list (list byte)) :
  (length (offsets_of fs) <= length fs)%nat.
Proof.
  unfold offsets_of, marks. rewrite length_map.
  eapply Nat.le_trans; [apply filter_length_le|].
  now rewrite length_map, length_seq.
Qed.

Lemma header_of_length (version bodySize : Z) (offs : list Z) :
  0 <= bodySize < 2 ^ 64 ->
  len (header_of version bodySize offs)
  = 1 + (if version >? 0 then calcOccupiedBytes (wrap64 version) else 0)
    + calcOccupiedBytes bodySize * Z.of_nat (length offs).
Proof.
  intros Hb. unfold header_of.
  destruct (calcOccupiedBytes_range bodySize Hb) as [Ho _].
  destruct (calcOccupiedBytes_range (wrap64 version)) as [Hv _].
  { apply Z.mod_pos_bound. lia. }
  rewrite len_app, len_concat_le_bytes, Z2Nat.id by lia.
  destruct (version >? 0).
  - change (len (?b :: ?l)) with (Z.of_nat (S (length l))).
    rewrite length_le_bytes, Nat2Z.inj_succ, Z2Nat.id by lia. lia.
  - change (len [_]) with 1. lia.
Qed.

Lemma synthesizeHeader_spec (s : SchemaProviderIf) (fs : list (list byte))
    (w1 : t) :
  tracks s fs w1 ->
  Z.of_nat (length (fieldTypes s)) < 2 ^ 31 ->
  len (concat fs) < 2 ^ 60 ->
  let header := header_of (getVersion s) (len (concat fs)) (offsets_of fs) in
  exists w2 hb,
    synthesizeHeader w1 = Some (w2, hb :: Cord.head_ (cord_ w1)) /\
    IOBuf.data hb = header /\
    IOBuf.headroom hb = 10 /\
    cord_ w2 = Cord.mk (len header + len (concat fs))
                       (hb :: Cord.head_ (cord_ w1)) /\
    encoded_ w2 = true /\
    schema_ w2 = s /\
    blockOffsets_ w2 = offsets_of fs /\
    colNum_ w2 = colNum_ w1 /\
    errors w2 = errors w1.
Proof.
  intros ((Hinv & Hc & Hoff) & Hs & Hsw & Henc & Hcol & Hle) HN Hbound header.
  pose proof (len_nonneg (concat fs)) as Hb0.
  assert (Hsz : Cord.size (cord_ w1) = len (concat fs)).
  { destruct Hinv as (Hsz & _). unfold Cord.size. rewrite Hsz.
    unfold Cord.content in Hc. now rewrite Hc. }
  pose proof (header_of_length (getVersion s) (len (concat fs)) (offsets_of fs)
                ltac:(lia)) as Hhl.
  fold header in Hhl.
  destruct (calcOccupiedBytes_range (len (concat fs)) ltac:(lia)) as [Ho _].
  destruct (calcOccupiedBytes_range (wrap64 (getVersion s))) as [Hv _].
  { apply Z.mod_pos_bound. lia. }
  pose proof (offsets_of_length fs) as Hcount.
  set (offW := calcOccupiedBytes (len (concat fs))) in *.
  set (verW := calcOccupiedBytes (wrap64 (getVersion s))) in *.
  set (n := Z.of_nat (length (offsets_of fs))) in *.
  assert (Hn : 0 <= n < 2 ^ 31) by lia.
  assert (Hprod : 0 <= offW * n < 2 ^ 34) by nia.
  unfold synthesizeHeader. rewrite Hs, Hoff, Hsz.
  fold offW verW n.
  rewrite (wrap64_small (offW * n + verW + 1)) by lia.
  rewrite (wrap64_small (offW * n + verW + 1 + 10)) by lia.
  unfold IOBuf.advance, IOBuf.create, IOBuf.tailroom, IOBuf.length.
  cbn [IOBuf.capacity IOBuf.headroom IOBuf.data].
  change (len []) with 0.
  destruct (Z.leb_spec 10 (offW * n + verW + 1 + 10 - 0 - 0)); [|lia].
  cbn [obind]. rewrite (wrap64_small (0 + 10)) by lia.
  assert (Hcommit : forall stored amount,
            len stored = amount -> amount <= offW * n + verW + 1 ->
            commit_tail stored amount
              (IOBuf.mk (offW * n + verW + 1 + 10) (0 + 10) [])
            = Some (IOBuf.mk (offW * n + verW + 1 + 10) (0 + 10) stored)).
  { intros stored amount Hl Ha. unfold commit_tail, IOBuf.tailroom, IOBuf.length.
    cbn [IOBuf.capacity IOBuf.headroom IOBuf.data]. change (len []) with 0.
    pose proof (len_nonneg stored).
    destruct (Z.leb_spec (len stored) (offW * n + verW + 1 + 10 - (0 + 10) - 0));
      [|lia].
    destruct (Z.leb_spec amount (len stored)); [|lia].
    destruct (Z.leb_spec 0 amount); [|lia].
    cbn [andb app]. rewrite firstn_all2; [reflexivity|].
    unfold len in Hl. lia. }
  assert (Hstored :
            (let '(stored, headerBytes) :=
               if getVersion s >? 0
               then (byte_of_Z (Z.lor (offW - 1) (Z.shiftl verW 5))
                       :: le_bytes (Z.to_nat verW) (getVersion s),
                     offW * n + verW + 1)
               else ([byte_of_Z (offW - 1)],
                     wrap64 (offW * n + verW + 1 - verW)) in
             commit_tail
               (stored ++ concat (map (le_bytes (Z.to_nat offW)) (offsets_of fs)))
               headerBytes
               (IOBuf.mk (offW * n + verW + 1 + 10) (0 + 10) []))
            = Some (IOBuf.mk (offW * n + verW + 1 + 10) (0 + 10) header)).
  { subst header. unfold header_of in *. fold offW verW in Hhl |- *.
    destruct (getVersion s >? 0).
    - apply Hcommit; [rewrite Hhl|]; lia.
    - rewrite wrap64_small by lia. apply Hcommit; [rewrite Hhl|]; lia. }
  destruct (if getVersion s >? 0
            then (byte_of_Z (Z.lor (offW - 1) (Z.shiftl verW 5))
                    :: le_bytes (Z.to_nat verW) (getVersion s),
                  offW * n + verW + 1)
            else ([byte_of_Z (offW - 1)], wrap64 (offW * n + verW + 1 - verW)))
    as [stored headerBytes].
  rewrite Hstored. cbn [obind].
  set (hb := IOBuf.mk (offW * n + verW + 1 + 10) (0 + 10) header).
  assert (Hhsize : IOBuf.computeChainDataLength [hb] = len header).
  { cbn [IOBuf.computeChainDataLength]. unfold IOBuf.length, hb.
    cbn [IOBuf.data]. rewrite Z.add_0_r, wrap64_small; [reflexivity|].
    destruct (getVersion s >? 0); lia. }
  assert (Hpre : Cord.prependHeader [hb] (cord_ w1)
                 = Cord.mk (len header + len (concat fs))
                           (hb :: Cord.head_ (cord_ w1))).
  { unfold Cord.prependHeader. rewrite Hhsize.
    unfold Cord.size in Hsz.
    destruct (Cord.head_ (cord_ w1)) as [|x xs] eqn:Eh.
    - f_equal. rewrite <- Hc. unfold Cord.content. rewrite Eh.
      change (len (IOBuf.chain_bytes [])) with 0. lia.
    - rewrite Hsz. f_equal. rewrite wrap64_small; [lia|].
      destruct (getVersion s >? 0); lia. }
  rewrite Hpre. unfold Cord.clone. cbn [Cord.head_ obind].
  eexists. exists hb. split; [reflexivity|].
  cbn [cord_ encoded_ schema_ blockOffsets_ colNum_ errors].
  repeat split; auto.
Qed.

(** The whole of [encodeToIOBuf()] on a writer that is not finalized. *)
Lemma encodeToIOBuf_spec (s : SchemaProviderIf) (encs ds : list (list byte))
    (w : t) :
  tracks s encs w ->
  Z.of_nat (length (fieldTypes s)) < 2 ^ 31 ->
  defaults (skipn (length encs) (fieldTypes s)) = Some ds ->
  len (concat (encs ++ ds)) < 2 ^ 60 ->
  let fs := encs ++ ds in
  let header := header_of (getVersion s) (len (concat fs)) (offsets_of fs) in
  exists w1 w2 out,
    pad w = Some w1 /\
    tracks s fs w1 /\
    encodeToIOBuf w = Some (w2, out) /\
    IOBuf.chain_bytes out = header ++ concat fs /\
    cord_ w2 = Cord.mk (len (header ++ concat fs)) out /\
    out <> [] /\
    encoded_ w2 = true /\
    schema_ w2 = s /\
    blockOffsets_ w2 = offsets_of fs /\
    errors w2 = errors w.
Proof.
  intros Htr HN Hd Hbound fs header.
  rewrite concat_app, len_app in Hbound.
  destruct (pad_spec s encs ds w Htr HN Hd Hbound) as (w1 & Hp & Htr1 & Hfull & He1).
  fold fs in Htr1, Hfull.
  assert (Hb' : len (concat fs) < 2 ^ 60)
    by (subst fs; rewrite concat_app, len_app; exact Hbound).
  destruct (synthesizeHeader_spec s fs w1 Htr1 HN Hb')
    as (w2 & hb & Hsyn & Hdata & _ & Hcord & Henc & Hsch & Hoff & _ & He2).
  fold header in Hdata, Hcord.
  exists w1, w2, (hb :: Cord.head_ (cord_ w1)).
  destruct Htr as (_ & _ & _ & Hne & _).
  unfold RowWriter.encodeToIOBuf. rewrite Hne, Hp. cbn [obind].
  pose proof Htr1 as ((_ & Hc1 & _) & _).
  assert (Hbytes : IOBuf.chain_bytes (hb :: Cord.head_ (cord_ w1))
                   = header ++ concat fs).
  { change (IOBuf.chain_bytes (hb :: Cord.head_ (cord_ w1)))
      with (IOBuf.data hb ++ Cord.content (cord_ w1)).
    now rewrite Hdata, Hc1. }
  split; [reflexivity|]. split; [assumption|]. split; [exact Hsyn|].
  split; [exact Hbytes|]. split; [now rewrite Hcord, len_app|].
  split; [discriminate|]. split; [exact Henc|]. split; [exact Hsch|].
  split; [exact Hoff|congruence].
Qed.

(** *** Marks and offsets *)

Lemma marks_In (n : nat) (i : Z) :
  In i (marks n) <-> 0 < i < Z.of_nat n /\ i mod 16 = 0.
Proof.
  unfold marks. rewrite filter_In, in_map_iff. split.
  - intros [(k & <- & Hk) Hf]. apply in_seq in Hk.
    apply andb_prop in Hf. destruct Hf as [Hnz Hbs].
    rewrite block_start_mod in Hbs by lia.
    destruct (Z.eqb_spec (Z.of_nat k) 0); [discriminate|].
    apply Z.eqb_eq in Hbs. lia.
  - intros [Hi Hm]. split.
    + exists (Z.to_nat i). split; [lia|]. apply in_seq. lia.
    + rewrite block_start_mod by lia.
      destruct (Z.eqb_spec i 0); [lia|]. cbn. now apply Z.eqb_eq.
Qed.

Lemma StronglySorted_snoc (R : Z -> Z -> Prop) (l : list Z) (a : Z) :
  StronglySorted R l -> Forall (fun x => R x a) l ->
  StronglySorted R (l ++ [a]).
Proof.
  induction 1 as [|x l Hs IH Hx]; intros Hall; cbn.
  - repeat constructor.
  - inversion Hall; subst. constructor; [now apply IH|].
    apply Forall_app. split; [exact Hx|]. now repeat constructor.
Qed.

(** The marks come in increasing order, each once. *)
Lemma marks_sorted (n : nat) : StronglySorted Z.lt (marks n).
Proof.
  induction n as [|n IH]; [constructor|].
  rewrite marks_S.
  destruct (negb (Z.of_nat n =? 0) && block_start (Z.of_nat n)).
  - apply StronglySorted_snoc; [exact IH|].
    apply Forall_forall. intros x Hx. apply marks_bound in Hx. lia.
  - now rewrite app_nil_r.
Qed.

Lemma marks_count (n : nat) : length (marks (S n)) = (n / 16)%nat.
Proof.
  assert (H : Z.of_nat (length (marks (S n))) = Z.of_nat n / 16).
  { induction n as [|n IH]; [reflexivity|].
    rewrite marks_S, length_app, Nat2Z.inj_add, IH.
    rewrite block_start_mod by lia.
    destruct (Z.eqb_spec (Z.of_nat (S n)) 0); [lia|].
    destruct (Z.eqb_spec (Z.of_nat (S n) mod 16) 0); cbn [negb andb length];
      Z.div_mod_to_equations; lia. }
  apply Nat2Z.inj. rewrite H, Nat2Z.inj_div. reflexivity.
Qed.

Lemma prefix_size_mono (fs : list (list byte)) (a b : nat) :
  (a <= b)%nat ->
  len (concat (firstn a fs)) <= len (concat (firstn b fs)) <= len (concat fs).
Proof.
  intros Hab.
  assert (Hle : forall (l : list (list byte)) k,
            len (concat (firstn k l)) <= len (concat l)).
  { intros l k. rewrite <- (firstn_skipn k l) at 2.
    rewrite concat_app, len_app.
    pose proof (len_nonneg (concat (skipn k l))). lia. }
  split; [|apply Hle].
  rewrite <- (Nat.min_l a b) at 1 by exact Hab.
  rewrite <- firstn_firstn. apply Hle.
Qed.

(** The recorded offsets are in ascending order and within the body. *)
Lemma offsets_of_sorted (fs : list (list byte)) :
  StronglySorted Z.le (offsets_of fs) /\
  Forall (fun o => 0 <= o <= len (concat fs)) (offsets_of fs).
Proof.
  unfold offsets_of. split.
  - pose proof (marks_sorted (length fs)) as Hs.
    assert (Hpos : Forall (fun i => 0 < i) (marks (length fs))).
    { apply Forall_forall. intros i Hi. apply marks_bound in Hi. lia. }
    induction Hs as [|i l Hs IH Hi]; cbn [map]; [constructor|].
    inversion Hpos; subst.
    constructor; [now apply IH|].
    apply Forall_forall. intros o Ho. apply in_map_iff in Ho.
    destruct Ho as (j & <- & Hj).
    rewrite Forall_forall in Hi. specialize (Hi j Hj).
    apply prefix_size_mono. lia.
  - apply Forall_forall. intros o Ho. apply in_map_iff in Ho.
    destruct Ho as (j & <- & Hj).
    split; [apply len_nonneg|].
    apply (prefix_size_mono fs (Z.to_nat j + 1) (Z.to_nat j + 1)). lia.
Qed.

(** *** Size and finalization *)

Lemma size_spec (s : SchemaProviderIf) (encs : list (list byte)) (w : t) :
  tracks s encs w ->
  Z.of_nat (length (fieldTypes s)) < 2 ^ 31 ->
  len (concat encs) < 2 ^ 60 ->
  Cord.size (cord_ w) = len (concat encs) /\
  size w = len (header_of (getVersion s) (len (concat encs)) (offsets_of encs))
           + len (concat encs) /\
  size w = Cord.size (cord_ w)
           + calcOccupiedBytes (Cord.size (cord_ w))
             * Z.of_nat (length (blockOffsets_ w))
           + (if getVersion s >? 0
              then calcOccupiedBytes (wrap64 (getVersion s)) else 0)
           + 1.
Proof.
  intros ((Hinv & Hc & Hoff) & Hs & _ & _ & _ & Hle) HN Hbound.
  pose proof (len_nonneg (concat encs)) as Hb0.
  assert (Hsz : Cord.size (cord_ w) = len (concat encs)).
  { destruct Hinv as (Hsz & _). unfold Cord.size. rewrite Hsz.
    unfold Cord.content in Hc. now rewrite Hc. }
  split; [exact Hsz|].
  rewrite header_of_length by lia.
  destruct (calcOccupiedBytes_range (len (concat encs)) ltac:(lia)) as [Ho _].
  destruct (calcOccupiedBytes_range (wrap64 (getVersion s))) as [Hv _].
  { apply Z.mod_pos_bound. lia. }
  pose proof (offsets_of_length encs) as Hcount.
  unfold size. rewrite Hs, Hoff, Hsz.
  set (offW := calcOccupiedBytes (len (concat encs))) in *.
  set (verW := calcOccupiedBytes (wrap64 (getVersion s))) in *.
  set (n := Z.of_nat (length (offsets_of encs))) in *.
  assert (Hprod : 0 <= offW * n < 2 ^ 34) by nia.
  rewrite to_int64_small by (destruct (getVersion s >? 0); lia).
  split; lia.
Qed.

(** [encode()] on a writer whose cord holds the finalized row. *)
Lemma encode_finalized (w2 : t) (out : list IOBuf.t) :
  encoded_ w2 = true ->
  cord_ w2 = Cord.mk (len (IOBuf.chain_bytes out)) out ->
  encode w2 = Some (w2, IOBuf.chain_bytes out).
Proof.
  intros He Hc. unfold RowWriter.encode, RowWriter.encodeTo.
  rewrite He. cbn [negb obind].
  rewrite CordFacts.appendTo_sized by (rewrite Hc; reflexivity).
  cbn [obind fst]. rewrite Hc. reflexivity.
Qed.

Lemma encode_first (w w2 : t) (out : list IOBuf.t) :
  encoded_ w = false ->
  encodeToIOBuf w = Some (w2, out) ->
  cord_ w2 = Cord.mk (len (IOBuf.chain_bytes out)) out ->
  encode w = Some (w2, IOBuf.chain_bytes out).
Proof.
  intros He Henc Hc. unfold RowWriter.encode, RowWriter.encodeTo.
  rewrite He, Henc. cbn [negb obind fst].
  rewrite CordFacts.appendTo_sized by (rewrite Hc; reflexivity).
  cbn [obind fst]. rewrite Hc. reflexivity.
Qed.

(** C2. For every fully-written row (commands that write or skip every
    field of the schema) over any schema, versioned or not, the run
    succeeds, finalization succeeds, and [size()] taken before finalization
    is the byte length of the buffer chain that [encodeToIOBuf()] returns and
    of the string that [encode()] returns; it equals
    [bodySize + offsetWidth * blockOffsets.count + versionWidth + 1], where
    [versionWidth] is 0 unless the version is positive.  [size] is a function
    of the writer alone and returns no writer: it changes nothing. *)
Theorem size_matches_encoding (s : SchemaProviderIf) (cs : list Command)
    (encs : list (list byte)) :
  Z.of_nat (length (fieldTypes s)) < 2 ^ 31 ->
  trace (fieldTypes s) 0 cs = Some encs ->
  length encs = length (fieldTypes s) ->
  len (concat encs) < 2 ^ 60 ->
  exists w w2 out,
    run cs (create (Some s)) = Some w /\
    encodeToIOBuf w = Some (w2, out) /\
    encode w = Some (w2, IOBuf.chain_bytes out) /\
    size w = len (IOBuf.chain_bytes out) /\
    size w = Cord.size (cord_ w)
             + calcOccupiedBytes (Cord.size (cord_ w))
               * Z.of_nat (length (blockOffsets_ w))
             + (if getVersion s >? 0
                then calcOccupiedBytes (wrap64 (getVersion s)) else 0)
             + 1.
Proof.
  intros HN Ht Hfull Hbound.
  destruct (run_spec s HN cs [] encs (create (Some s)) (tracks_create s) Ht)
    as (w & Hrun & Htr).
  { change (len (concat [])) with 0. lia. }
  cbn [app] in Htr.
  destruct (size_spec s encs w Htr HN Hbound) as (_ & Hsize & Hformula).
  destruct (encodeToIOBuf_spec s encs [] w Htr HN) as
    (w1 & w2 & out & _ & _ & Henc & Hbytes & Hcord & _ & He2 & _).
  { rewrite Hfull, skipn_all. reflexivity. }
  { now rewrite app_nil_r. }
  rewrite app_nil_r in Hbytes, Hcord.
  exists w, w2, out.
  split; [exact Hrun|]. split; [exact Henc|].
  split; [|split; [|exact Hformula]].
  - apply encode_first; [apply Htr|exact Henc|now rewrite Hbytes].
  - rewrite Hsize, Hbytes, len_app. reflexivity.
Qed.

(** C4. Sparse block index: when the commands write or skip all [N]
    fields, the run succeeds and the block offsets hold, in order, one entry
    for each completed field index [i] with [i <> 0] and [i mod 16 = 0]
    (the marks: increasing, so each once, never 0, [(N - 1) / 16] of them),
    and the entry for [i] is the byte size of the body once field [i] is
    complete.  For 18 boolean fields one offset is recorded, the offset width
    is 1 and the encoded row has 20 bytes. *)
Theorem block_offsets_every_16 (s : SchemaProviderIf) (cs : list Command)
    (encs : list (list byte)) :
  Z.of_nat (length (fieldTypes s)) < 2 ^ 31 ->
  trace (fieldTypes s) 0 cs = Some encs ->
  length encs = length (fieldTypes s) ->
  len (concat encs) < 2 ^ 60 ->
  let N := length (fieldTypes s) in
  (exists w,
     run cs (create (Some s)) = Some w /\
     colNum_ w = Z.of_nat N /\
     Cord.content (cord_ w) = concat encs /\
     blockOffsets_ w
     = map (fun i => len (concat (firstn (Z.to_nat i + 1) encs))) (marks N)) /\
  (forall i, In i (marks N) <-> 0 < i < Z.of_nat N /\ i mod 16 = 0) /\
  StronglySorted Z.lt (marks N) /\
  length (marks N) = ((N - 1) / 16)%nat /\
  (let bools := mkSchema 0 (repeat BOOL 18) in
   exists w w2 out,
     run (repeat (Put (VBool true)) 18) (create (Some bools)) = Some w /\
     blockOffsets_ w = [17] /\
     calcOccupiedBytes (Cord.size (cord_ w)) = 1 /\
     size w = 20 /\
     encodeToIOBuf w = Some (w2, out) /\
     len (IOBuf.chain_bytes out) = 20).
Proof.
  intros HN Ht Hfull Hbound N.
  split; [|split; [|split; [|split]]].
  - destruct (run_spec s HN cs [] encs (create (Some s)) (tracks_create s) Ht)
      as (w & Hrun & Htr).
    { change (len (concat [])) with 0. lia. }
    cbn [app] in Htr.
    destruct Htr as ((_ & Hc & Hoff) & _ & _ & _ & Hcol & _).
    exists w. split; [exact Hrun|]. split; [now rewrite Hcol, Hfull|].
    split; [exact Hc|].
    rewrite Hoff. unfold offsets_of. now rewrite Hfull.
  - intros i. apply marks_In.
  - apply marks_sorted.
  - destruct N as [|n]; [reflexivity|].
    rewrite marks_count. f_equal. lia.
  - cbv zeta. do 3 eexists.
    split; [vm_compute; reflexivity|].
    repeat split; vm_compute; reflexivity.
Qed.

(** *** The packed byte *)

Lemma lor_shiftl_disjoint (a b k : Z) :
  0 <= k -> 0 <= a < 2 ^ k -> 0 <= b ->
  Z.lor a (Z.shiftl b k) = a + b * 2 ^ k.
Proof.
  intros Hk Ha Hb.
  assert (Hland : Z.land a (Z.shiftl b k) = 0).
  { apply Z.bits_inj'; intros n Hn.
    rewrite Z.land_spec, Z.bits_0.
    destruct (Z.ltb_spec n k) as [Hlt|Hge].
    - rewrite Z.shiftl_spec_low by lia. apply andb_false_r.
    - destruct (Z.eq_dec a 0) as [->|Hnz]; [now rewrite Z.bits_0|].
      rewrite (Z.bits_above_log2 a n); [reflexivity|lia|].
      assert (Z.log2 a < k) by (apply Z.log2_lt_pow2; lia). lia. }
  rewrite <- Z.lxor_lor by exact Hland.
  rewrite <- Z.add_nocarry_lxor by exact Hland.
  now rewrite Z.shiftl_mul_pow2 by lia.
Qed.

Lemma packed_byte (offW verW : Z) :
  1 <= offW <= 8 -> 0 <= verW <= 7 ->
  let x := Z_of_byte (byte_of_Z (Z.lor (offW - 1) (Z.shiftl verW 5))) in
  x = (offW - 1) + 32 * verW /\
  Z.land x 7 = offW - 1 /\
  Z.shiftr x 5 = verW.
Proof.
  intros Ho Hv x. subst x.
  rewrite Z_of_byte_of_Z.
  rewrite (lor_shiftl_disjoint (offW - 1) verW 5) by lia.
  change (2 ^ 5) with 32.
  rewrite Z.mod_small by lia.
  split; [lia|]. split.
  - change 7 with (Z.ones 3). rewrite Z.land_ones by lia.
    change (2 ^ 3) with 8. Z.div_mod_to_equations. lia.
  - rewrite Z.shiftr_div_pow2 by lia. change (2 ^ 5) with 32.
    Z.div_mod_to_equations. lia.
Qed.

(** C5 (for versions below [2^56], whose width fits the three high bits).
    Every run of commands can be finalized, and the encoded row is the packed
    byte, then the version bytes, then the block offsets, then the body.  The
    packed byte is [(offsetWidth - 1) + 32 * versionWidth]: its three low
    bits hold [offsetWidth - 1], its three high bits hold [versionWidth],
    which is 0 when the version is 0; the version takes [versionWidth] bytes
    (none when the version is 0), least significant first; the offsets are
    those recorded, in ascending order, each in [offsetWidth] bytes that hold
    it without loss. *)
Theorem header_layout (s : SchemaProviderIf) (cs : list Command)
    (fs : list (list byte)) :
  Z.of_nat (length (fieldTypes s)) < 2 ^ 31 ->
  row_trace s cs = Some fs ->
  len (concat fs) < 2 ^ 60 ->
  0 <= getVersion s < 2 ^ 56 ->
  let body := concat fs in
  let offsetWidth := calcOccupiedBytes (len body) in
  let versionWidth :=
    if getVersion s >? 0 then calcOccupiedBytes (getVersion s) else 0 in
  exists w w2 out packed verbytes,
    run cs (create (Some s)) = Some w /\
    encodeToIOBuf w = Some (w2, out) /\
    IOBuf.chain_bytes out
    = packed :: verbytes
      ++ concat (map (le_bytes (Z.to_nat offsetWidth)) (blockOffsets_ w2))
      ++ body /\
    Z_of_byte packed = (offsetWidth - 1) + 32 * versionWidth /\
    Z.land (Z_of_byte packed) 7 = offsetWidth - 1 /\
    Z.shiftr (Z_of_byte packed) 5 = versionWidth /\
    len verbytes = versionWidth /\
    le_value verbytes = getVersion s /\
    blockOffsets_ w2 = offsets_of fs /\
    StronglySorted Z.le (blockOffsets_ w2) /\
    Forall (fun o => le_value (le_bytes (Z.to_nat offsetWidth) o) = o)
           (blockOffsets_ w2).
Proof.
  intros HN Hrt Hbound Hver body offsetWidth versionWidth.
  unfold RowWriter.row_trace in Hrt.
  destruct (trace (fieldTypes s) 0 cs) as [encs|] eqn:Et; [|discriminate].
  cbn [obind] in Hrt.
  destruct (defaults (skipn (length encs) (fieldTypes s))) as [ds|] eqn:Ed;
    [|discriminate].
  cbn [obind] in Hrt. injection Hrt as <-.
  pose proof Hbound as Hbound'. rewrite concat_app, len_app in Hbound'.
  pose proof (len_nonneg (concat encs)). pose proof (len_nonneg (concat ds)).
  destruct (run_spec s HN cs [] encs (create (Some s)) (tracks_create s) Et)
    as (w & Hrun & Htr).
  { change (len (concat [])) with 0. lia. }
  cbn [app] in Htr.
  destruct (encodeToIOBuf_spec s encs ds w Htr HN Ed Hbound) as
    (w1 & w2 & out & _ & _ & Henc & Hbytes & _ & _ & _ & _ & Hoff & _).
  fold body in Hbytes.
  pose proof (len_nonneg body) as Hb0.
  assert (Hb1 : len body < 2 ^ 60) by exact Hbound.
  destruct (calcOccupiedBytes_range (len body) ltac:(lia)) as [Ho Hfit].
  fold offsetWidth in Ho, Hfit.
  destruct (offsets_of_sorted (encs ++ ds)) as [Hsorted Hin].
  assert (Hlossless :
            Forall (fun o => le_value (le_bytes (Z.to_nat offsetWidth) o) = o)
                   (offsets_of (encs ++ ds))).
  { eapply Forall_impl; [|exact Hin]. intros o Hoin. cbv beta in Hoin.
    rewrite le_value_le_bytes, Z2Nat.id by lia.
    apply Z.mod_small. fold body in Hoin. lia. }
  unfold header_of in Hbytes. fold offsetWidth in Hbytes.
  rewrite (wrap64_small (getVersion s)) in Hbytes by lia.
  subst versionWidth.
  destruct (Z.gtb_spec (getVersion s) 0) as [Hpos|Hzero].
  - destruct (calcOccupiedBytes_range (getVersion s) ltac:(lia))
      as (Hv & Hvfit).
    assert (Hv7 : calcOccupiedBytes (getVersion s) <= 7).
    { apply calcOccupiedBytes_least; [lia|lia|].
      change (2 ^ (8 * 7)) with (2 ^ 56). lia. }
    destruct (packed_byte offsetWidth (calcOccupiedBytes (getVersion s)) Ho
                ltac:(lia)) as (Hx & Hlow & Hhigh).
    cbv zeta in Hx, Hlow, Hhigh.
    exists w, w2, out,
      (byte_of_Z (Z.lor (offsetWidth - 1)
                    (Z.shiftl (calcOccupiedBytes (getVersion s)) 5))),
      (le_bytes (Z.to_nat (calcOccupiedBytes (getVersion s))) (getVersion s)).
    split; [exact Hrun|]. split; [exact Henc|].
    split; [rewrite Hbytes, Hoff, <- app_assoc; reflexivity|].
    split; [exact Hx|]. split; [exact Hlow|]. split; [exact Hhigh|].
    split; [rewrite len_le_bytes; lia|].
    split; [rewrite le_value_le_bytes, Z2Nat.id by lia; apply Z.mod_small; lia|].
    split; [exact Hoff|]. rewrite Hoff. split; assumption.
  - destruct (packed_byte offsetWidth 0 Ho ltac:(lia)) as (Hx & Hlow & Hhigh).
    cbv zeta in Hx, Hlow, Hhigh.
    change (Z.shiftl 0 5) with 0 in Hx, Hlow, Hhigh.
    rewrite Z.lor_0_r in Hx, Hlow, Hhigh.
    exists w, w2, out, (byte_of_Z (offsetWidth - 1)), [].
    split; [exact Hrun|]. split; [exact Henc|].
    split; [rewrite Hbytes, Hoff; reflexivity|].
    split; [exact Hx|]. split; [exact Hlow|]. split; [exact Hhigh|].
    split; [reflexivity|]. split; [cbn; lia|].
    split; [exact Hoff|]. rewrite Hoff. split; assumption.
Qed.

(** The write operators on a fixed schema, case by case.  A write always
    returns and advances the column index by one, whatever the value.  A
    value of the declared type is written as it is; a 32-bit float into a
    declared 64-bit float field is promoted and a 64-bit float into a
    declared 32-bit float field is narrowed, both without a diagnostic.
    For any other value one diagnostic is emitted and the [default:] branch
    of the value's own operator runs: the bytes it appends are fixed by the
    value's C++ type, not by the declared type.  Finalization still
    returns, whatever was appended. *)
Lemma coercion_rule (s : SchemaProviderIf) (cs : list Command)
    (encs : list (list byte)) (ty : SupportedType) (v : Value) :
  Z.of_nat (length (fieldTypes s)) < 2 ^ 31 ->
  trace (fieldTypes s) 0 cs = Some encs ->
  nth_error (fieldTypes s) (length encs) = Some ty ->
  len (concat encs) + len (written_bytes ty v) < 2 ^ 60 ->
  exists w w' appended emitted,
    run cs (create (Some s)) = Some w /\
    write v w = Some w' /\
    colNum_ w' = colNum_ w + 1 /\
    encoded_ w' = false /\
    Cord.content (cord_ w') = Cord.content (cord_ w) ++ appended /\
    errors w' = errors w ++ emitted /\
    match ty, v with
    | BOOL, VBool _ | FLOAT, VFloat _ | DOUBLE, VDouble _ | STRING, VString _ =>
        appended = RowWriter.native_bytes writeIntBytes v /\ emitted = []
    | DOUBLE, VFloat f =>
        appended = le_bytes 8 (float_to_double f) /\ emitted = []
    | FLOAT, VDouble d =>
        appended = le_bytes 4 (double_to_float d) /\ emitted = []
    | _, _ =>
        appended = RowWriter.zero_of_kind writeIntBytes (kind_of v) /\
        emitted = [IncompatibleValueType (kind_of v)]
    end /\
    (forall ds,
       defaults (skipn (S (length encs)) (fieldTypes s)) = Some ds ->
       len (concat encs) + len appended + len (concat ds) < 2 ^ 60 ->
       exists w2 out,
         encodeToIOBuf w' = Some (w2, out) /\
         IOBuf.chain_bytes out
         = header_of (getVersion s)
                     (len (concat (encs ++ appended :: ds)))
                     (offsets_of (encs ++ appended :: ds))
           ++ concat (encs ++ appended :: ds)).
Proof.
  intros HN Ht Hty Hbound.
  pose proof (len_nonneg (written_bytes ty v)).
  destruct (run_spec s HN cs [] encs (create (Some s)) (tracks_create s) Ht)
    as (w & Hrun & Htr).
  { change (len (concat [])) with 0. lia. }
  cbn [app] in Htr.
  destruct (write_value_spec s encs w v ty Htr Hty HN Hbound)
    as (w' & Hw & Htr' & Herr).
  exists w, w', (written_bytes ty v), (RowWriter.diagnostics ty v).
  destruct Htr as ((_ & Hc & _) & _ & _ & _ & Hcol & _).
  pose proof Htr' as ((_ & Hc' & _) & _ & _ & Henc' & Hcol' & _).
  split; [exact Hrun|]. split; [exact Hw|].
  split; [rewrite Hcol', Hcol, length_app; cbn [length]; lia|].
  split; [exact Henc'|].
  split; [rewrite Hc', Hc; apply concat_snoc|].
  split; [exact Herr|].
  split; [destruct ty, v; cbn; split; reflexivity|].
  intros ds Hds Hb.
  assert (Hl : length (encs ++ [written_bytes ty v]) = S (length encs))
    by (rewrite length_app; cbn [length]; lia).
  destruct (encodeToIOBuf_spec s (encs ++ [written_bytes ty v]) ds w' Htr' HN)
    as (w1 & w2 & out & _ & _ & Hen & Hbytes & _).
  - now rewrite Hl.
  - rewrite <- app_assoc. cbn [app].
    rewrite concat_app, len_app. cbn [concat]. rewrite len_app. lia.
  - rewrite <- app_assoc in Hbytes. cbn [app] in Hbytes.
    exists w2, out. split; [exact Hen|exact Hbytes].
Qed.

(** C7.  The code misses the rule.  A [bool] written into a field
    declared [DOUBLE] takes the [default:] branch of [operator<<(bool)]:
    the diagnostic is emitted and the column index advances, as the rule
    says, but the placeholder is [cord_ << false], one zero byte, where the
    default of the declared type - the one that [Skip] writes for the same
    field - is eight zero bytes.  The row is still produced, two bytes long
    where every row of this schema has nine: the field is seven bytes short
    of its declared width.  This holds whatever [writeInt] and the float
    conversions are. *)
Theorem mismatch_leaves_wrong_width (b : bool) :
  exists w' ws w2' ws2,
    write (VBool b) (create (Some (mkSchema 0 [DOUBLE]))) = Some w' /\
    skip 1 (create (Some (mkSchema 0 [DOUBLE]))) = Some ws /\
    errors w' = [IncompatibleValueType KBool] /\
    colNum_ w' = 1 /\
    colNum_ ws = 1 /\
    Cord.content (cord_ w') = [x00] /\
    Cord.content (cord_ ws) = [x00; x00; x00; x00; x00; x00; x00; x00] /\
    default_bytes DOUBLE = Some (Cord.content (cord_ ws)) /\
    default_bytes DOUBLE <> Some (Cord.content (cord_ w')) /\
    encode w' = Some (w2', [x00; x00]) /\
    encode ws
    = Some (ws2, [x00; x00; x00; x00; x00; x00; x00; x00; x00]).
Proof.
  destruct b;
    do 4 eexists;
    (split; [vm_compute; reflexivity|]);
    (split; [vm_compute; reflexivity|]);
    repeat split; try (vm_compute; reflexivity); vm_compute; discriminate.
Qed.

(** What [synthesizeHeader] leaves: the writer is marked encoded and its
    cord's chain is the one returned. *)
Lemma synthesizeHeader_result (w1 w2 : t) (out : list IOBuf.t) :
  synthesizeHeader w1 = Some (w2, out) ->
  encoded_ w2 = true /\ Cord.clone (cord_ w2) = Some out.
Proof.
  unfold synthesizeHeader.
  destruct (IOBuf.advance _ _) as [hb|]; [|discriminate]. cbn [obind].
  destruct (getVersion (schema_ w1) >? 0).
  - destruct (commit_tail _ _ _) as [hb'|]; [|discriminate]. cbn [obind].
    destruct (Cord.clone _) as [ch|] eqn:Ec; [|discriminate]. cbn [obind].
    intros [= <- <-]. cbn [encoded_ cord_]. auto.
  - destruct (commit_tail _ _ _) as [hb'|]; [|discriminate]. cbn [obind].
    destruct (Cord.clone _) as [ch|] eqn:Ec; [|discriminate]. cbn [obind].
    intros [= <- <-]. cbn [encoded_ cord_]. auto.
Qed.

(** C8. Finalize idempotence.  Whenever [encodeToIOBuf()] returns, the
    writer it leaves is marked encoded, and a second call on that writer
    takes the cached-clone branch: it returns the same buffer chain and
    leaves the writer, hence its block offsets and its cord, exactly as it
    was; no header is synthesized again.  For every run of commands the
    first call does return, and [encode()] called twice gives the same
    string, the bytes of that chain. *)
Theorem finalize_idempotent (s : SchemaProviderIf) (cs : list Command)
    (fs : list (list byte)) :
  (forall w w1 out1,
     encodeToIOBuf w = Some (w1, out1) ->
     encoded_ w1 = true /\
     encodeToIOBuf w1 = Some (w1, out1) /\
     encodeToIOBuf w1 = (ch <- Cord.clone (cord_ w1) ;; Some (w1, ch))) /\
  (Z.of_nat (length (fieldTypes s)) < 2 ^ 31 ->
   row_trace s cs = Some fs ->
   len (concat fs) < 2 ^ 60 ->
   exists w w1 out,
     run cs (create (Some s)) = Some w /\
     encodeToIOBuf w = Some (w1, out) /\
     encodeToIOBuf w1 = Some (w1, out) /\
     encode w = Some (w1, IOBuf.chain_bytes out) /\
     encode w1 = Some (w1, IOBuf.chain_bytes out)).
Proof.
  split.
  - intros w w1 out1 H.
    assert (Hres : encoded_ w1 = true /\ Cord.clone (cord_ w1) = Some out1).
    { unfold RowWriter.encodeToIOBuf in H.
      destruct (encoded_ w) eqn:Ee.
      - destruct (Cord.clone (cord_ w)) as [ch|] eqn:Ec; [|discriminate].
        cbn [obind] in H. injection H as <- <-. auto.
      - destruct (pad w) as [w'|]; [|discriminate]. cbn [obind] in H.
        now apply synthesizeHeader_result in H. }
    destruct Hres as [He Hc]. split; [exact He|].
    unfold RowWriter.encodeToIOBuf. rewrite He, Hc. split; reflexivity.
  - intros HN Hrt Hbound.
    unfold RowWriter.row_trace in Hrt.
    destruct (trace (fieldTypes s) 0 cs) as [encs|] eqn:Et; [|discriminate].
    cbn [obind] in Hrt.
    destruct (defaults (skipn (length encs) (fieldTypes s))) as [ds|] eqn:Ed;
      [|discriminate].
    cbn [obind] in Hrt. injection Hrt as <-.
    pose proof Hbound as Hbound'. rewrite concat_app, len_app in Hbound'.
    pose proof (len_nonneg (concat encs)). pose proof (len_nonneg (concat ds)).
    destruct (run_spec s HN cs [] encs (create (Some s)) (tracks_create s) Et)
      as (w & Hrun & Htr).
    { change (len (concat [])) with 0. lia. }
    cbn [app] in Htr.
    destruct (encodeToIOBuf_spec s encs ds w Htr HN Ed Hbound) as
      (w1 & w2 & out & _ & _ & Henc & Hbytes & Hcord & Hne & He2 & _).
    rewrite <- Hbytes in Hcord.
    exists w, w2, out.
    split; [exact Hrun|]. split; [exact Henc|]. split; [|split].
    + unfold RowWriter.encodeToIOBuf. rewrite He2, Hcord.
      unfold Cord.clone. cbn [Cord.head_].
      destruct out; [contradiction|reflexivity].
    + apply encode_first; [apply Htr|exact Henc|exact Hcord].
    + apply encode_finalized; assumption.
Qed.

End Helpers.

(** *** Examples *)

Local Abbreviation xwrite :=
  (RowWriter.write example_writeInt example_float_to_double
                   example_double_to_float).
Local Abbreviation xrun :=
  (RowWriter.run example_writeInt example_float_to_double
                 example_double_to_float).
Local Abbreviation xencodeToIOBuf := (RowWriter.encodeToIOBuf example_writeInt).
Local Abbreviation xencode := (RowWriter.encode example_writeInt).

Lemma size_matches_encoding_witness :
  exists w w2 out,
    xrun example_commands (create (Some example_schema)) = Some w /\
    xencodeToIOBuf w = Some (w2, out) /\
    xencode w = Some (w2, IOBuf.chain_bytes out) /\
    size w = len (IOBuf.chain_bytes out) /\
    size w = 14.
Proof.
  destruct (size_matches_encoding example_writeInt example_float_to_double
              example_double_to_float example_schema example_commands
              [[x01]; [x02; x61; x62]; le_bytes 8 0])
    as (w & w2 & out & Hrun & Henc & Hstr & Hsize & Hformula).
  - vm_compute. reflexivity.
  - vm_compute. reflexivity.
  - reflexivity.
  - vm_compute. reflexivity.
  - exists w, w2, out. repeat split; try assumption.
    assert (Hw : Some w = xrun example_commands (create (Some example_schema)))
      by (symmetry; exact Hrun).
    vm_compute in Hw. injection Hw as ->. vm_compute. reflexivity.
Defined.

Lemma block_offsets_every_16_witness :
  exists w,
    xrun wide_commands (create (Some wide_schema)) = Some w /\
    colNum_ w = 35 /\
    blockOffsets_ w = [17; 124].
Proof.
  destruct (block_offsets_every_16 example_writeInt example_float_to_double
              example_double_to_float wide_schema wide_commands
              ([[x01]] ++ repeat [x00] 19 ++ repeat (le_bytes 8 0) 15))
    as ((w & Hrun & Hcol & _ & Hoff) & _).
  - vm_compute. reflexivity.
  - vm_compute. reflexivity.
  - reflexivity.
  - vm_compute. reflexivity.
  - exists w. split; [exact Hrun|]. split; [exact Hcol|].
    rewrite Hoff. vm_compute. reflexivity.
Defined.

Lemma header_layout_witness :
  exists w w2 out,
    xrun (repeat (Put (VBool true)) 18) (create (Some bools_v300)) = Some w /\
    xencodeToIOBuf w = Some (w2, out) /\
    IOBuf.chain_bytes out
    = [x40; x2c; x01; x11] ++ repeat x01 18.
Proof.
  destruct (header_layout example_writeInt example_float_to_double
              example_double_to_float bools_v300
              (repeat (Put (VBool true)) 18) (repeat [x01] 18))
    as (w & w2 & out & packed & verbytes & Hrun & Henc & Hbytes & _).
  - vm_compute. reflexivity.
  - vm_compute. reflexivity.
  - vm_compute. reflexivity.
  - vm_compute. split; [discriminate|reflexivity].
  - exists w, w2, out. split; [exact Hrun|]. split; [exact Henc|].
    assert (Hw : Some w
                 = xrun (repeat (Put (VBool true)) 18) (create (Some bools_v300)))
      by (symmetry; exact Hrun).
    vm_compute in Hw. injection Hw as ->.
    assert (Ho : Some (w2, out) = xencodeToIOBuf
                   (mk bools_v300 false
                      (Cord.mk 18 [IOBuf.mk 256 0 (repeat x01 18)])
                      false 18 [17] None None []))
      by (symmetry; exact Henc).
    vm_compute in Ho. injection Ho as -> ->. vm_compute. reflexivity.
Defined.

(** C5, as stated, fails for a version of eight bytes: with version [2^56]
    the version width is 8 and eight version bytes are written, but the
    packed byte, which has three bits above bit 5, holds 0 there. *)
Lemma version_width_overflows_packed_byte :
  exists w w1,
    xrun [Put (VBool true)] (create (Some bools_v2p56)) = Some w /\
    xencode w
    = Some (w1, [x00] ++ [x00; x00; x00; x00; x00; x00; x00; x01] ++ [x01]) /\
    calcOccupiedBytes (getVersion bools_v2p56) = 8 /\
    Z.shiftr (Z_of_byte x00) 5 = 0 /\
    Z.shiftr (Z_of_byte x00) 5 <> calcOccupiedBytes (getVersion bools_v2p56).
Proof.
  do 2 eexists. split; [vm_compute; reflexivity|].
  split; [vm_compute; reflexivity|].
  repeat split; try (vm_compute; reflexivity).
  vm_compute. discriminate.
Qed.

Lemma coercion_rule_witness :
  exists w',
    xwrite (VFloat 1069547520)
           (create (Some (mkSchema 0 [DOUBLE; BOOL]))) = Some w' /\
    colNum_ w' = 1 /\
    Cord.content (cord_ w') = le_bytes 8 4609434218613702656 /\
    errors w' = [].
Proof.
  destruct (coercion_rule example_writeInt example_float_to_double
              example_double_to_float (mkSchema 0 [DOUBLE; BOOL]) [] []
              DOUBLE (VFloat 1069547520))
    as (w & w' & appended & emitted & Hrun & Hw & Hcol & _ & Hc & He
        & (Ha & Hd) & _).
  - vm_compute. reflexivity.
  - reflexivity.
  - reflexivity.
  - vm_compute. reflexivity.
  - cbn in Hrun. injection Hrun as <-.
    exists w'. split; [exact Hw|]. split; [exact Hcol|].
    split; [rewrite Hc, Ha; vm_compute; reflexivity|].
    rewrite He, Hd. reflexivity.
Defined.

(** A [double] written into a field declared [FLOAT] is no promotion, yet
    [operator<<(double)] has a [case] of its own for it: the value is
    narrowed and written, and no diagnostic is emitted. *)
Lemma double_into_float_is_narrowed :
  exists w',
    xwrite (VDouble 4609434218613702656)
           (create (Some (mkSchema 0 [FLOAT]))) = Some w' /\
    Cord.content (cord_ w') = le_bytes 4 1069547520 /\
    Cord.content (cord_ w') <> le_bytes 4 0 /\
    errors w' = [].
Proof.
  eexists. split; [vm_compute; reflexivity|].
  repeat split; try (vm_compute; reflexivity). vm_compute. discriminate.
Qed.

Lemma finalize_idempotent_witness :
  exists w w1 out,
    xrun example_commands (create (Some example_schema)) = Some w /\
    xencodeToIOBuf w = Some (w1, out) /\
    xencodeToIOBuf w1 = Some (w1, out) /\
    xencode w = Some (w1, IOBuf.chain_bytes out) /\
    xencode w1 = Some (w1, IOBuf.chain_bytes out).
Proof.
  destruct (finalize_idempotent example_writeInt example_float_to_double
              example_double_to_float example_schema example_commands
              [[x01]; [x02; x61; x62]; le_bytes 8 0]) as [_ H].
  apply H.
  - vm_compute. reflexivity.
  - vm_compute. reflexivity.
  - vm_compute. reflexivity.
Defined.

End RowWriterFacts.

(** * Further properties *)

(** ** Cord *)
Module CordExtra.
Import Cord.

Lemma computeChainDataLength_exact (ch : list IOBuf.t) :
  len (IOBuf.chain_bytes ch) < 2 ^ 64 ->
  IOBuf.computeChainDataLength ch = len (IOBuf.chain_bytes ch).
Proof.
  induction ch as [|b r IH]; intros Hb; [reflexivity|].
  change (IOBuf.chain_bytes (b :: r))
    with (IOBuf.data b ++ IOBuf.chain_bytes r) in *.
  rewrite len_app in *.
  pose proof (len_nonneg (IOBuf.data b)).
  pose proof (len_nonneg (IOBuf.chain_bytes r)).
  cbn [IOBuf.computeChainDataLength]. rewrite IH by lia.
  unfold IOBuf.length. apply wrap64_small. lia.
Qed.

Lemma write_nonnull (bs : list byte) (c c' : t) :
  write bs c = Some c' -> head_ c' <> [].
Proof.
  unfold write. destruct (makeRoomForWrite (len bs) c) as [c1|];
    [|discriminate].
  cbn [obind]. unfold write_tail.
  destruct (IOBuf.last (head_ c1)) as [b|] eqn:El; [|discriminate].
  cbn [obind]. destruct (IOBuf.write_tail bs b) as [b'|]; [|discriminate].
  cbn [obind]. intros [= <-]. cbn [head_].
  destruct (CordFacts.snoc_cases (head_ c1)) as [E|(l & b0 & E)].
  - rewrite E in El. discriminate.
  - rewrite E, CordFacts.on_last_snoc. now destruct l.
Qed.

Lemma appends_nonnull (l : list Append) (c c' : t) :
  appends l c = Some c' -> head_ c <> [] \/ l <> [] -> head_ c' <> [].
Proof.
  revert c. induction l as [|a l IH]; intros c H Hor.
  - cbn in H. injection H as <-. destruct Hor; congruence.
  - cbn [appends] in H. rewrite CordFacts.append_is_write in H.
    destruct (write (bytes_of a) c) as [c1|] eqn:Ew; [|discriminate].
    cbn [obind] in H. apply (IH c1 H). left.
    now apply write_nonnull in Ew.
Qed.

(** X1. The invariant that [size()] asserts is kept: after any sequence of
    appends on [Cord()] or [Cord(reserve)], the cached [size_] is the data
    length of the chain as [computeChainDataLength()] counts it, the head is
    null only when nothing was reserved or appended (and then the size is 0),
    and the data of every segment lies within its buffer. *)
Theorem cord_invariant_kept (reserve : option Z) (l : list Append) :
  0 <= reserved reserve ->
  reserved reserve + len (concat (map bytes_of l)) < 2 ^ 60 ->
  exists c0 c,
    construct reserve = Some c0 /\
    appends l c0 = Some c /\
    size_ c = IOBuf.computeChainDataLength (head_ c) /\
    (head_ c <> [] \/ size_ c = 0) /\
    (head_ c = [] <-> reserve = None /\ l = []) /\
    Forall IOBuf.within (head_ c).
Proof.
  intros Hr Hbound.
  pose proof (len_nonneg (concat (map bytes_of l))) as Hl.
  destruct (CordFacts.construct_spec reserve)
    as (c0 & Hc0 & Hinv0 & Hcont0 & Hs0); [lia|].
  destruct (CordFacts.appends_spec (reserved reserve + 255 + 2 ^ 19) l
              ltac:(lia) c0 Hinv0) as (c & Hrun & Hinv & Hc).
  { rewrite Hs0. lia. }
  rewrite Hcont0 in Hc. cbn [app] in Hc.
  destruct Hinv as (Hsz & Hok & _).
  exists c0, c. split; [exact Hc0|]. split; [exact Hrun|].
  assert (Hnull : head_ c = [] <-> reserve = None /\ l = []).
  { split.
    - intros Hn. destruct reserve as [r|].
      + exfalso. cbn in Hc0. injection Hc0 as <-.
        apply (appends_nonnull l _ c Hrun); [left; discriminate|exact Hn].
      + split; [reflexivity|]. destruct l as [|a l]; [reflexivity|].
        exfalso. apply (appends_nonnull (a :: l) c0 c Hrun);
          [right; discriminate|exact Hn].
    - intros [-> ->]. cbn in Hc0. injection Hc0 as <-.
      cbn in Hrun. now injection Hrun as <-. }
  split; [|split; [|split; [exact Hnull|]]].
  - rewrite computeChainDataLength_exact; [exact Hsz|].
    fold (content c). rewrite Hc. lia.
  - destruct (head_ c) as [|b r] eqn:E; [right|left; discriminate].
    rewrite Hsz. reflexivity.
  - eapply Forall_impl; [|exact Hok]. intros b Hb. apply Hb.
Qed.

Lemma cord_invariant_kept_witness :
  exists c0 c,
    construct (Some 10) = Some c0 /\
    appends four_branches c0 = Some c /\
    size_ c = IOBuf.computeChainDataLength (head_ c) /\
    head_ c <> [].
Proof.
  destruct (cord_invariant_kept (Some 10) four_branches)
    as (c0 & c & H0 & Hrun & Hsz & _ & Hnull & _).
  - vm_compute. discriminate.
  - vm_compute. reflexivity.
  - exists c0, c. repeat split; try assumption.
    intros Hn. apply Hnull in Hn. destruct Hn as [Hn _]. discriminate.
Defined.

(** ** Visiting *)

Lemma visit_chain_probing (p : list byte -> bool) (ch : list IOBuf.t)
    (seen : list (list byte)) :
  visit_chain (probing p) ch seen
  = (forallb p (map IOBuf.data ch),
     seen ++ upto_refusal p (map IOBuf.data ch)).
Proof.
  revert seen. induction ch as [|b r IH]; intros seen.
  - cbn. now rewrite app_nil_r.
  - cbn [visit_chain map forallb upto_refusal]. unfold probing at 1.
    destruct (p (IOBuf.data b)).
    + rewrite IH, <- app_assoc. reflexivity.
    + reflexivity.
Qed.

(** X2. [apply] hands the segments to the visitor in chain order and stops
    at the first one the visitor refuses: it answers whether every segment
    was accepted, and the visitor has seen the segments up to and including
    the first refused one.  On a cord of size 0 the visitor is not called at
    all, whatever segments the chain has. *)
Theorem apply_stops_at_refusal (p : list byte -> bool) (c : t) :
  size_ c = len (content c) ->
  let vs := map IOBuf.data (head_ c) in
  apply (probing p) c []
  = Some (if empty c then (true, [])
          else (forallb p vs, upto_refusal p vs)).
Proof.
  intros Hsz vs. unfold apply, empty, size.
  destruct (Z.eqb_spec (size_ c) 0) as [H0|Hnz]; [reflexivity|].
  destruct (head_ c) as [|b r] eqn:E.
  - exfalso. apply Hnz. rewrite Hsz. unfold content. now rewrite E.
  - subst vs. rewrite visit_chain_probing. reflexivity.
Qed.

Lemma apply_stops_at_refusal_witness :
  apply (probing (fun buf => len buf <? 2))
        (mk 5 [IOBuf.mk 8 0 [x61]; IOBuf.mk 8 0 [x62; x63];
               IOBuf.mk 8 0 [x64; x65]]) []
  = Some (false, [[x61]; [x62; x63]]).
Proof.
  rewrite (apply_stops_at_refusal (fun buf => len buf <? 2)); reflexivity.
Defined.

(** ** The header *)

Lemma last_app_nonnull (h ch : list IOBuf.t) :
  ch <> [] -> IOBuf.last (h ++ ch) = IOBuf.last ch.
Proof.
  intros Hne. induction h as [|x h IH]; [reflexivity|].
  cbn [app IOBuf.last]. destruct (h ++ ch) eqn:E; [|exact IH].
  destruct h; [cbn in E; congruence|discriminate].
Qed.

(** X3. [prependHeader(header)] puts the header's segments before the
    chain: the content becomes the header's bytes followed by the old
    content, the size grows by the header's data length and stays the
    chain's data length, and the segment that later appends write to stays
    the old tail whenever there was one. *)
Theorem prependHeader_content (h : list IOBuf.t) (c : t) :
  h <> [] ->
  size_ c = len (content c) ->
  len (IOBuf.chain_bytes h) + size_ c < 2 ^ 64 ->
  let c' := prependHeader h c in
  head_ c' = h ++ head_ c /\
  content c' = IOBuf.chain_bytes h ++ content c /\
  size_ c' = len (IOBuf.chain_bytes h) + size_ c /\
  size_ c' = len (content c') /\
  str c' = Some (IOBuf.chain_bytes h ++ content c) /\
  (head_ c <> [] -> IOBuf.last (head_ c') = IOBuf.last (head_ c)).
Proof.
  intros Hh Hsz Hbound c'.
  pose proof (len_nonneg (IOBuf.chain_bytes h)) as Hh0.
  assert (Hs0 : 0 <= size_ c) by (rewrite Hsz; apply len_nonneg).
  assert (Hhead : head_ c' = h ++ head_ c).
  { subst c'. unfold prependHeader.
    destruct (head_ c); [now rewrite app_nil_r|reflexivity]. }
  assert (Hsize : size_ c' = len (IOBuf.chain_bytes h) + size_ c).
  { subst c'. unfold prependHeader.
    rewrite computeChainDataLength_exact by lia.
    destruct (head_ c) as [|x xs] eqn:E; cbn [size_].
    - unfold content in Hsz. rewrite E in Hsz.
      change (len (IOBuf.chain_bytes [])) with 0 in Hsz. lia.
    - rewrite wrap64_small by lia. lia. }
  assert (Hcontent : content c' = IOBuf.chain_bytes h ++ content c).
  { unfold content. rewrite Hhead. apply CordFacts.chain_bytes_app. }
  assert (Hinv : size_ c' = len (content c')).
  { rewrite Hsize, Hcontent, len_app, Hsz. reflexivity. }
  split; [exact Hhead|]. split; [exact Hcontent|]. split; [exact Hsize|].
  split; [exact Hinv|]. split.
  - unfold str. rewrite (CordFacts.appendTo_sized c' []) by exact Hinv.
    cbn [obind fst app]. now rewrite Hcontent.
  - intros Hne. rewrite Hhead. now apply last_app_nonnull.
Qed.

Lemma prependHeader_content_witness :
  str (prependHeader [IOBuf.mk 13 10 [x01; x02]] cord_cde)
  = Some [x01; x02; x63; x64; x65].
Proof.
  destruct (prependHeader_content [IOBuf.mk 13 10 [x01; x02]] cord_cde)
    as (_ & _ & _ & _ & H & _).
  - discriminate.
  - reflexivity.
  - vm_compute. reflexivity.
  - exact H.
Defined.

(** ** Rounding and room *)

(** X4. [alignedSize] rounds up to the next multiple of 256: for a size up
    to [2^64 - 256] the result is the least multiple of 256 that is at least
    the size, and it is a fixed point of the rounding; for a size within 255
    of the top of [size_t] the addition wraps and the result is 0. *)
Theorem alignedSize_rounds_up (s : Z) :
  0 <= s < 2 ^ 64 ->
  (s <= 2 ^ 64 - 256 ->
     s <= alignedSize s < s + 256 /\
     alignedSize s mod 256 = 0 /\
     (forall m, m mod 256 = 0 -> s <= m -> alignedSize s <= m) /\
     alignedSize (alignedSize s) = alignedSize s) /\
  (2 ^ 64 - 256 < s -> alignedSize s = 0).
Proof.
  intros Hs. split.
  - intros Hle.
    rewrite !CordFacts.alignedSize_eq by lia.
    assert (Hal : s <= 256 * ((s + 255) / 256) < s + 256)
      by (Z.div_mod_to_equations; lia).
    split; [exact Hal|]. split; [|split].
    + rewrite Z.mul_comm. apply Z.mod_mul. lia.
    + intros m Hm Hsm. Z.div_mod_to_equations. lia.
    + rewrite CordFacts.alignedSize_eq by (Z.div_mod_to_equations; lia).
      Z.div_mod_to_equations. lia.
  - intros Hgt. unfold alignedSize, kBufferAlignment.
    replace (s + 256 - 1) with (s + 255) by lia.
    change (wrap64 (Z.lnot (256 - 1))) with (2 ^ 64 - 256).
    assert (Hw : 0 <= wrap64 (s + 255) < 256).
    { unfold wrap64. Z.div_mod_to_equations. lia. }
    rewrite land_align by lia.
    rewrite Z.div_small by lia. reflexivity.
Qed.

Lemma alignedSize_rounds_up_witness :
  alignedSize 257 = 512 /\ alignedSize (2 ^ 64 - 1) = 0.
Proof.
  split.
  - destruct (alignedSize_rounds_up 257 ltac:(lia)) as [_ _].
    vm_compute. reflexivity.
  - apply (alignedSize_rounds_up (2 ^ 64 - 1)); lia.
Defined.

(** X5. [makeRoomForWrite(n)] on a cord built by appends always returns; it
    leaves the content and the size as they were and a tail with at least
    [n] free bytes, so that a second request for [n] bytes or fewer changes
    nothing. *)
Theorem makeRoomForWrite_contract (reserve : option Z) (l : list Append)
    (n : Z) :
  0 <= reserved reserve -> 0 <= n ->
  reserved reserve + len (concat (map bytes_of l)) + n < 2 ^ 60 ->
  exists c0 c c1 b,
    construct reserve = Some c0 /\
    appends l c0 = Some c /\
    makeRoomForWrite n c = Some c1 /\
    content c1 = content c /\
    size_ c1 = size_ c /\
    IOBuf.last (head_ c1) = Some b /\
    n <= IOBuf.tailroom b /\
    (forall m, m <= n -> makeRoomForWrite m c1 = Some c1).
Proof.
  intros Hr Hn Hbound.
  pose proof (len_nonneg (concat (map bytes_of l))) as Hl.
  destruct (CordFacts.construct_spec reserve)
    as (c0 & Hc0 & Hinv0 & Hcont0 & Hs0); [lia|].
  destruct (CordFacts.appends_spec (reserved reserve + 255 + 2 ^ 19) l
              ltac:(lia) c0 Hinv0) as (c & Hrun & Hinv & Hc).
  { rewrite Hs0. lia. }
  rewrite Hcont0 in Hc. cbn [app] in Hc.
  assert (Hsz : size_ c = len (concat (map bytes_of l))).
  { destruct Hinv as (Hsz & _). rewrite Hsz. fold (content c). now rewrite Hc. }
  destruct (CordFacts.makeRoomForWrite_spec _ c n Hinv ltac:(lia) Hn)
    as (c1 & b & Hmk & Hs1 & Hc1 & Hlast & Hroom & _).
  { rewrite Hsz. lia. }
  exists c0, c, c1, b.
  split; [exact Hc0|]. split; [exact Hrun|]. split; [exact Hmk|].
  split; [exact Hc1|]. split; [exact Hs1|]. split; [exact Hlast|].
  split; [exact Hroom|].
  intros m Hm. unfold makeRoomForWrite.
  destruct (head_ c1) as [|x xs] eqn:E; [discriminate|].
  rewrite Hlast. cbn [obind].
  destruct (Z.leb_spec m (IOBuf.tailroom b)); [reflexivity|lia].
Qed.

Lemma makeRoomForWrite_contract_witness :
  exists c1 b,
    makeRoomForWrite 1000 cord_ab = Some c1 /\
    content c1 = content cord_ab /\
    IOBuf.last (head_ c1) = Some b /\
    1000 <= IOBuf.tailroom b.
Proof.
  destruct (makeRoomForWrite_contract None [ABytes [x61; x62]] 1000)
    as (c0 & c & c1 & b & H0 & Hrun & Hmk & Hc & _ & Hl & Hroom & _).
  - vm_compute. discriminate.
  - lia.
  - vm_compute. reflexivity.
  - cbn in H0. injection H0 as <-.
    assert (Hc' : Some c = Some cord_ab)
      by (rewrite <- Hrun; vm_compute; reflexivity).
    injection Hc' as ->.
    exists c1, b. repeat split; assumption.
Defined.

(** ** Concatenation, then more appends *)

Lemma append_cord_inv (M : Z) (a b : t) :
  inv M a -> size_ b = len (content b) -> head_ a <> [] ->
  0 <= M -> 2 * (size_ a + size_ b) + M < 2 ^ 62 ->
  exists c,
    append_cord b a = Some c /\ inv M c /\
    content c = content a ++ content b.
Proof.
  intros (Hsz & Hok & Hcap) Hb Hhead HM Hbound.
  assert (Ha0 : 0 <= size_ a) by (rewrite Hsz; apply len_nonneg).
  assert (Hb0 : 0 <= size_ b) by (rewrite Hb; apply len_nonneg).
  unfold append_cord, size.
  destruct (Z.eqb_spec (size_ b) 0) as [E0|Hnz].
  - exists a. split; [reflexivity|]. split; [repeat split; assumption|].
    rewrite E0 in Hb. symmetry in Hb.
    now rewrite (CordFacts.len_zero_nil _ Hb), app_nil_r.
  - unfold apply, empty, size.
    destruct (Z.eqb_spec (size_ b) 0); [contradiction|].
    destruct (head_ b) as [|x xs] eqn:E.
    { exfalso. apply Hnz. rewrite Hb. unfold content. now rewrite E. }
    rewrite <- E. rewrite CordFacts.visit_copy.
    2:{ unfold IOBuf.create, IOBuf.length, content in *.
        cbn [IOBuf.capacity IOBuf.headroom IOBuf.data].
        change (len []) with 0. lia. }
    cbn [obind snd]. unfold IOBuf.create.
    cbn [IOBuf.capacity IOBuf.headroom IOBuf.data].
    change ([] ++ IOBuf.chain_bytes (head_ b)) with (content b).
    destruct (head_ a) as [|y ys] eqn:Ea; [contradiction|].
    rewrite <- Ea in *.
    eexists. split; [reflexivity|].
    assert (Hcontent : IOBuf.chain_bytes
                         (head_ a ++ [IOBuf.mk (size_ b) 0 (content b)])
                       = content a ++ content b).
    { now rewrite CordFacts.chain_bytes_snoc. }
    split; [|exact Hcontent].
    split; [|split]; cbn [size_ head_].
    + rewrite Hcontent, len_app, wrap64_small by lia.
      rewrite <- Hb. unfold content. rewrite <- Hsz. reflexivity.
    + apply CordFacts.Forall_snoc. split; [exact Hok|].
      unfold seg_ok, IOBuf.within, IOBuf.length.
      cbn [IOBuf.capacity IOBuf.headroom IOBuf.data]. lia.
    + intros b1. rewrite CordFacts.last_snoc. intros [= <-].
      cbn [IOBuf.capacity]. rewrite wrap64_small by lia. lia.
Qed.

(** X6. Concatenation composes with appends: for cords built by appends
    (the left one by at least one, so that it owns a segment),
    [a << b] followed by more appends returns, and the outcome reads as the
    bytes of [a], then those of [b], then the later bytes; [size()] is their
    number. *)
Theorem concat_then_append (la lb l : list Append) :
  la <> [] ->
  len (concat (map bytes_of la)) + len (concat (map bytes_of lb))
    + len (concat (map bytes_of l)) < 2 ^ 60 ->
  exists a b c c',
    appends la empty_cord = Some a /\
    appends lb empty_cord = Some b /\
    append_cord b a = Some c /\
    appends l c = Some c' /\
    str c' = Some (concat (map bytes_of la) ++ concat (map bytes_of lb)
                   ++ concat (map bytes_of l)) /\
    size c' = len (concat (map bytes_of la)) + len (concat (map bytes_of lb))
              + len (concat (map bytes_of l)).
Proof.
  intros Hla Hbound.
  pose proof (len_nonneg (concat (map bytes_of la))).
  pose proof (len_nonneg (concat (map bytes_of lb))).
  pose proof (len_nonneg (concat (map bytes_of l))).
  pose proof (CordFacts.inv_empty_cord (2 ^ 19) ltac:(lia)) as Hinv0.
  destruct (CordFacts.appends_spec (2 ^ 19) la ltac:(lia) empty_cord Hinv0)
    as (a & Ha & Hinva & Hca); [cbn [size_ empty_cord]; lia|].
  destruct (CordFacts.appends_spec (2 ^ 19) lb ltac:(lia) empty_cord Hinv0)
    as (b & Hb & Hinvb & Hcb); [cbn [size_ empty_cord]; lia|].
  cbn [content empty_cord head_ IOBuf.chain_bytes map concat app] in Hca, Hcb.
  assert (Hsa : size_ a = len (concat (map bytes_of la))).
  { destruct Hinva as (Hs & _). rewrite Hs. fold (content a). now rewrite Hca. }
  assert (Hsb : size_ b = len (concat (map bytes_of lb))).
  { destruct Hinvb as (Hs & _). rewrite Hs. fold (content b). now rewrite Hcb. }
  destruct (append_cord_inv (2 ^ 19) a b Hinva) as (c & Hcat & Hinvc & Hcc).
  - destruct Hinvb as (Hs & _). exact Hs.
  - apply (appends_nonnull la empty_cord a Ha). now right.
  - lia.
  - lia.
  - assert (Hsc : size_ c = size_ a + size_ b).
    { destruct Hinvc as (Hs & _). rewrite Hs. fold (content c).
      rewrite Hcc, len_app, Hca, Hcb. lia. }
    destruct (CordFacts.appends_spec (2 ^ 19) l ltac:(lia) c Hinvc)
      as (c' & Hrun & Hinv' & Hc'); [lia|].
    exists a, b, c, c'.
    split; [exact Ha|]. split; [exact Hb|]. split; [exact Hcat|].
    split; [exact Hrun|].
    rewrite Hcc, Hca, Hcb, <- app_assoc in Hc'.
    split.
    + unfold str. rewrite (CordFacts.appendTo_spec _ c' [] Hinv').
      cbn [obind fst app]. now rewrite Hc'.
    + unfold size. destruct Hinv' as (Hs & _). rewrite Hs. fold (content c').
      rewrite Hc', !len_app. lia.
Qed.

Lemma concat_then_append_witness :
  exists a b c c',
    appends [ABytes [x61; x62]] empty_cord = Some a /\
    appends [ABytes [x63; x64; x65]] empty_cord = Some b /\
    append_cord b a = Some c /\
    appends [AScalar 1 33] c = Some c' /\
    str c' = Some [x61; x62; x63; x64; x65; x21].
Proof.
  destruct (concat_then_append [ABytes [x61; x62]] [ABytes [x63; x64; x65]]
              [AScalar 1 33])
    as (a & b & c & c' & Ha & Hb & Hc & Hrun & Hstr & _).
  - discriminate.
  - vm_compute. reflexivity.
  - exists a, b, c, c'. repeat split; assumption.
Defined.

(** ** Moving the chain out *)

(** The cached size takes no part in the growth of the chain: it is only
    added to. *)
Lemma makeRoomForWrite_oversized (k n : Z) (c : t) :
  makeRoomForWrite n (oversized k c)
  = c1 <- makeRoomForWrite n c ;; Some (oversized k c1).
Proof.
  destruct c as [sz hd].
  unfold makeRoomForWrite, makeRoomForWriteSlow, oversized.
  cbn [head_ size_].
  destruct hd as [|b0 r]; [reflexivity|].
  destruct (IOBuf.last (b0 :: r)) as [b|]; [|reflexivity]. cbn [obind].
  destruct (n <=? IOBuf.tailroom b); [reflexivity|].
  destruct (IOBuf.length b <=? IOBuf.capacity b / 2); reflexivity.
Qed.

Lemma makeRoomForWrite_size (n : Z) (c c1 : t) :
  makeRoomForWrite n c = Some c1 -> size_ c1 = size_ c.
Proof.
  destruct c as [sz hd].
  unfold makeRoomForWrite, makeRoomForWriteSlow. cbn [head_ size_].
  destruct hd as [|b0 r]; [now intros [= <-]|].
  destruct (IOBuf.last (b0 :: r)) as [b|]; [|discriminate]. cbn [obind].
  destruct (n <=? IOBuf.tailroom b); [now intros [= <-]|].
  destruct (IOBuf.length b <=? IOBuf.capacity b / 2); now intros [= <-].
Qed.

Lemma write_oversized (k : Z) (bs : list byte) (c : t) :
  0 <= k -> 0 <= size_ c -> size_ c + len bs + k < 2 ^ 64 ->
  write bs (oversized k c) = c1 <- write bs c ;; Some (oversized k c1).
Proof.
  intros Hk Hs Hb. unfold write. rewrite makeRoomForWrite_oversized.
  destruct (makeRoomForWrite (len bs) c) as [c1|] eqn:E; [|reflexivity].
  cbn [obind]. apply makeRoomForWrite_size in E.
  unfold write_tail, oversized. cbn [head_ size_].
  destruct (IOBuf.last (head_ c1)) as [b|]; [|reflexivity]. cbn [obind].
  destruct (IOBuf.write_tail bs b) as [b'|]; [|reflexivity].
  cbn [obind head_ size_].
  pose proof (len_nonneg bs). rewrite E, !wrap64_small by lia.
  do 2 f_equal. lia.
Qed.

Lemma appends_oversized (M k : Z) (l : list Append) :
  2 ^ 19 <= M -> 0 <= k ->
  forall c,
    inv M c ->
    2 * (size_ c + len (concat (map bytes_of l))) + M + k < 2 ^ 62 ->
    exists c',
      appends l c = Some c' /\
      appends l (oversized k c) = Some (oversized k c') /\
      inv M c' /\
      content c' = content c ++ concat (map bytes_of l).
Proof.
  intros HM Hk. induction l as [|a l IH]; intros c Hinv Hbound.
  - exists c. cbn. now rewrite app_nil_r.
  - cbn [map concat] in Hbound. rewrite len_app in Hbound.
    pose proof (len_nonneg (bytes_of a)).
    pose proof (len_nonneg (concat (map bytes_of l))).
    assert (Hs0 : 0 <= size_ c).
    { destruct Hinv as (-> & _). apply len_nonneg. }
    destruct (CordFacts.write_spec M c (bytes_of a) Hinv HM ltac:(lia))
      as (c1 & Hw & Hinv1 & Hc1 & Hs1 & _).
    destruct (IH c1 Hinv1 ltac:(lia)) as (c' & Hrun & Hover & Hinv' & Hc').
    exists c'. cbn [appends]. rewrite !CordFacts.append_is_write.
    rewrite write_oversized, Hw by lia. cbn [obind].
    split; [exact Hrun|]. split; [exact Hover|]. split; [exact Hinv'|].
    rewrite Hc', Hc1, <- app_assoc. reflexivity.
Qed.

(** X18. [move()] hands the chain over but keeps the cached size.  After
    [move()] on a cord that holds bytes, the cord has no chain while
    [size()] still answers the old size, against the assertion in [size()];
    [str()] then dereferences the null head.  Appends made after the move
    start a new chain that holds only the new bytes, while [size()] counts
    the moved bytes as well; after [clear()] the cord is empty again and
    appends behave as on a new cord. *)
Theorem move_keeps_size (l l' : list Append) :
  0 < len (concat (map bytes_of l)) ->
  len (concat (map bytes_of l)) + len (concat (map bytes_of l')) < 2 ^ 60 ->
  exists c c2 c3,
    appends l empty_cord = Some c /\
    IOBuf.chain_bytes (fst (move c)) = concat (map bytes_of l) /\
    head_ (snd (move c)) = [] /\
    size (snd (move c)) = len (concat (map bytes_of l)) /\
    str (snd (move c)) = None /\
    appends l' (snd (move c)) = Some c2 /\
    content c2 = concat (map bytes_of l') /\
    size c2 = len (concat (map bytes_of l)) + len (concat (map bytes_of l')) /\
    appends l' (clear (snd (move c))) = Some c3 /\
    content c3 = concat (map bytes_of l') /\
    size c3 = len (content c3).
Proof.
  intros Hpos Hbound.
  pose proof (len_nonneg (concat (map bytes_of l'))) as Hl'.
  pose proof (CordFacts.inv_empty_cord (2 ^ 19) ltac:(lia)) as Hinv0.
  destruct (CordFacts.appends_spec (2 ^ 19) l ltac:(lia) empty_cord Hinv0)
    as (c & Hrun & Hinv & Hc).
  { cbn [size_ empty_cord]. lia. }
  cbn [content empty_cord head_ IOBuf.chain_bytes map concat app] in Hc.
  assert (Hsz : size_ c = len (concat (map bytes_of l))).
  { destruct Hinv as (-> & _). fold (content c). now rewrite Hc. }
  destruct (appends_oversized (2 ^ 19) (size_ c) l' ltac:(lia) ltac:(lia)
              empty_cord Hinv0)
    as (c3 & Hrun3 & Hover & Hinv3 & Hc3).
  { cbn [size_ empty_cord]. lia. }
  cbn [content empty_cord head_ IOBuf.chain_bytes map concat app] in Hc3.
  assert (Hs3 : size_ c3 = len (content c3)) by apply Hinv3.
  exists c, (oversized (size_ c) c3), c3.
  split; [exact Hrun|].
  unfold move. cbn [fst snd head_].
  split; [exact Hc|]. split; [reflexivity|].
  split; [exact Hsz|]. split.
  - unfold str, appendTo, apply, empty, size. cbn [size_ head_].
    destruct (Z.eqb_spec (size_ c) 0); [lia|reflexivity].
  - split; [exact Hover|].
    split; [exact Hc3|].
    split; [unfold size, oversized; cbn [size_]; rewrite Hs3, Hc3; lia|].
    split; [exact Hrun3|]. split; [exact Hc3|exact Hs3].
Qed.

Lemma move_keeps_size_witness :
  exists c c2,
    appends [ABytes [x61; x62]] empty_cord = Some c /\
    appends [ABytes [x63]] (snd (move c)) = Some c2 /\
    content c2 = [x63] /\
    size c2 = 3.
Proof.
  destruct (move_keeps_size [ABytes [x61; x62]] [ABytes [x63]])
    as (c & c2 & c3 & Hrun & _ & _ & _ & _ & Hrun2 & Hc2 & Hs2 & _).
  - vm_compute. reflexivity.
  - vm_compute. reflexivity.
  - exists c, c2. repeat split; assumption.
Defined.

End CordExtra.

(** ** RowWriter *)
Module RowWriterExtra.
Import RowWriter.

Lemma set_colNum_twice (k1 k2 : Z) (w : t) :
  set_colNum k2 (set_colNum k1 w) = set_colNum k2 w.
Proof. reflexivity. Qed.

Lemma set_colNum_same (w : t) (k : Z) : k = colNum_ w -> set_colNum k w = w.
Proof. intros ->. now destruct w. Qed.

Lemma record_offset_set_colNum (k i : Z) (w : t) :
  record_offset i (set_colNum k w) = set_colNum k (record_offset i w).
Proof.
  unfold record_offset.
  destruct (negb (i =? 0) && block_start i); reflexivity.
Qed.

Lemma emit_set_colNum (k : Z) (bs : list byte) (w : t) :
  emit bs (set_colNum k w) = w1 <- emit bs w ;; Some (set_colNum k w1).
Proof.
  unfold emit. cbn [cord_ set_colNum].
  destruct (Cord.write bs (cord_ w)); reflexivity.
Qed.

Lemma emit_frame (bs : list byte) (w w1 : t) :
  emit bs w = Some w1 ->
  schema_ w1 = schema_ w /\ colNum_ w1 = colNum_ w /\
  schemaWriter_ w1 = schemaWriter_ w /\ encoded_ w1 = encoded_ w.
Proof.
  unfold emit. destruct (Cord.write bs (cord_ w)); [|discriminate].
  cbn [obind]. intros [= <-]. cbn. auto.
Qed.

Section Skipping.

Variable writeIntBytes : Z -> list byte.

Local Abbreviation encode := (RowWriter.encode writeIntBytes).
Local Abbreviation skip := (RowWriter.skip writeIntBytes).
Local Abbreviation skip_loop := (RowWriter.skip_loop writeIntBytes).
Local Abbreviation skip_field := (RowWriter.skip_field writeIntBytes).
Local Abbreviation pad := (RowWriter.pad writeIntBytes).
Local Abbreviation encodeToIOBuf := (RowWriter.encodeToIOBuf writeIntBytes).

(** The loop body of [Skip] is one [emit] of the field's default, followed
    by the offset bookkeeping; it is fatal on a type without encoding. *)
Lemma skip_field_emit (i : Z) (w : t) :
  skip_field i w
  = (ty <- getFieldType (schema_ w) i ;;
     d <- RowWriter.default_bytes writeIntBytes ty ;;
     w1 <- emit d w ;;
     Some (record_offset i w1)).
Proof.
  unfold RowWriter.skip_field.
  destruct (getFieldType (schema_ w) i) as [ty|]; [|reflexivity].
  cbn [obind].
  destruct ty; cbn [RowWriter.default_bytes obind];
    rewrite ?RowWriterFacts.put_emit, ?RowWriterFacts.writeInt_emit;
    reflexivity.
Qed.

Lemma skip_field_set_colNum (k i : Z) (w : t) :
  skip_field i (set_colNum k w)
  = w1 <- skip_field i w ;; Some (set_colNum k w1).
Proof.
  rewrite !skip_field_emit. cbn [schema_ set_colNum].
  destruct (getFieldType (schema_ w) i) as [ty|]; [|reflexivity].
  cbn [obind].
  destruct (RowWriter.default_bytes writeIntBytes ty) as [d|]; [|reflexivity].
  cbn [obind]. rewrite emit_set_colNum.
  destruct (emit d w) as [w1|]; [|reflexivity].
  cbn [obind]. now rewrite record_offset_set_colNum.
Qed.

Lemma skip_field_frame (i : Z) (w w1 : t) :
  skip_field i w = Some w1 ->
  schema_ w1 = schema_ w /\ colNum_ w1 = colNum_ w /\
  schemaWriter_ w1 = schemaWriter_ w /\ encoded_ w1 = encoded_ w.
Proof.
  rewrite skip_field_emit.
  destruct (getFieldType (schema_ w) i) as [ty|]; [|discriminate].
  cbn [obind].
  destruct (RowWriter.default_bytes writeIntBytes ty) as [d|]; [|discriminate].
  cbn [obind]. destruct (emit d w) as [w0|] eqn:E; [|discriminate].
  cbn [obind]. intros [= <-]. apply emit_frame in E.
  unfold record_offset.
  destruct (negb (i =? 0) && block_start i); cbn; exact E.
Qed.

Lemma skip_loop_set_colNum (k : Z) (n : nat) :
  forall (i : Z) (w : t),
    skip_loop n i (set_colNum k w)
    = w1 <- skip_loop n i w ;; Some (set_colNum k w1).
Proof.
  induction n as [|n IH]; intros i w; [reflexivity|].
  cbn [RowWriter.skip_loop]. rewrite skip_field_set_colNum.
  destruct (skip_field i w) as [w1|]; [|reflexivity].
  cbn [obind]. apply IH.
Qed.

Lemma skip_loop_frame (n : nat) :
  forall (i : Z) (w w1 : t),
    skip_loop n i w = Some w1 ->
    schema_ w1 = schema_ w /\ colNum_ w1 = colNum_ w /\
    schemaWriter_ w1 = schemaWriter_ w /\ encoded_ w1 = encoded_ w.
Proof.
  induction n as [|n IH]; intros i w w1 H.
  - cbn in H. injection H as <-. auto.
  - cbn [RowWriter.skip_loop] in H.
    destruct (skip_field i w) as [w0|] eqn:E; [|discriminate].
    cbn [obind] in H. apply skip_field_frame in E. apply IH in H.
    intuition congruence.
Qed.

(** A loop of [n + m] rounds is a loop of [n] rounds, then one of [m]. *)
Lemma skip_loop_app (n m : nat) :
  forall (i : Z) (w : t),
    0 <= i -> i + Z.of_nat n < 2 ^ 31 ->
    skip_loop (n + m) i w
    = w1 <- skip_loop n i w ;; skip_loop m (i + Z.of_nat n) w1.
Proof.
  induction n as [|n IH]; intros i w Hi Hb.
  - cbn [Nat.add RowWriter.skip_loop obind]. now rewrite Z.add_0_r.
  - cbn [Nat.add RowWriter.skip_loop].
    destruct (skip_field i w) as [w1|]; [|reflexivity].
    cbn [obind]. rewrite to_int32_small by lia.
    rewrite IH by lia. replace (i + 1 + Z.of_nat n) with (i + Z.of_nat (S n))
      by lia.
    reflexivity.
Qed.

(** [Skip(n)] for a positive count within a schema: a loop over the fields
    from the column index to the lesser of the index plus [n] and the field
    count, then the column index set to that bound. *)
Lemma skip_unfold (n : Z) (w : t) :
  0 <= colNum_ w <= getNumFields (schema_ w) ->
  getNumFields (schema_ w) < 2 ^ 31 ->
  0 < n < 2 ^ 62 ->
  let k := Z.min n (getNumFields (schema_ w) - colNum_ w) in
  skip n w
  = w1 <- skip_loop (Z.to_nat k) (colNum_ w) w ;;
    Some (set_colNum (colNum_ w + k) w1).
Proof.
  intros Hc HN Hn k. unfold RowWriter.skip.
  destruct (Z.leb_spec n 0); [lia|].
  rewrite (to_int64_small (colNum_ w + n)) by lia.
  replace (Z.min (colNum_ w + n) (getNumFields (schema_ w)))
    with (colNum_ w + k) by lia.
  rewrite !to_int32_small by lia.
  replace (colNum_ w + k - colNum_ w) with k by lia.
  reflexivity.
Qed.

(** X7. [Skip] never moves past the schema's end.  A count that is not
    positive changes nothing, and so does any count once every field is
    written; a count of at least the fields left acts as the count of the
    fields left; and whenever [Skip(n)] returns for a positive [n], the
    column index is the lesser of the old index plus [n] and the field
    count, and the schema, the mode and the encoded flag are untouched. *)
Theorem skip_clamps (n : Z) (w : t) :
  0 <= colNum_ w <= getNumFields (schema_ w) ->
  getNumFields (schema_ w) < 2 ^ 31 ->
  n < 2 ^ 62 ->
  let left := getNumFields (schema_ w) - colNum_ w in
  (n <= 0 -> skip n w = Some w) /\
  (left = 0 -> skip n w = Some w) /\
  (0 < left <= n -> skip n w = skip left w) /\
  (forall w', 0 < n -> skip n w = Some w' ->
              colNum_ w' = Z.min (colNum_ w + n) (getNumFields (schema_ w)) /\
              schema_ w' = schema_ w /\
              schemaWriter_ w' = schemaWriter_ w /\
              encoded_ w' = encoded_ w).
Proof.
  intros Hc HN Hn left.
  assert (Hzero : n <= 0 -> skip n w = Some w).
  { intros H0. unfold RowWriter.skip.
    destruct (Z.leb_spec n 0); [reflexivity|lia]. }
  split; [exact Hzero|]. split; [|split].
  - intros Hl. destruct (Z_le_gt_dec n 0) as [H0|Hpos]; [now apply Hzero|].
    rewrite skip_unfold by lia. cbv zeta. fold left.
    rewrite Hl, Z.min_r by lia. cbn [Z.to_nat RowWriter.skip_loop obind].
    f_equal. apply set_colNum_same. lia.
  - intros Hl. rewrite (skip_unfold n), (skip_unfold left) by (fold left; lia).
    cbv zeta. fold left. now rewrite Z.min_r, Z.min_id by lia.
  - intros w' Hpos H. rewrite skip_unfold in H by lia. cbv zeta in H.
    fold left in H.
    destruct (skip_loop (Z.to_nat (Z.min n left)) (colNum_ w) w) as [w1|] eqn:E;
      [|discriminate].
    cbn [obind] in H. injection H as <-.
    apply skip_loop_frame in E. cbn [colNum_ schema_ schemaWriter_ encoded_
                                     set_colNum].
    split; [subst left; lia|]. tauto.
Qed.

(** X8. Skips add up: [Skip(a)] followed by [Skip(b)] is [Skip(a + b)],
    in the writer it leaves and in whether it returns at all. *)
Theorem skip_skip (a b : Z) (w : t) :
  0 <= colNum_ w <= getNumFields (schema_ w) ->
  getNumFields (schema_ w) < 2 ^ 31 ->
  0 < a -> 0 < b -> a + b < 2 ^ 62 ->
  (w1 <- skip a w ;; skip b w1) = skip (a + b) w.
Proof.
  intros Hc HN Ha Hb Hab.
  set (N := getNumFields (schema_ w)) in *.
  set (col := colNum_ w) in *.
  rewrite (skip_unfold a w), (skip_unfold (a + b) w) by (fold N col; lia).
  cbv zeta. fold N col.
  set (ka := Z.min a (N - col)).
  set (kb := Z.min b (N - col - ka)).
  replace (Z.min (a + b) (N - col)) with (ka + kb) by lia.
  rewrite Z2Nat.inj_add by lia.
  rewrite skip_loop_app by lia. rewrite Z2Nat.id by lia.
  destruct (skip_loop (Z.to_nat ka) col w) as [w1|] eqn:E1; [|reflexivity].
  cbn [obind].
  destruct (skip_loop_frame _ _ _ _ E1) as (Hs & Hcol & _).
  rewrite skip_unfold;
    cbn [schema_ colNum_ set_colNum]; rewrite ?Hs; fold N; try lia.
  cbv zeta. cbn [schema_ colNum_ set_colNum]. rewrite ?Hs. fold N.
  replace (Z.min b (N - (col + ka))) with kb by lia.
  rewrite skip_loop_set_colNum.
  destruct (skip_loop (Z.to_nat kb) (col + ka) w1) as [w2|]; [|reflexivity].
  cbn [obind]. rewrite set_colNum_twice. f_equal. f_equal. lia.
Qed.

(** X9. A field whose type has no encoding is fatal to skip: [Skip(n)]
    does not return when the fields it covers include one, and neither
    does finalization ([encodeToIOBuf()], [encode()]) of a fixed-schema
    writer while such a field is still unwritten, since finalization pads
    by skipping the fields left. *)
Theorem skip_unsupported_is_fatal (n j : Z) (w : t) :
  0 <= colNum_ w <= getNumFields (schema_ w) ->
  getNumFields (schema_ w) < 2 ^ 31 ->
  colNum_ w <= j < getNumFields (schema_ w) ->
  getFieldType (schema_ w) j = Some UNSUPPORTED ->
  (j - colNum_ w < n < 2 ^ 62 -> skip n w = None) /\
  (schemaWriter_ w = false -> encoded_ w = false ->
   pad w = None /\ encodeToIOBuf w = None /\ encode w = None).
Proof.
  intros Hc HN Hj Hty.
  assert (Hskip : forall n, j - colNum_ w < n < 2 ^ 62 -> skip n w = None).
  { clear n. intros n Hn. rewrite skip_unfold by lia. cbv zeta.
    set (k := Z.min n (getNumFields (schema_ w) - colNum_ w)).
    replace (Z.to_nat k)
      with (Z.to_nat (j - colNum_ w) + (1 + Z.to_nat (k - (j - colNum_ w) - 1)))%nat
      by lia.
    rewrite skip_loop_app by lia. rewrite Z2Nat.id by lia.
    replace (colNum_ w + (j - colNum_ w)) with j by lia.
    destruct (skip_loop (Z.to_nat (j - colNum_ w)) (colNum_ w) w) as [w1|] eqn:E;
      [|reflexivity].
    cbn [obind Nat.add RowWriter.skip_loop].
    apply skip_loop_frame in E. destruct E as (Hs & _).
    rewrite skip_field_emit, Hs, Hty. reflexivity. }
  split; [apply Hskip|].
  intros Hsw He.
  assert (Hp : pad w = None).
  { unfold RowWriter.pad. rewrite Hsw. cbn [negb].
    rewrite to_int64_small by lia. apply Hskip. lia. }
  split; [exact Hp|].
  assert (Henc : encodeToIOBuf w = None).
  { unfold RowWriter.encodeToIOBuf. now rewrite He, Hp. }
  split; [exact Henc|].
  unfold RowWriter.encode, RowWriter.encodeTo. now rewrite He, Henc.
Qed.

(** X10. Finalization pads exactly as a trailing [Skip] does: on a
    fixed-schema writer that is not finalized, skipping at least the fields
    left and then calling [encodeToIOBuf()] gives the same writer and the
    same buffer chain as calling [encodeToIOBuf()] at once, and fails
    exactly when that does. *)
Theorem trailing_skip_is_padding (n : Z) (w : t) :
  0 <= colNum_ w <= getNumFields (schema_ w) ->
  getNumFields (schema_ w) < 2 ^ 31 ->
  schemaWriter_ w = false ->
  encoded_ w = false ->
  getNumFields (schema_ w) - colNum_ w <= n < 2 ^ 62 ->
  (w1 <- skip n w ;; encodeToIOBuf w1) = encodeToIOBuf w.
Proof.
  intros Hc HN Hsw He Hn.
  set (left := getNumFields (schema_ w) - colNum_ w) in *.
  unfold RowWriter.encodeToIOBuf at 2. rewrite He.
  unfold RowWriter.pad at 1. rewrite Hsw. cbn [negb]. fold left.
  rewrite (to_int64_small left) by lia.
  destruct (Z.eq_dec left 0) as [Hz|Hnz].
  - assert (Hsk : forall m, m < 2 ^ 62 -> skip m w = Some w).
    { intros m Hm. destruct (Z_le_gt_dec m 0) as [H0|Hpos].
      - unfold RowWriter.skip. destruct (Z.leb_spec m 0); [reflexivity|lia].
      - rewrite skip_unfold by lia. cbv zeta. fold left.
        rewrite Hz, Z.min_r by lia.
        cbn [Z.to_nat RowWriter.skip_loop obind].
        f_equal. apply set_colNum_same. lia. }
    rewrite Hsk by lia. cbn [obind].
    unfold RowWriter.encodeToIOBuf, RowWriter.pad.
    rewrite He, Hsw. cbn [negb]. fold left.
    rewrite (to_int64_small left) by lia. now rewrite Hsk by lia.
  - rewrite (skip_unfold n), (skip_unfold left) by (fold left; lia).
    cbv zeta. fold left. rewrite Z.min_r, Z.min_id by lia.
    destruct (skip_loop (Z.to_nat left) (colNum_ w) w) as [w1|] eqn:E;
      [|reflexivity].
    cbn [obind]. apply skip_loop_frame in E.
    destruct E as (Hs1 & _ & Hsw1 & He1).
    unfold RowWriter.encodeToIOBuf, RowWriter.pad.
    cbn [encoded_ schemaWriter_ schema_ colNum_ set_colNum].
    rewrite He1, Hsw1, Hs1, He, Hsw. cbn [negb].
    replace (getNumFields (schema_ w) - (colNum_ w + left)) with 0
      by (subst left; lia).
    reflexivity.
Qed.

End Skipping.

Section Rows.

Variable writeIntBytes : Z -> list byte.
Variable float_to_double : Z -> Z.
Variable double_to_float : Z -> Z.

Local Abbreviation trace :=
  (RowWriter.trace writeIntBytes float_to_double double_to_float).
Local Abbreviation row_trace :=
  (RowWriter.row_trace writeIntBytes float_to_double double_to_float).
Local Abbreviation run := (RowWriter.run writeIntBytes float_to_double double_to_float).
Local Abbreviation defaults := (RowWriter.defaults writeIntBytes).
Local Abbreviation encodeToIOBuf := (RowWriter.encodeToIOBuf writeIntBytes).
Local Abbreviation encode := (RowWriter.encode writeIntBytes).

Lemma marks_length_mono (n m : nat) :
  (n <= m)%nat -> (length (marks n) <= length (marks m))%nat.
Proof.
  induction 1 as [|m _ IH]; [lia|].
  rewrite RowWriterFacts.marks_S, length_app. lia.
Qed.

Lemma offsets_of_count (encs : list (list byte)) :
  length (offsets_of encs) = length (marks (length encs)).
Proof. unfold offsets_of. apply length_map. Qed.

Lemma calcOccupiedBytes_mono (a b : Z) :
  0 <= a <= b -> b < 2 ^ 64 -> calcOccupiedBytes a <= calcOccupiedBytes b.
Proof.
  intros Hab Hb.
  destruct (RowWriterFacts.calcOccupiedBytes_range b ltac:(lia)) as [Hr Hlt].
  apply RowWriterFacts.calcOccupiedBytes_least; lia.
Qed.

(** The header of a longer row is no shorter. *)
Lemma header_of_mono (v : Z) (encs ds : list (list byte)) :
  len (concat (encs ++ ds)) < 2 ^ 60 ->
  len (header_of v (len (concat encs)) (offsets_of encs))
  <= len (header_of v (len (concat (encs ++ ds))) (offsets_of (encs ++ ds))).
Proof.
  intros Hb. pose proof Hb as Hb'. rewrite concat_app, len_app in Hb'.
  pose proof (len_nonneg (concat encs)). pose proof (len_nonneg (concat ds)).
  rewrite !RowWriterFacts.header_of_length
    by (rewrite ?concat_app, ?len_app; lia).
  rewrite !offsets_of_count.
  pose proof (marks_length_mono (length encs) (length (encs ++ ds))
                ltac:(rewrite length_app; lia)) as Hm.
  pose proof (calcOccupiedBytes_mono (len (concat encs))
                (len (concat (encs ++ ds)))
                ltac:(rewrite concat_app, len_app; lia) ltac:(lia)) as Hc.
  destruct (RowWriterFacts.calcOccupiedBytes_range (len (concat encs))
              ltac:(lia)) as [Hr _].
  assert (calcOccupiedBytes (len (concat encs))
          * Z.of_nat (length (marks (length encs)))
          <= calcOccupiedBytes (len (concat (encs ++ ds)))
             * Z.of_nat (length (marks (length (encs ++ ds))))) by nia.
  lia.
Qed.

(** X11. [size()] does not see the padding.  For a row whose commands
    leave fields unwritten, [size()] taken before finalization counts only
    the fields completed so far: the finalized row is longer by at least
    the bytes of the defaults that finalization appends, so [size()] is
    the row's length only when those defaults are empty. *)
Theorem size_before_padding (s : SchemaProviderIf) (cs : list Command)
    (encs ds : list (list byte)) :
  Z.of_nat (length (fieldTypes s)) < 2 ^ 31 ->
  trace (fieldTypes s) 0 cs = Some encs ->
  defaults (skipn (length encs) (fieldTypes s)) = Some ds ->
  len (concat (encs ++ ds)) < 2 ^ 60 ->
  exists w w2 out,
    run cs (create (Some s)) = Some w /\
    encodeToIOBuf w = Some (w2, out) /\
    IOBuf.chain_bytes out
    = header_of (getVersion s) (len (concat (encs ++ ds)))
                (offsets_of (encs ++ ds)) ++ concat encs ++ concat ds /\
    size w + len (concat ds) <= len (IOBuf.chain_bytes out).
Proof.
  intros HN Ht Hd Hbound.
  pose proof Hbound as Hbound'. rewrite concat_app, len_app in Hbound'.
  pose proof (len_nonneg (concat encs)). pose proof (len_nonneg (concat ds)).
  destruct (RowWriterFacts.run_spec writeIntBytes float_to_double
              double_to_float s HN cs [] encs (create (Some s))
              (RowWriterFacts.tracks_create s) Ht)
    as (w & Hrun & Htr).
  { change (len (concat [])) with 0. lia. }
  cbn [app] in Htr.
  destruct (RowWriterFacts.size_spec s encs w Htr HN ltac:(lia))
    as (_ & Hsize & _).
  destruct (RowWriterFacts.encodeToIOBuf_spec writeIntBytes s encs ds w Htr HN
              Hd Hbound)
    as (w1 & w2 & out & _ & _ & Henc & Hbytes & _).
  exists w, w2, out. split; [exact Hrun|]. split; [exact Henc|].
  rewrite Hbytes, Hsize, concat_app. split; [reflexivity|].
  rewrite !len_app.
  pose proof (header_of_mono (getVersion s) encs ds Hbound) as Hh.
  rewrite concat_app, len_app in Hh. lia.
Qed.

(** X12. [size()] is the row's length only before finalization.  Once
    [encodeToIOBuf()] has put the header in front of the cord, [size()]
    adds a header on top of the finalized row: it exceeds the length of the
    row that [encode()] returns at any later time by the version bytes, the
    offset bytes (at the width of the whole row's length) and one. *)
Theorem size_after_finalize (s : SchemaProviderIf) (cs : list Command)
    (fs : list (list byte)) :
  Z.of_nat (length (fieldTypes s)) < 2 ^ 31 ->
  row_trace s cs = Some fs ->
  len (concat fs) < 2 ^ 60 ->
  exists w w2 row,
    run cs (create (Some s)) = Some w /\
    encode w = Some (w2, row) /\
    encode w2 = Some (w2, row) /\
    size w2 = len row
              + calcOccupiedBytes (len row)
                * Z.of_nat (length (offsets_of fs))
              + (if getVersion s >? 0
                 then calcOccupiedBytes (wrap64 (getVersion s)) else 0)
              + 1 /\
    len row < size w2.
Proof.
  intros HN Hrt Hbound.
  unfold RowWriter.row_trace in Hrt.
  destruct (trace (fieldTypes s) 0 cs) as [encs|] eqn:Et; [|discriminate].
  cbn [obind] in Hrt.
  destruct (defaults (skipn (length encs) (fieldTypes s))) as [ds|] eqn:Ed;
    [|discriminate].
  cbn [obind] in Hrt. injection Hrt as <-.
  pose proof Hbound as Hbound'. rewrite concat_app, len_app in Hbound'.
  pose proof (len_nonneg (concat encs)). pose proof (len_nonneg (concat ds)).
  destruct (RowWriterFacts.run_spec writeIntBytes float_to_double
              double_to_float s HN cs [] encs (create (Some s))
              (RowWriterFacts.tracks_create s) Et)
    as (w & Hrun & Htr).
  { change (len (concat [])) with 0. lia. }
  cbn [app] in Htr.
  destruct (RowWriterFacts.encodeToIOBuf_spec writeIntBytes s encs ds w Htr HN
              Ed Hbound)
    as (w1 & w2 & out & _ & _ & Henc & Hbytes & Hcord & _ & He2 & Hs2 & Hoff2
        & _).
  rewrite <- Hbytes in Hcord.
  exists w, w2, (IOBuf.chain_bytes out).
  split; [exact Hrun|].
  split; [apply RowWriterFacts.encode_first;
          [apply Htr|exact Henc|exact Hcord]|].
  split; [now apply RowWriterFacts.encode_finalized|].
  set (row := IOBuf.chain_bytes out) in *.
  assert (Hlen : (length (encs ++ ds) <= length (fieldTypes s))%nat).
  { rewrite length_app.
    pose proof (RowWriterFacts.defaults_length writeIntBytes _ _ Ed) as Hl.
    rewrite length_skipn in Hl. destruct Htr as (_ & _ & _ & _ & _ & Hle).
    lia. }
  pose proof (len_nonneg (concat (encs ++ ds))) as Hfs0.
  assert (Hrow : 0 <= len row < 2 ^ 61).
  { subst row. rewrite Hbytes, len_app, RowWriterFacts.header_of_length by lia.
    destruct (RowWriterFacts.calcOccupiedBytes_range
                (len (concat (encs ++ ds))) ltac:(lia)) as [Ho _].
    destruct (RowWriterFacts.calcOccupiedBytes_range (wrap64 (getVersion s)))
      as [Hv _].
    { apply Z.mod_pos_bound. lia. }
    pose proof (RowWriterFacts.offsets_of_length (encs ++ ds)) as Hcount.
    destruct (getVersion s >? 0); nia. }
  destruct (RowWriterFacts.calcOccupiedBytes_range (len row) ltac:(lia))
    as [Ho _].
  destruct (RowWriterFacts.calcOccupiedBytes_range (wrap64 (getVersion s)))
    as [Hv _].
  { apply Z.mod_pos_bound. lia. }
  pose proof (RowWriterFacts.offsets_of_length (encs ++ ds)) as Hcount.
  unfold size. rewrite Hcord, Hs2, Hoff2. cbn [Cord.size Cord.size_].
  rewrite to_int64_small by (destruct (getVersion s >? 0); nia).
  split; [reflexivity|]. destruct (getVersion s >? 0); nia.
Qed.

End Rows.

Local Abbreviation xskip := (RowWriter.skip example_writeInt).
Local Abbreviation xrun :=
  (RowWriter.run example_writeInt example_float_to_double
                 example_double_to_float).
Local Abbreviation xencodeToIOBuf := (RowWriter.encodeToIOBuf example_writeInt).
Local Abbreviation xencode := (RowWriter.encode example_writeInt).

Lemma skip_clamps_witness :
  xskip 5 (create (Some example_schema))
  = xskip 3 (create (Some example_schema)).
Proof.
  destruct (skip_clamps example_writeInt 5 (create (Some example_schema)))
    as (_ & _ & H & _).
  - vm_compute. split; discriminate.
  - reflexivity.
  - reflexivity.
  - apply H. vm_compute. split; [reflexivity|discriminate].
Defined.

Lemma skip_skip_witness :
  (w1 <- xskip 1 (create (Some wide_schema)) ;; xskip 20 w1)
  = xskip 21 (create (Some wide_schema)).
Proof.
  apply (skip_skip example_writeInt 1 20 (create (Some wide_schema))).
  - vm_compute. split; discriminate.
  - reflexivity.
  - reflexivity.
  - reflexivity.
  - reflexivity.
Defined.

Lemma skip_unsupported_is_fatal_witness :
  xskip 2 (create (Some (mkSchema 0 [BOOL; UNSUPPORTED]))) = None /\
  xencode (create (Some (mkSchema 0 [BOOL; UNSUPPORTED]))) = None.
Proof.
  destruct (skip_unsupported_is_fatal example_writeInt 2 1
              (create (Some (mkSchema 0 [BOOL; UNSUPPORTED]))))
    as (Hs & He).
  - vm_compute. split; discriminate.
  - reflexivity.
  - vm_compute. split; [discriminate|reflexivity].
  - reflexivity.
  - split.
    + apply Hs. vm_compute. split; reflexivity.
    + now apply He.
Defined.

Lemma size_before_padding_witness :
  exists w w2 out,
    xrun [Put (VBool true)] (create (Some example_schema)) = Some w /\
    xencodeToIOBuf w = Some (w2, out) /\
    size w = 3 /\
    12 <= len (IOBuf.chain_bytes out).
Proof.
  destruct (size_before_padding example_writeInt example_float_to_double
              example_double_to_float example_schema [Put (VBool true)]
              [[x01]] [[x00]; le_bytes 8 0])
    as (w & w2 & out & Hrun & Henc & _ & Hle).
  - vm_compute. reflexivity.
  - vm_compute. reflexivity.
  - vm_compute. reflexivity.
  - vm_compute. reflexivity.
  - exists w, w2, out. split; [exact Hrun|]. split; [exact Henc|].
    assert (Hw : Some w
                 = xrun [Put (VBool true)] (create (Some example_schema)))
      by (symmetry; exact Hrun).
    vm_compute in Hw. injection Hw as ->.
    split; [vm_compute; reflexivity|].
    change 12 with (3 + 9). exact Hle.
Defined.

Lemma size_after_finalize_witness :
  exists w w2 row,
    xrun example_commands (create (Some example_schema)) = Some w /\
    xencode w = Some (w2, row) /\
    xencode w2 = Some (w2, row) /\
    len row < size w2.
Proof.
  destruct (size_after_finalize example_writeInt example_float_to_double
              example_double_to_float example_schema example_commands
              [[x01]; [x02; x61; x62]; le_bytes 8 0])
    as (w & w2 & row & Hrun & He1 & He2 & _ & Hlt).
  - vm_compute. reflexivity.
  - vm_compute. reflexivity.
  - vm_compute. reflexivity.
  - exists w, w2, row. auto.
Defined.

Lemma trailing_skip_is_padding_witness :
  (w1 <- xskip 7 (create (Some example_schema)) ;; xencodeToIOBuf w1)
  = xencodeToIOBuf (create (Some example_schema)).
Proof.
  apply (trailing_skip_is_padding example_writeInt 7
           (create (Some example_schema))).
  - vm_compute. split; discriminate.
  - reflexivity.
  - reflexivity.
  - reflexivity.
  - vm_compute. split; [discriminate|reflexivity].
Defined.

End RowWriterExtra.

(** ** RowSetWriter *)
Module RowSetExtra.
Import RowSetWriter.

(** The length prefix takes one to ten bytes, whatever the length. *)
Lemma encodeVarint_length (v : Z) :
  1 <= len (Varint.encodeVarint v) <= 10.
Proof.
  unfold Varint.encodeVarint, len.
  pose proof (Z.mod_pos_bound v (2 ^ 64) ltac:(lia)) as Hw. fold (wrap64 v) in Hw.
  destruct (VarintFacts.loop_spec 9 (wrap64 v)) as (_ & _ & Hl).
  - change (2 ^ (7 * (Z.of_nat 9 + 1))) with (2 ^ 70). lia.
  - lia.
Qed.

(** Reading gives back what the loop of [encodeVarint] stored, and leaves
    the bytes that follow. *)
Lemma read_varint_loop (fuel : nat) :
  forall (v : Z) (rest : list byte),
    0 <= v < 2 ^ (7 * (Z.of_nat fuel + 1)) ->
    Varint.read_varint (Varint.encodeVarint_loop fuel v ++ rest)
    = Some (v, rest).
Proof.
  induction fuel as [|fuel IH]; intros v rest Hv.
  - change (2 ^ (7 * (Z.of_nat 0 + 1))) with 128 in Hv.
    destruct (VarintFacts.final_byte v Hv) as [Hd Hc].
    cbn [Varint.encodeVarint_loop app Varint.read_varint]. rewrite Hc.
    cbn [Varint.decode] in Hd. do 2 f_equal. lia.
  - cbn [Varint.encodeVarint_loop].
    destruct (Z.geb_spec v 128) as [Hge|Hlt].
    + assert (Hshift : 0 <= Z.shiftr v 7 < 2 ^ (7 * (Z.of_nat fuel + 1))).
      { rewrite Z.shiftr_div_pow2 by lia. split.
        - apply Z.div_pos; lia.
        - apply Z.div_lt_upper_bound; [lia|].
          rewrite <- Z.pow_add_r by lia.
          replace (7 + 7 * (Z.of_nat fuel + 1))
            with (7 * (Z.of_nat (S fuel) + 1)) by lia.
          lia. }
      destruct (VarintFacts.continuation_byte v ltac:(lia)) as [Hb Hc].
      cbn [app Varint.read_varint]. rewrite Hc, (IH _ rest Hshift), Hb.
      rewrite Z.shiftr_div_pow2 by lia. change (2 ^ 7) with 128.
      pose proof (Z.div_mod v 128 ltac:(lia)). do 2 f_equal. lia.
    + destruct (VarintFacts.final_byte v ltac:(lia)) as [Hd Hc].
      cbn [app Varint.read_varint]. rewrite Hc.
      cbn [Varint.decode] in Hd. do 2 f_equal. lia.
Qed.

Lemma read_varint_encodeVarint (v : Z) (rest : list byte) :
  0 <= v < 2 ^ 64 ->
  Varint.read_varint (Varint.encodeVarint v ++ rest) = Some (v, rest).
Proof.
  intros Hv. unfold Varint.encodeVarint. rewrite wrap64_small by exact Hv.
  apply read_varint_loop. change (2 ^ (7 * (Z.of_nat 9 + 1))) with (2 ^ 70).
  lia.
Qed.

Lemma read_rows_frames (rows : list (list byte)) :
  Forall (fun r => len r < 2 ^ 64) rows ->
  forall fuel : nat,
    (length (concat (map frame rows)) <= fuel)%nat ->
    read_rows fuel (concat (map frame rows)) = Some rows.
Proof.
  induction 1 as [|r rows Hr _ IH]; intros fuel Hfuel.
  - destruct fuel; reflexivity.
  - cbn [map concat] in *.
    change (frame r) with (Varint.encodeVarint (len r) ++ r) in *.
    pose proof (encodeVarint_length (len r)) as Hl.
    change (len (Varint.encodeVarint (len r)))
      with (Z.of_nat (length (Varint.encodeVarint (len r)))) in Hl.
    rewrite !length_app in Hfuel.
    destruct fuel as [|fuel]; [lia|].
    destruct (Varint.encodeVarint (len r)) as [|b pre] eqn:E;
      [cbn in Hl; lia|].
    cbn [app read_rows]. change (b :: (pre ++ r) ++ concat (map frame rows))
      with (((b :: pre) ++ r) ++ concat (map frame rows)).
    rewrite <- E, <- app_assoc.
    pose proof (len_nonneg r) as Hr0.
    rewrite read_varint_encodeVarint by lia.
    cbn [obind fst snd]. rewrite len_app.
    pose proof (len_nonneg (concat (map frame rows))).
    destruct (Z.leb_spec (len r) (len r + len (concat (map frame rows))));
      [|lia].
    unfold len at 1 2. rewrite Nat2Z.id.
    rewrite skipn_app, skipn_all, Nat.sub_diag, firstn_app, firstn_all,
      Nat.sub_diag.
    cbn [skipn firstn app]. rewrite app_nil_r.
    rewrite IH by (cbn [length] in Hfuel; lia).
    reflexivity.
Qed.

(** X13. The inline framing loses nothing: reading a length prefix and
    then that many bytes, over and over, gives back exactly the rows that
    were added, in order - empty rows included - so two sequences of rows
    that leave the same buffer are the same sequence. *)
Theorem framing_reads_back (rows : list (list byte)) :
  Forall (fun r => len r < 2 ^ 64) rows ->
  read_all (data_ (addRows rows create)) = Some rows /\
  (forall rows',
     Forall (fun r => len r < 2 ^ 64) rows' ->
     data_ (addRows rows' create) = data_ (addRows rows create) ->
     rows' = rows).
Proof.
  intros Hrows.
  assert (Hread : forall rs, Forall (fun r => len r < 2 ^ 64) rs ->
                             read_all (data_ (addRows rs create)) = Some rs).
  { intros rs Hrs. unfold read_all.
    destruct (RowSetWriterFacts.addRows_data rs create) as [-> _].
    cbn [data_ create app]. now apply read_rows_frames. }
  split; [now apply Hread|].
  intros rows' Hrows' Heq.
  pose proof (Hread rows' Hrows') as H1. rewrite Heq, (Hread rows Hrows) in H1.
  now injection H1.
Qed.

(** X14. Row sets merge: appending the inline buffer of a second row set
    with [addAll] is the same as adding the second set's rows one by one. *)
Theorem addAll_merges (rows1 rows2 : list (list byte)) (w : t) :
  addAll (data_ (addRows rows2 create)) (addRows rows1 w)
  = addRows (rows1 ++ rows2) w.
Proof.
  unfold addAll.
  destruct (RowSetWriterFacts.addRows_data rows1 w) as [Hd1 Hh1].
  destruct (RowSetWriterFacts.addRows_data rows2 create) as [Hd2 _].
  destruct (RowSetWriterFacts.addRows_data (rows1 ++ rows2) w) as [Hd Hh].
  destruct (addRows (rows1 ++ rows2) w) as [d h]. cbn [data_ head_] in Hd, Hh.
  rewrite Hd1, Hd2, Hh1, Hd, Hh, map_app, concat_app. cbn [data_ create app].
  now rewrite app_assoc.
Qed.

Lemma addRow_buf_spec (b : IOBuf.t) (r : list IOBuf.t) (w : t) :
  10 <= IOBuf.headroom b ->
  len (IOBuf.chain_bytes (b :: r)) < 2 ^ 64 ->
  exists b',
    addRow_buf (b :: r) w = Some (mk (data_ w) (head_ w ++ b' :: r)) /\
    IOBuf.data b' = Varint.encodeVarint (len (IOBuf.chain_bytes (b :: r)))
                    ++ IOBuf.data b /\
    IOBuf.capacity b' = IOBuf.capacity b /\
    0 <= IOBuf.headroom b' <= IOBuf.headroom b.
Proof.
  intros Hh Hb. unfold addRow_buf, writeRowLength_buf, prepend_bytes.
  rewrite CordExtra.computeChainDataLength_exact by exact Hb.
  pose proof (encodeVarint_length (len (IOBuf.chain_bytes (b :: r)))) as Hl.
  destruct (Z.leb_spec
              (len (Varint.encodeVarint (len (IOBuf.chain_bytes (b :: r)))))
              (IOBuf.headroom b)); [|lia].
  cbn [obind]. eexists. split; [reflexivity|].
  cbn [IOBuf.data IOBuf.capacity IOBuf.headroom].
  split; [reflexivity|]. split; [reflexivity|]. lia.
Qed.

(** X15. The chain path frames as the inline path does.  After any
    sequence of [addRow(std::unique_ptr<folly::IOBuf>)] calls with rows
    whose head buffer has ten bytes of head room, the chain of the row set
    holds what it held before followed by each row's length prefix and
    bytes, in call order - the very bytes that [addRow(const std::string&)]
    leaves in the inline buffer for the same rows; the inline buffer is not
    touched, and no buffer is added or dropped: the chain gains the
    segments of the rows. *)
Theorem chain_framing (rows : list (list IOBuf.t)) (w : t) :
  Forall roomy rows ->
  exists w',
    addRows_buf rows w = Some w' /\
    data_ w' = data_ w /\
    IOBuf.chain_bytes (head_ w')
    = IOBuf.chain_bytes (head_ w)
      ++ data_ (addRows (map IOBuf.chain_bytes rows) create) /\
    length (head_ w') = (length (head_ w) + length (concat rows))%nat.
Proof.
  intros Hrows. revert w.
  induction Hrows as [|row rows Hrow _ IH]; intros w.
  - exists w. cbn. rewrite app_nil_r. auto.
  - destruct row as [|b r]; [contradiction|]. destruct Hrow as [Hh Hb].
    destruct (addRow_buf_spec b r w Hh Hb) as (b' & Hadd & Hdata & _).
    destruct (IH (mk (data_ w) (head_ w ++ b' :: r)))
      as (w' & Hrest & Hd & Hbytes & Hlen).
    exists w'. cbn [addRows_buf]. rewrite Hadd. cbn [obind].
    split; [exact Hrest|]. split; [exact Hd|].
    cbn [data_ head_] in Hbytes, Hlen. split.
    + rewrite Hbytes, CordFacts.chain_bytes_app.
      destruct (RowSetWriterFacts.addRows_data (map IOBuf.chain_bytes rows)
                  create) as [-> _].
      destruct (RowSetWriterFacts.addRows_data
                  (map IOBuf.chain_bytes ((b :: r) :: rows)) create)
        as [-> _].
      cbn [data_ create app map concat].
      change (IOBuf.chain_bytes (b' :: r))
        with (IOBuf.data b' ++ IOBuf.chain_bytes r).
      rewrite Hdata.
      change (IOBuf.chain_bytes (b :: r))
        with (IOBuf.data b ++ IOBuf.chain_bytes r).
      now rewrite <- !app_assoc.
    + rewrite Hlen, length_app. cbn [concat length].
      rewrite length_app. cbn [length]. lia.
Qed.

Lemma writeRowLength_buf_spec (b : IOBuf.t) (r : list IOBuf.t) :
  10 <= IOBuf.headroom b ->
  len (IOBuf.chain_bytes (b :: r)) < 2 ^ 64 ->
  exists b',
    writeRowLength_buf (b :: r) = Some (b' :: r) /\
    IOBuf.chain_bytes (b' :: r) = frame (IOBuf.chain_bytes (b :: r)) /\
    0 <= IOBuf.headroom b' < IOBuf.headroom b.
Proof.
  intros Hh Hb. unfold writeRowLength_buf, prepend_bytes.
  rewrite CordExtra.computeChainDataLength_exact by exact Hb.
  pose proof (encodeVarint_length (len (IOBuf.chain_bytes (b :: r)))) as Hl.
  destruct (Z.leb_spec
              (len (Varint.encodeVarint (len (IOBuf.chain_bytes (b :: r)))))
              (IOBuf.headroom b)); [|lia].
  cbn [obind]. eexists. split; [reflexivity|].
  cbn [IOBuf.headroom]. split; [|lia].
  unfold frame, IOBuf.chain_bytes. cbn [map concat IOBuf.data].
  now rewrite <- app_assoc.
Qed.

Section Rows.

Variable writeIntBytes : Z -> list byte.
Variable float_to_double : Z -> Z.
Variable double_to_float : Z -> Z.

Local Abbreviation trace :=
  (RowWriter.trace writeIntBytes float_to_double double_to_float).
Local Abbreviation row_trace :=
  (RowWriter.row_trace writeIntBytes float_to_double double_to_float).
Local Abbreviation run := (RowWriter.run writeIntBytes float_to_double double_to_float).
Local Abbreviation defaults := (RowWriter.defaults writeIntBytes).
Local Abbreviation encodeToIOBuf := (RowWriter.encodeToIOBuf writeIntBytes).
Local Abbreviation encodeTo := (RowWriter.encodeTo writeIntBytes).
Local Abbreviation encode := (RowWriter.encode writeIntBytes).
Local Abbreviation addRow_writer := (RowSetWriter.addRow_writer writeIntBytes).

(** [encodeTo] appends the finalized row to the string it is given. *)
Lemma encodeTo_first (data : list byte) (w w2 : RowWriter.t)
    (out : list IOBuf.t) :
  RowWriter.encoded_ w = false ->
  encodeToIOBuf w = Some (w2, out) ->
  RowWriter.cord_ w2 = Cord.mk (len (IOBuf.chain_bytes out)) out ->
  encodeTo data w = Some (w2, data ++ IOBuf.chain_bytes out).
Proof.
  intros He Henc Hc. unfold RowWriter.encodeTo.
  rewrite He, Henc. cbn [negb obind fst].
  rewrite CordFacts.appendTo_sized by (rewrite Hc; reflexivity).
  cbn [obind fst]. rewrite Hc. reflexivity.
Qed.

Lemma encodeTo_finalized (data : list byte) (w2 : RowWriter.t)
    (out : list IOBuf.t) :
  RowWriter.encoded_ w2 = true ->
  RowWriter.cord_ w2 = Cord.mk (len (IOBuf.chain_bytes out)) out ->
  encodeTo data w2 = Some (w2, data ++ IOBuf.chain_bytes out).
Proof.
  intros He Hc. unfold RowWriter.encodeTo.
  rewrite He. cbn [negb obind].
  rewrite CordFacts.appendTo_sized by (rewrite Hc; reflexivity).
  cbn [obind fst]. rewrite Hc. reflexivity.
Qed.

(** X16. [addRow(RowWriter&)] frames with [size()] as it is before the
    call.  It appends to the inline buffer the varint of the writer's
    [size()], taken before finalization, and then the finalized row, and
    leaves the writer finalized.  When the commands have written or skipped
    every field this is the frame that [addRow(const std::string&)] makes
    of the encoded row; adding the same writer a second time appends the
    same row again, now behind the varint of [size()] after finalization. *)
Theorem addRow_writer_frames (s : RowWriter.SchemaProviderIf)
    (cs : list RowWriter.Command) (encs ds : list (list byte)) (rs : t) :
  Z.of_nat (length (RowWriter.fieldTypes s)) < 2 ^ 31 ->
  trace (RowWriter.fieldTypes s) 0 cs = Some encs ->
  defaults (skipn (length encs) (RowWriter.fieldTypes s)) = Some ds ->
  len (concat (encs ++ ds)) < 2 ^ 60 ->
  exists w w2 row,
    run cs (RowWriter.create (Some s)) = Some w /\
    encode w = Some (w2, row) /\
    addRow_writer w rs
    = Some (mk (data_ rs ++ Varint.encodeVarint (RowWriter.size w) ++ row)
               (head_ rs), w2) /\
    (ds = [] -> addRow_writer w rs = Some (addRow row rs, w2)) /\
    addRow_writer w2 rs
    = Some (mk (data_ rs ++ Varint.encodeVarint (RowWriter.size w2) ++ row)
               (head_ rs), w2).
Proof.
  intros HN Ht Hd Hbound.
  pose proof Hbound as Hbound'. rewrite concat_app, len_app in Hbound'.
  pose proof (len_nonneg (concat encs)). pose proof (len_nonneg (concat ds)).
  destruct (RowWriterFacts.run_spec writeIntBytes float_to_double
              double_to_float s HN cs [] encs (RowWriter.create (Some s))
              (RowWriterFacts.tracks_create s) Ht)
    as (w & Hrun & Htr).
  { change (len (concat [])) with 0. lia. }
  cbn [app] in Htr.
  destruct (RowWriterFacts.size_spec s encs w Htr HN ltac:(lia))
    as (_ & Hsize & _).
  destruct (RowWriterFacts.encodeToIOBuf_spec writeIntBytes s encs ds w Htr HN
              Hd Hbound)
    as (w1 & w2 & out & _ & _ & Henc & Hbytes & Hcord & _ & He2 & _).
  rewrite <- Hbytes in Hcord.
  assert (He : RowWriter.encoded_ w = false) by apply Htr.
  exists w, w2, (IOBuf.chain_bytes out).
  split; [exact Hrun|].
  split; [now apply RowWriterFacts.encode_first|].
  assert (Hadd : addRow_writer w rs
                 = Some (mk (data_ rs ++ Varint.encodeVarint (RowWriter.size w)
                               ++ IOBuf.chain_bytes out) (head_ rs), w2)).
  { unfold RowSetWriter.addRow_writer, writeRowLength. cbn [data_ head_].
    rewrite (encodeTo_first _ w w2 out He Henc Hcord). cbn [obind fst snd].
    now rewrite <- app_assoc. }
  split; [exact Hadd|]. split.
  - intros ->. rewrite Hadd. unfold addRow, writeRowLength. cbn [data_ head_].
    rewrite Hsize, Hbytes, app_nil_r, len_app, <- app_assoc. reflexivity.
  - unfold RowSetWriter.addRow_writer, writeRowLength. cbn [data_ head_].
    rewrite (encodeTo_finalized _ w2 out He2 Hcord). cbn [obind fst snd].
    now rewrite <- app_assoc.
Qed.

(** X17. The header buffer leaves room for the length prefix.  The chain
    that [encodeToIOBuf()] returns starts with the header buffer, which
    keeps ten bytes of head room; the varint of the row's length needs at
    most ten, so [writeRowLength(folly::IOBuf *buf)] fits the prefix in front
    of the header without touching the row, and the chain then holds the
    row's frame.  (Whether the buffer is shared is not part of the
    model.) *)
Theorem header_leaves_room (s : RowWriter.SchemaProviderIf)
    (cs : list RowWriter.Command) (fs : list (list byte)) :
  Z.of_nat (length (RowWriter.fieldTypes s)) < 2 ^ 31 ->
  row_trace s cs = Some fs ->
  len (concat fs) < 2 ^ 60 ->
  exists w w2 out out',
    run cs (RowWriter.create (Some s)) = Some w /\
    encodeToIOBuf w = Some (w2, out) /\
    roomy out /\
    writeRowLength_buf out = Some out' /\
    IOBuf.chain_bytes out' = frame (IOBuf.chain_bytes out) /\
    tl out' = tl out.
Proof.
  intros HN Hrt Hbound.
  unfold RowWriter.row_trace in Hrt.
  destruct (trace (RowWriter.fieldTypes s) 0 cs) as [encs|] eqn:Et;
    [|discriminate].
  cbn [obind] in Hrt.
  destruct (defaults (skipn (length encs) (RowWriter.fieldTypes s)))
    as [ds|] eqn:Ed; [|discriminate].
  cbn [obind] in Hrt. injection Hrt as <-.
  pose proof Hbound as Hbound'. rewrite concat_app, len_app in Hbound'.
  pose proof (len_nonneg (concat encs)). pose proof (len_nonneg (concat ds)).
  pose proof (len_nonneg (concat (encs ++ ds))) as Hfs0.
  destruct (RowWriterFacts.run_spec writeIntBytes float_to_double
              double_to_float s HN cs [] encs (RowWriter.create (Some s))
              (RowWriterFacts.tracks_create s) Et)
    as (w & Hrun & Htr).
  { change (len (concat [])) with 0. lia. }
  cbn [app] in Htr.
  destruct (RowWriterFacts.pad_spec writeIntBytes s encs ds w Htr HN Ed Hbound')
    as (w1 & Hp & Htr1 & Hfull & _).
  destruct (RowWriterFacts.synthesizeHeader_spec s (encs ++ ds) w1 Htr1 HN
              Hbound)
    as (w2 & hb & Hsyn & Hdata & Hroom & _).
  assert (He : RowWriter.encoded_ w = false) by apply Htr.
  assert (Henc : encodeToIOBuf w
                 = Some (w2, hb :: Cord.head_ (RowWriter.cord_ w1))).
  { unfold RowWriter.encodeToIOBuf. rewrite He, Hp. exact Hsyn. }
  assert (Hlen : len (IOBuf.chain_bytes (hb :: Cord.head_ (RowWriter.cord_ w1)))
                 < 2 ^ 64).
  { change (IOBuf.chain_bytes (hb :: Cord.head_ (RowWriter.cord_ w1)))
      with (IOBuf.data hb ++ Cord.content (RowWriter.cord_ w1)).
    destruct Htr1 as ((_ & Hc1 & _) & _).
    rewrite Hdata, Hc1, len_app, RowWriterFacts.header_of_length by lia.
    destruct (RowWriterFacts.calcOccupiedBytes_range
                (len (concat (encs ++ ds))) ltac:(lia)) as [Ho _].
    destruct (RowWriterFacts.calcOccupiedBytes_range
                (wrap64 (RowWriter.getVersion s))) as [Hv _].
    { apply Z.mod_pos_bound. lia. }
    pose proof (RowWriterFacts.offsets_of_length (encs ++ ds)) as Hcount.
    destruct (RowWriter.getVersion s >? 0); nia. }
  destruct (writeRowLength_buf_spec hb (Cord.head_ (RowWriter.cord_ w1))
              ltac:(lia) Hlen) as (b' & Hw & Hb & _).
  exists w, w2, (hb :: Cord.head_ (RowWriter.cord_ w1)),
    (b' :: Cord.head_ (RowWriter.cord_ w1)).
  split; [exact Hrun|]. split; [exact Henc|].
  split; [split; [lia|exact Hlen]|].
  split; [exact Hw|]. split; [exact Hb|reflexivity].
Qed.

End Rows.

Lemma framing_reads_back_witness :
  read_all (data_ (addRows [[x61; x62]; []; [x63]] create))
  = Some [[x61; x62]; []; [x63]].
Proof.
  apply (framing_reads_back [[x61; x62]; []; [x63]]).
  repeat constructor.
Defined.

Lemma chain_framing_witness :
  exists w',
    addRows_buf [[IOBuf.mk 13 10 [x61; x62; x63]];
                 [IOBuf.mk 12 10 [x64]; IOBuf.mk 4 0 [x65]]] create
    = Some w' /\
    data_ w' = [] /\
    IOBuf.chain_bytes (head_ w') = [x03; x61; x62; x63; x02; x64; x65].
Proof.
  destruct (chain_framing [[IOBuf.mk 13 10 [x61; x62; x63]];
                           [IOBuf.mk 12 10 [x64]; IOBuf.mk 4 0 [x65]]] create)
    as (w' & Hadd & Hd & Hb & _).
  - repeat constructor; cbn [IOBuf.headroom]; lia.
  - exists w'. split; [exact Hadd|]. split; [exact Hd|]. rewrite Hb.
    vm_compute. reflexivity.
Defined.

Lemma addRow_writer_frames_witness :
  exists w w2 row,
    RowWriter.run RowWriter.example_writeInt RowWriter.example_float_to_double
      RowWriter.example_double_to_float RowWriter.example_commands
      (RowWriter.create (Some RowWriter.example_schema)) = Some w /\
    RowWriter.encode RowWriter.example_writeInt w = Some (w2, row) /\
    addRow_writer RowWriter.example_writeInt w create
    = Some (addRow row create, w2).
Proof.
  destruct (addRow_writer_frames RowWriter.example_writeInt
              RowWriter.example_float_to_double
              RowWriter.example_double_to_float RowWriter.example_schema
              RowWriter.example_commands
              [[x01]; [x02; x61; x62]; le_bytes 8 0] [] create)
    as (w & w2 & row & Hrun & Henc & _ & Hfull & _).
  - vm_compute. reflexivity.
  - vm_compute. reflexivity.
  - vm_compute. reflexivity.
  - vm_compute. reflexivity.
  - exists w, w2, row. split; [exact Hrun|]. split; [exact Henc|].
    now apply Hfull.
Defined.

Lemma header_leaves_room_witness :
  exists w w2 out out',
    RowWriter.run RowWriter.example_writeInt RowWriter.example_float_to_double
      RowWriter.example_double_to_float RowWriter.example_commands
      (RowWriter.create (Some RowWriter.example_schema)) = Some w /\
    RowWriter.encodeToIOBuf RowWriter.example_writeInt w = Some (w2, out) /\
    writeRowLength_buf out = Some out' /\
    IOBuf.chain_bytes out' = frame (IOBuf.chain_bytes out).
Proof.
  destruct (header_leaves_room RowWriter.example_writeInt
              RowWriter.example_float_to_double
              RowWriter.example_double_to_float RowWriter.example_schema
              RowWriter.example_commands
              [[x01]; [x02; x61; x62]; le_bytes 8 0])
    as (w & w2 & out & out' & Hrun & Henc & _ & Hw & Hb & _).
  - vm_compute. reflexivity.
  - vm_compute. reflexivity.
  - vm_compute. reflexivity.
  - exists w, w2, out, out'. auto.
Defined.

End RowSetExtra.
